(** * Operon: node kinds, the postorder tree, the batched interpreter and the
      forward-mode derivative calculator

    A shallow embedding of
    - [include/operon/core/node.hpp]           (NodeType, NodeTypes, Node),
    - [include/operon/interpreter/interpreter.hpp]
                                               (op, dispatch_op, Evaluate),
    - [include/operon/autodiff/forward/forward.hpp]
                                               (DerivativeCalculator).

    Unsigned machine integers are integers of [Z] with their wrap-around
    written out; vectors are lists read with [!!] and written with
    [<[ _ := _ ]>]; an out-of-bounds access, which is undefined behaviour in
    the source, makes the embedded function return [None]. *)

From Stdlib Require Import ZArith Lia List Bool Sorted.
From stdpp Require Import gmultiset sorting base numbers option list.

Local Open Scope Z_scope.

(** ** Node kinds ([enum class NodeType : uint32_t]) *)

Module NodeType.

Inductive t : Set :=
| Add | Mul | Sub | Div | Aq | Fmax | Fmin | Pow
| Abs | Acos | Asin | Atan | Cbrt | Ceil | Cos | Cosh | Exp | Floor
| Log | Logabs | Log1p | Sin | Sinh | Sqrt | Sqrtabs | Tan | Tanh | Square
| Dynamic | Constant | Variable_.

(** The shift amount [k] of the enumerator's initialiser [1u << k]. *)
Definition shift (ty : t) : Z :=
  match ty with
  | Add => 0 | Mul => 1 | Sub => 2 | Div => 3
  | Aq => 4 | Fmax => 5 | Fmin => 6 | Pow => 7
  | Abs => 8 | Acos => 9 | Asin => 10 | Atan => 11 | Cbrt => 12
  | Ceil => 13 | Cos => 14 | Cosh => 15 | Exp => 16 | Floor => 17
  | Log => 18 | Logabs => 19 | Log1p => 20 | Sin => 21 | Sinh => 22
  | Sqrt => 23 | Sqrtabs => 24 | Tan => 25 | Tanh => 26 | Square => 27
  | Dynamic => 28 | Constant => 29 | Variable_ => 30
  end.

(** [static_cast<utype>(type)]. *)
Definition utype (ty : t) : Z := Z.shiftl 1 (shift ty).

(** The relational operators of a scoped enumeration compare the
    underlying values. *)
Definition ltb (a b : t) : bool := utype a <? utype b.
Definition eqb (a b : t) : bool := utype a =? utype b.

Definition all : list t :=
  [ Add; Mul; Sub; Div; Aq; Fmax; Fmin; Pow;
    Abs; Acos; Asin; Atan; Cbrt; Ceil; Cos; Cosh; Exp; Floor;
    Log; Logabs; Log1p; Sin; Sinh; Sqrt; Sqrtabs; Tan; Tanh; Square;
    Dynamic; Constant; Variable_ ].

End NodeType.

(** ** [struct NodeTypes] *)

Module NodeTypes.

(** [static constexpr size_t Count = 31]. *)
Definition Count : nat := 31.

(** [std::bitset<N>(x).count()]: the number of set bits among the [N] low
    bits of [x]. *)
Fixpoint bitset_count (N : nat) (x : Z) : Z :=
  match N with
  | O => 0
  | S k => bitset_count k x + (if Z.testbit x (Z.of_nat k) then 1 else 0)
  end.

(** The subtraction is done on [uint32_t] and wraps modulo [2^32]. *)
Definition GetIndex_raw (u : Z) : Z :=
  bitset_count Count ((u - 1) mod 2 ^ 32).

Definition GetIndex (type : NodeType.t) : Z :=
  GetIndex_raw (NodeType.utype type).

End NodeTypes.

(** ** [struct Node] *)

Section NodeRecord.

Context {Scalar : Type}.

(** [Optimize] is read by [GenericInterpreter::Evaluate]; the header under
    study predates the field, so its constructor leaves it alone. *)
Record Node : Type := mkNode {
  HashValue : Z;
  CalculatedHashValue : Z;
  Value : Scalar;
  Arity : nat;
  Length : nat;
  Depth : nat;
  Level : nat;
  Parent : nat;
  Type_ : NodeType.t;
  IsEnabled : bool;
  Optimize : bool
}.

(** [explicit Node(NodeType type, Operon::Hash hashValue)].  The members the
    constructor does not assign keep whatever the storage [this] held. *)
Definition Node_init2 (one : Scalar) (this : Node)
    (type : NodeType.t) (hashValue : Z) : Node :=
  let arity :=
    if NodeType.ltb type NodeType.Abs then 2%nat
    else if NodeType.ltb type NodeType.Constant then 1%nat
    else 0%nat in
  {| HashValue := hashValue;
     CalculatedHashValue := hashValue;
     Value := one;
     Arity := arity;
     Length := arity;
     Depth := Depth this;
     Level := Level this;
     Parent := Parent this;
     Type_ := type;
     IsEnabled := true;
     Optimize := Optimize this |}.

(** [explicit Node(NodeType type)] delegates with
    [static_cast<Operon::Hash>(type)]. *)
Definition Node_init (one : Scalar) (this : Node) (type : NodeType.t) : Node :=
  Node_init2 one this type (NodeType.utype type).

Definition IsLeaf (n : Node) : bool := Nat.eqb (Arity n) 0.
Definition IsCommutative (n : Node) : bool :=
  NodeType.ltb (Type_ n) NodeType.Sub.

(** [template <NodeType... T> bool Is() const]. *)
Definition Is (ts : list NodeType.t) (n : Node) : bool :=
  existsb (NodeType.eqb (Type_ n)) ts.
Definition IsConstant (n : Node) : bool := Is [NodeType.Constant] n.
Definition IsVariable (n : Node) : bool := Is [NodeType.Variable_] n.

End NodeRecord.

Arguments Node : clear implicits.

(** ** Overloaded arithmetic

    [op] and [dispatch_op] are written once against the overloaded operators
    [+ - * /], unary minus and [inverse()]; the same text is instantiated at
    Eigen column expressions, at the primal scalar and at the dual number. *)

Class FieldOps (A : Type) : Type := {
  f_add : A -> A -> A;
  f_sub : A -> A -> A;
  f_mul : A -> A -> A;
  f_div : A -> A -> A;
  f_neg : A -> A;
  f_inv : A -> A;
  f_max : A -> A -> A;
  f_min : A -> A -> A
}.

(** What the interpreter needs of a scalar type [T] beyond the operators:
    the host math library (one function per unary kind), [pow], and the
    constants [T{0}] and [T{1}]. *)
Class ScalarFns (T : Type) : Type := {
  s_math : NodeType.t -> T -> T;
  s_pow : T -> T -> T;
  s_zero : T;
  s_one : T
}.

(** Eigen arrays: every operator acts coefficient-wise. *)
#[global] Instance FieldOps_col {T : Type} {FO : FieldOps T} : FieldOps (list T) := {
  f_add := zip_with f_add;
  f_sub := zip_with f_sub;
  f_mul := zip_with f_mul;
  f_div := zip_with f_div;
  f_neg := fmap f_neg;
  f_inv := fmap f_inv;
  f_max := zip_with f_max;
  f_min := zip_with f_min
}.

(** ** [detail::op] and [detail::dispatch_op] *)

(** [size_t] is 64 bits wide. *)
Definition SIZE_MOD : Z := 2 ^ 64.

(** [v[i]] for a [size_t] index: [None] where the source reads out of
    bounds. *)
Definition at_ {A : Type} (v : list A) (i : Z) : option A :=
  if 0 <=? i then v !! Z.to_nat i else None.

Section Dispatch.

Context {Scalar : Type} {A : Type} {FO : FieldOps A}.

(** The fold expression [(args + ...)] is a unary right fold over a
    non-empty pack. *)
Fixpoint fold_pack (f : A -> A -> A) (a : A) (args : list A) : A :=
  match args with
  | [] => a
  | b :: rest => f a (fold_pack f b rest)
  end.

(** [op<T, N>::operator()(ret, arg1)]: the value assigned to [ret]. *)
Definition op1 (N : NodeType.t) (arg1 : A) : A :=
  match N with
  | NodeType.Sub => f_neg arg1
  | NodeType.Div => f_inv arg1
  | _ => arg1
  end.

(** [op<T, N>::operator()(ret, arg1, args...)] with a non-empty pack
    [a, args].  The primary template (addition) serves every kind without
    a specialisation.

    Modelled from the spec: the specialisations for Fmax and Fmin are not
    among the sources; by the spec they fold with the kernel's binary
    operation, the componentwise maximum and minimum. *)
Definition opn (N : NodeType.t) (arg1 a : A) (args : list A) : A :=
  match N with
  | NodeType.Sub => f_sub arg1 (fold_pack f_add a args)
  | NodeType.Mul => f_mul arg1 (fold_pack f_mul a args)
  | NodeType.Div => f_div arg1 (fold_pack f_mul a args)
  | NodeType.Fmax => f_max arg1 (fold_pack f_max a args)
  | NodeType.Fmin => f_min arg1 (fold_pack f_min a args)
  | _ => f_add arg1 (fold_pack f_add a args)
  end.

(** The lambda [nextSibling]: [i - (nodes[i].Length + 1)] on [size_t]. *)
Definition nextSibling (nodes : list (Node Scalar)) (i : Z) : option Z :=
  n ← at_ nodes i;
  Some ((i - (Z.of_nat (Length n) + 1)) mod SIZE_MOD).

(** [r = ...]: the column [parentIndex] of [m] is overwritten. *)
Definition assign (m : list A) (parentIndex : Z) (c : A) : list A :=
  <[Z.to_nat parentIndex := c]> m.

(** The five-operand call shared by [case 5] and [default]; returns the
    matrix and [j4]. *)
Definition five (N : NodeType.t) (nodes : list (Node Scalar))
    (parentIndex i : Z) (m : list A) : option (list A * Z) :=
  j1 ← nextSibling nodes i;
  j2 ← nextSibling nodes j1;
  j3 ← nextSibling nodes j2;
  j4 ← nextSibling nodes j3;
  ci ← at_ m i; c1 ← at_ m j1; c2 ← at_ m j2; c3 ← at_ m j3; c4 ← at_ m j4;
  Some (assign m parentIndex (opn N ci c1 [c2; c3; c4]), j4).

(** The [do { switch (arity) ... } while (arity > 0)] loop.  [arity] only
    decreases, by five per round, so the recursion is structural. *)
Fixpoint dispatch_loop (N : NodeType.t) (nodes : list (Node Scalar))
    (parentIndex : Z) (arity : nat) (i : Z) (continued : bool)
    (m : list A) {struct arity} : option (list A) :=
  match arity with
  | 1%nat =>
      ci ← at_ m i;
      if continued
      then r ← at_ m parentIndex; Some (assign m parentIndex (opn N r ci []))
      else Some (assign m parentIndex (op1 N ci))
  | 2%nat =>
      j1 ← nextSibling nodes i;
      ci ← at_ m i; c1 ← at_ m j1;
      Some (assign m parentIndex (opn N ci c1 []))
  | 3%nat =>
      j1 ← nextSibling nodes i;
      j2 ← nextSibling nodes j1;
      ci ← at_ m i; c1 ← at_ m j1; c2 ← at_ m j2;
      Some (assign m parentIndex (opn N ci c1 [c2]))
  | 4%nat =>
      j1 ← nextSibling nodes i;
      j2 ← nextSibling nodes j1;
      j3 ← nextSibling nodes j2;
      ci ← at_ m i; c1 ← at_ m j1; c2 ← at_ m j2; c3 ← at_ m j3;
      Some (assign m parentIndex (opn N ci c1 [c2; c3]))
  | 5%nat =>
      fst <$> five N nodes parentIndex i m
  | 0%nat =>
      (* default: with [arity == 0] one round runs and the loop exits *)
      '(m', j4) ← five N nodes parentIndex i m;
      _ ← nextSibling nodes j4;
      Some m'
  | S (S (S (S (S (S _ as arity'))))) =>
      (* default: [arity -= 5] leaves [arity' > 0] *)
      '(m', j4) ← five N nodes parentIndex i m;
      i' ← nextSibling nodes j4;
      dispatch_loop N nodes parentIndex arity' i' true m'
  end.

(** [dispatch_op<T, N>(m, nodes, parentIndex)]. *)
Definition dispatch_op (N : NodeType.t) (m : list A)
    (nodes : list (Node Scalar)) (parentIndex : Z) : option (list A) :=
  _ ← at_ m parentIndex;
  n ← at_ nodes parentIndex;
  dispatch_loop N nodes parentIndex (Arity n)
    ((parentIndex - 1) mod SIZE_MOD) false m.

(** The loop of [dispatch_op_simple]: [j -= nodes[j].Length + 1] and
    [op(r, m.col(j), r)], [count] times. *)
Fixpoint simple_loop (N : NodeType.t) (nodes : list (Node Scalar))
    (parentIndex : Z) (count : nat) (j : Z) (m : list A) : option (list A) :=
  match count with
  | O => Some m
  | S count' =>
      j' ← nextSibling nodes j;
      cj ← at_ m j';
      r ← at_ m parentIndex;
      simple_loop N nodes parentIndex count' j'
        (assign m parentIndex (opn N cj r []))
  end.

(** [dispatch_op_simple<T, N>(m, nodes, parentIndex)], the unchunked
    sibling of [dispatch_op]. *)
Definition dispatch_op_simple (N : NodeType.t) (m : list A)
    (nodes : list (Node Scalar)) (parentIndex : Z) : option (list A) :=
  r ← at_ m parentIndex;
  n ← at_ nodes parentIndex;
  let j := (parentIndex - 1) mod SIZE_MOD in
  cj ← at_ m j;
  if (Arity n =? 1)%nat then Some (assign m j (op1 N r))
  else simple_loop N nodes parentIndex (Arity n - 1) j (assign m parentIndex cj).

End Dispatch.

(** ** The postorder encoding *)

Section Postorder.

Context {Scalar : Type}.

(** The first [k] indices of the sibling recurrence started at [i]:
    [c0 = i], [c(j+1) = nextSibling(cj)]. *)
Fixpoint siblings (nodes : list (Node Scalar)) (i : Z) (k : nat) :
    option (list Z) :=
  match k with
  | O => Some []
  | S k' =>
      j ← nextSibling nodes i;
      cs ← siblings nodes j k';
      Some (i :: cs)
  end.

(** The children of the node at [p]: [Arity] siblings from [p - 1] on. *)
Definition children (nodes : list (Node Scalar)) (p : Z) : option (list Z) :=
  n ← at_ nodes p;
  siblings nodes ((p - 1) mod SIZE_MOD) (Arity n).

(** [length + 1] of the node at [c]: the size of its subtree. *)
Definition subtree_size (nodes : list (Node Scalar)) (c : Z) : Z :=
  match at_ nodes c with
  | Some n => Z.of_nat (Length n) + 1
  | None => 0
  end.

(** The tree-consumer contract: the sum of the children's [length + 1]
    equals the parent's [length]. *)
Definition consistent_at (nodes : list (Node Scalar)) (p : Z) : bool :=
  match at_ nodes p, children nodes p with
  | Some n, Some cs =>
      foldr Z.add 0 (subtree_size nodes <$> cs) =? Z.of_nat (Length n)
  | _, _ => false
  end.

Definition consistent (nodes : list (Node Scalar)) : bool :=
  forallb (consistent_at nodes) (seqZ 0 (Z.of_nat (length nodes))).

(** What the machine types guarantee of any node vector: [Arity] and
    [Length] are [uint16_t], and a vector has far fewer than [2^64]
    elements. *)
Definition representable (nodes : list (Node Scalar)) : bool :=
  (Z.of_nat (length nodes) + 2 ^ 16 <=? SIZE_MOD) &&
  forallb (fun n => (Z.of_nat (Arity n) <? 2 ^ 16) &&
                    (Z.of_nat (Length n) <? 2 ^ 16)) nodes.

End Postorder.

(** ** Ranges and datasets *)

(** Modelled from the spec: [Operon::Range] is not among the sources.  It is
    the half-open row interval [[Start, End)] with [Size = End - Start]; a
    range is only ever built with [Start <= End]. *)
Record Range : Set := mkRange { Start : nat; End : nat }.

Definition Size (r : Range) : nat := (End r - Start r)%nat.

(** [v.segment(off, len)] and [s.subspan(off, len)]: [None] when the
    requested block is not inside [v]. *)
Definition segment {A : Type} (v : list A) (off len : nat) : option (list A) :=
  if (off + len <=? length v)%nat then Some (take len (drop off v)) else None.

(** [dst.segment(off, len) = src.segment(0, len)]. *)
Definition segment_assign {A : Type} (dst : list A) (off len : nat)
    (src : list A) : option (list A) :=
  if ((off + len <=? length dst) && (len <=? length src))%nat
  then Some (take off dst ++ take len src ++ drop (off + len) dst)
  else None.

Section Interpreter.

Context {Scalar T : Type} {FO : FieldOps T} {SF : ScalarFns T}.

(** The conversion [T{x}] of a dataset scalar to the working scalar. *)
Variable cast : Scalar -> T.

(** [detail::BatchSize<T>::Value]. *)
Variable BatchSize : nat.

(** The content of the freshly allocated working buffer: Eigen leaves the
    coefficients of a fixed-size array indeterminate; [uninit i k] is what
    row [k] of column [i] happens to hold. *)
Variable uninit : nat -> nat -> T.

(** [Dataset::GetValues(hash)]: the column of a variable, [None] for a hash
    the dataset does not know. *)
Definition Dataset : Type := Z -> option (list Scalar).

(** [DTable::Callable<T>], invoked as [f(m, nodes, i, rg)] on the working
    buffer [m]: one column of [BatchSize] rows per node. *)
Definition Callable : Type :=
  list (list T) -> list (Node Scalar) -> Z -> Range -> option (list (list T)).

(** [DispatchTable::TryGet<T>(hash)]. *)
Definition DTable : Type := Z -> option Callable.

(** *** The default dispatch table *)

(** Modelled from the spec: [dispatch_table.hpp] and the unary and binary
    kernels are not among the sources.  A unary kernel applies the
    elementwise function to the child column at [parent - 1] and writes
    column [parent]. *)
Definition unary_kernel (f : T -> T) : Callable :=
  fun m nodes parentIndex rg =>
    _ ← at_ m parentIndex;
    c ← at_ m ((parentIndex - 1) mod SIZE_MOD);
    Some (assign m parentIndex (f <$> c)).

(** Modelled from the spec: a binary kernel combines the child columns at
    [parent - 1] and at its sibling, in this order. *)
Definition binary_kernel (f : T -> T -> T) : Callable :=
  fun m nodes parentIndex rg =>
    _ ← at_ m parentIndex;
    let i := (parentIndex - 1) mod SIZE_MOD in
    j ← nextSibling nodes i;
    a ← at_ m i; b ← at_ m j;
    Some (assign m parentIndex (zip_with f a b)).

(** The variadic kernels are [dispatch_op] of the sources. *)
Definition variadic_kernel (N : NodeType.t) : Callable :=
  fun m nodes parentIndex rg => dispatch_op N m nodes parentIndex.

(** Modelled from the spec: the three groups of kinds with a kernel
    (section 4.E) and the elementwise function of each; leaves and the
    unregistered Dynamic kind have none. *)
Inductive KernelKind : Type :=
| Variadic (N : NodeType.t)
| Binary (f : T -> T -> T)
| Unary (f : T -> T).

Definition kernel_kind (ty : NodeType.t) : option KernelKind :=
  match ty with
  | NodeType.Add | NodeType.Mul | NodeType.Sub | NodeType.Div
  | NodeType.Fmax | NodeType.Fmin => Some (Variadic ty)
  | NodeType.Aq =>
      Some (Binary (fun a b =>
        f_div a (s_math NodeType.Sqrt (f_add s_one (f_mul b b)))))
  | NodeType.Pow => Some (Binary s_pow)
  | NodeType.Square => Some (Unary (fun x => f_mul x x))
  | NodeType.Logabs =>
      Some (Unary (fun x => s_math NodeType.Log (s_math NodeType.Abs x)))
  | NodeType.Sqrtabs =>
      Some (Unary (fun x => s_math NodeType.Sqrt (s_math NodeType.Abs x)))
  | NodeType.Dynamic | NodeType.Constant | NodeType.Variable_ => None
  | u => Some (Unary (s_math u))
  end.

Definition kernel_of (ty : NodeType.t) : option Callable :=
  k ← kernel_kind ty;
  Some match k with
       | Variadic N => variadic_kernel N
       | Binary f => binary_kernel f
       | Unary f => unary_kernel f
       end.

(** Modelled from the spec: kernels are registered under the hash of the
    default-constructed node of their kind, [static_cast<Hash>(type)]. *)
Definition default_table : DTable :=
  fun hash =>
    ty ← find (fun ty => NodeType.utype ty =? hash) NodeType.all;
    kernel_of ty.

(** *** [GenericInterpreter::Evaluate] (span overload) *)

(** [NodeMeta]: the effective parameter, the view of the variable's
    column, and the kernel. *)
Record NodeMeta : Type := mkMeta {
  meta_param : T;
  meta_values : list Scalar;
  meta_func : option Callable
}.

(** The first loop, over the nodes from index [i] on; [idx] counts the
    parameters consumed so far. *)
Fixpoint setup (ftable : DTable) (dataset : Dataset) (range : Range)
    (parameters : option (list T)) (nodes : list (Node Scalar))
    (i idx : nat) (m : list (list T)) : option (list NodeMeta * list (list T)) :=
  match nodes with
  | [] => Some ([], m)
  | n :: rest =>
      vals ← (if IsVariable n
              then column ← dataset (HashValue n);
                   segment column (Start range) (Size range)
              else Some []);
      '(param, idx') ←
        match parameters with
        | Some ps =>
            if Optimize n
            then p ← ps !! idx; Some (p, S idx)
            else Some (cast (Value n), idx)
        | None => Some (cast (Value n), idx)
        end;
      let m' := if IsConstant n
                then <[i := replicate BatchSize param]> m else m in
      '(meta, m'') ← setup ftable dataset range parameters rest (S i) idx' m';
      Some (mkMeta param vals (ftable (HashValue n)) :: meta, m'')
  end.

(** One node of the inner loop. *)
Definition node_step (nodes : list (Node Scalar)) (rg : Range)
    (row remainingRows i : nat) (n : Node Scalar) (mt : NodeMeta)
    (m : list (list T)) : option (list (list T)) :=
  if IsVariable n then
    c ← m !! i;
    vals ← segment (meta_values mt) row remainingRows;
    Some (<[i := ((fun x => f_mul (meta_param mt) (cast x)) <$> vals)
                   ++ drop remainingRows c]> m)
  else
    match meta_func mt with
    | Some func => func m nodes (Z.of_nat i) rg
    | None => Some m
    end.

(** The inner loop, over the nodes from index [i] on. *)
Fixpoint node_loop (nodes : list (Node Scalar)) (rg : Range)
    (row remainingRows : nat) (todo : list (Node Scalar * NodeMeta))
    (i : nat) (m : list (list T)) : option (list (list T)) :=
  match todo with
  | [] => Some m
  | (n, mt) :: rest =>
      m' ← node_step nodes rg row remainingRows i n mt m;
      node_loop nodes rg row remainingRows rest (S i) m'
  end.

(** The row-block loop [for (row = 0; row < numRows; row += S)].  [fuel]
    bounds the number of rounds; running out of it is non-termination. *)
Fixpoint row_loop (fuel : nat) (nodes : list (Node Scalar))
    (meta : list NodeMeta) (range : Range) (numRows row : nat)
    (m : list (list T)) (res : list T) : option (list T) :=
  if (numRows <=? row)%nat then Some res
  else
    match fuel with
    | O => None
    | S fuel' =>
        let remainingRows := Nat.min BatchSize (numRows - row) in
        let rg := mkRange (Start range + row)
                          (Start range + row + remainingRows) in
        m' ← node_loop nodes rg row remainingRows (zip nodes meta) 0 m;
        back ← last m';
        res' ← segment_assign res row remainingRows back;
        row_loop fuel' nodes meta range numRows (row + BatchSize) m' res'
    end.

(** [void Evaluate(tree, dataset, range, result, parameters)].  [EXPECT]
    stops on an empty tree; a range of [2^31] rows or more does not survive
    [static_cast<int>] and is outside the model. *)
Definition Evaluate_span (ftable : DTable) (tree : list (Node Scalar))
    (dataset : Dataset) (range : Range) (result : list T)
    (parameters : option (list T)) : option (list T) :=
  let nodes := tree in
  match nodes with
  | [] => None
  | _ =>
      let numRows := Size range in
      if 2 ^ 31 <=? Z.of_nat numRows then None
      else
        let m : list (list T) :=
          (fun i => uninit i <$> seq 0 BatchSize) <$> seq 0 (length nodes) in
        '(meta, m') ← setup ftable dataset range parameters nodes 0 0 m;
        row_loop numRows nodes meta range numRows 0 m' result
  end.

(** [Vector<T> Evaluate(tree, dataset, range, parameters)]. *)
Definition Evaluate (ftable : DTable) (tree : list (Node Scalar))
    (dataset : Dataset) (range : Range)
    (parameters : option (list T)) : option (list T) :=
  Evaluate_span ftable tree dataset range
    (replicate (Size range) s_zero) parameters.

(** [Vector<T> Evaluate(tree, dataset, range, batchSize, parameters)]: the
    body of the [for_each] over the tile indices, then the overload.
    [batchSize == 0] divides by zero. *)
Fixpoint tiles (ftable : DTable) (tree : list (Node Scalar))
    (dataset : Dataset) (range : Range) (batchSize : nat)
    (parameters : option (list T)) (indices : list nat)
    (view : list T) : option (list T) :=
  match indices with
  | [] => Some view
  | idx :: rest =>
      let start := (Start range + idx * batchSize)%nat in
      let end_ := Nat.min (start + batchSize) (End range) in
      subview ← segment view (idx * batchSize) (end_ - start);
      out ← Evaluate_span ftable tree dataset (mkRange start end_)
              subview parameters;
      view' ← segment_assign view (idx * batchSize) (end_ - start) out;
      tiles ftable tree dataset range batchSize parameters rest view'
  end.

Definition Evaluate_batched (ftable : DTable) (tree : list (Node Scalar))
    (dataset : Dataset) (range : Range) (batchSize : nat)
    (parameters : option (list T)) : option (list T) :=
  if (batchSize =? 0)%nat then None
  else
    let n := (Size range / batchSize)%nat in
    let m := (Size range mod batchSize)%nat in
    let indices := seq 0 (n + (if (m =? 0)%nat then 0 else 1)) in
    tiles ftable tree dataset range batchSize parameters indices
      (replicate (Size range) s_zero).

End Interpreter.

(** ** Dual numbers *)

(** Modelled from the spec: [dual.hpp] is not among the sources.  A dual is
    [{ real, deriv[D] }]; the members are named [a] and [v] as the derivative
    calculator uses them. *)
Module Dual.
Record t (Scalar : Type) : Type := mk { a : Scalar; v : list Scalar }.
Arguments mk {Scalar} _ _.
Arguments a {Scalar} _.
Arguments v {Scalar} _.
End Dual.

Section DualArith.

Context {Scalar : Type} {FO : FieldOps Scalar} {SF : ScalarFns Scalar}.

(** [Dual::DIMENSION]. *)
Variable DIMENSION : nat.

(** The order of the scalar, the derivative of each host math function and
    the two partial derivatives of [pow]. *)
Variable ltb : Scalar -> Scalar -> bool.
Variable dmath : NodeType.t -> Scalar -> Scalar.
Variable dpow_base dpow_exp : Scalar -> Scalar -> Scalar.

(** [d.v[k]]: the lanes are a fixed-size array, every lane below
    [DIMENSION] exists. *)
Definition lane (d : Dual.t Scalar) (k : nat) : Scalar := nth k (Dual.v d) s_zero.

(** [Dual{x}]: a constant, all derivative lanes zero. *)
Definition Dual_of (x : Scalar) : Dual.t Scalar :=
  Dual.mk x (replicate DIMENSION s_zero).

(** Modelled from the spec: the operators are the term-by-term lifts of
    the real ones (sum, product, quotient and chain rule). *)
Definition Dual_add (x y : Dual.t Scalar) : Dual.t Scalar :=
  Dual.mk (f_add (Dual.a x) (Dual.a y)) (zip_with f_add (Dual.v x) (Dual.v y)).
Definition Dual_sub (x y : Dual.t Scalar) : Dual.t Scalar :=
  Dual.mk (f_sub (Dual.a x) (Dual.a y)) (zip_with f_sub (Dual.v x) (Dual.v y)).
Definition Dual_mul (x y : Dual.t Scalar) : Dual.t Scalar :=
  Dual.mk (f_mul (Dual.a x) (Dual.a y))
    (zip_with (fun dx dy => f_add (f_mul dx (Dual.a y)) (f_mul (Dual.a x) dy))
       (Dual.v x) (Dual.v y)).
Definition Dual_div (x y : Dual.t Scalar) : Dual.t Scalar :=
  let q := f_div (Dual.a x) (Dual.a y) in
  Dual.mk q
    (zip_with (fun dx dy => f_div (f_sub dx (f_mul q dy)) (Dual.a y))
       (Dual.v x) (Dual.v y)).
Definition Dual_neg (x : Dual.t Scalar) : Dual.t Scalar :=
  Dual.mk (f_neg (Dual.a x)) (f_neg <$> Dual.v x).
Definition Dual_inv (x : Dual.t Scalar) : Dual.t Scalar :=
  let q := f_inv (Dual.a x) in
  Dual.mk q ((fun dx => f_neg (f_mul (f_mul q q) dx)) <$> Dual.v x).
Definition Dual_max (x y : Dual.t Scalar) : Dual.t Scalar :=
  if ltb (Dual.a x) (Dual.a y) then y else x.
Definition Dual_min (x y : Dual.t Scalar) : Dual.t Scalar :=
  if ltb (Dual.a y) (Dual.a x) then y else x.

#[local] Instance FieldOps_Dual : FieldOps (Dual.t Scalar) := {
  f_add := Dual_add;
  f_sub := Dual_sub;
  f_mul := Dual_mul;
  f_div := Dual_div;
  f_neg := Dual_neg;
  f_inv := Dual_inv;
  f_max := Dual_max;
  f_min := Dual_min
}.

#[local] Instance ScalarFns_Dual : ScalarFns (Dual.t Scalar) := {
  s_math := fun u x =>
    Dual.mk (s_math u (Dual.a x))
      ((fun dx => f_mul (dmath u (Dual.a x)) dx) <$> Dual.v x);
  s_pow := fun x y =>
    Dual.mk (s_pow (Dual.a x) (Dual.a y))
      (zip_with (fun dx dy =>
         f_add (f_mul (dpow_base (Dual.a x) (Dual.a y)) dx)
               (f_mul (dpow_exp (Dual.a x) (Dual.a y)) dy))
         (Dual.v x) (Dual.v y));
  s_zero := Dual_of s_zero;
  s_one := Dual_of s_one
}.

End DualArith.

(** ** [Autodiff::Forward::DerivativeCalculator] *)

(** The template argument [StorageOrder]. *)
Inductive StorageOrder : Set := ColMajor | RowMajor.

Section DerivativeCalculator.

Context {Scalar Tree Data : Type} {SF : ScalarFns Scalar}.

Variable DIMENSION : nat.

(** The class is a template over its [Interpreter]; the call
    [interpreter_(tree, dataset, range, outputs, inputs)] writes through
    the span [outputs] and returns its new content. *)
Definition Interpreter_t : Type :=
  Tree -> Data -> Range -> list (Dual.t Scalar) -> list (Dual.t Scalar) ->
  option (list (Dual.t Scalar)).

Variable interpreter_ : Interpreter_t.

(** The position of entry [(r, c)] of a [rows x cols] matrix in its
    storage. *)
Definition jac_index (order : StorageOrder) (rows cols r c : nat) : nat :=
  match order with
  | ColMajor => (c * rows + r)%nat
  | RowMajor => (r * cols + c)%nat
  end.

(** [for (i = s; i < r; ++i) inputs[i].v[i - s] = 1.0]. *)
Definition seed (s r : nat) (inputs : list (Dual.t Scalar)) :
    list (Dual.t Scalar) :=
  foldl (fun inp i =>
           alter (fun d => Dual.mk (Dual.a d) (<[(i - s)%nat := s_one]> (Dual.v d)))
                 i inp)
        inputs (seq s (r - s)).

(** The column-major branch: [std::transform] over the outputs into
    [jac.col(i).data()], for each [i] of the chunk. *)
Definition scatter_col (rows s r : nat) (outputs : list (Dual.t Scalar))
    (jac : list Scalar) : list Scalar :=
  foldl (fun j i =>
           foldl (fun j' '(row, jet) =>
                    <[(i * rows + row)%nat := lane jet (i - s)]> j')
                 j (zip (seq 0 (length outputs)) outputs))
        jac (seq s (r - s)).

(** The row-major branch: [std::copy_n] of the first [r - s] lanes of each
    output into [jac.row(i).data() + s]. *)
Definition scatter_row (cols s r : nat) (outputs : list (Dual.t Scalar))
    (jac : list Scalar) : list Scalar :=
  foldl (fun j '(i, jet) =>
           foldl (fun j' k => <[(i * cols + s + k)%nat := lane jet k]> j')
                 j (seq 0 (r - s)))
        jac (zip (seq 0 (length outputs)) outputs).

Definition scatter (order : StorageOrder) (rows cols s r : nat)
    (outputs : list (Dual.t Scalar)) (jac : list Scalar) : list Scalar :=
  match order with
  | ColMajor => scatter_col rows s r outputs jac
  | RowMajor => scatter_row cols s r outputs jac
  end.

(** The sweep [for (s = 0; s < inputs.size(); s += d)].  The interpreter
    writes into the fixed-size vector [outputs]; a result of another size
    cannot arise and is rejected. *)
Fixpoint sweep (order : StorageOrder) (fuel : nat) (tree : Tree)
    (dataset : Data) (range : Range) (s : nat)
    (inputs outputs : list (Dual.t Scalar)) (jac : list Scalar) :
    option (list Scalar) :=
  if (length inputs <=? s)%nat then Some jac
  else
    match fuel with
    | O => None
    | S fuel' =>
        let r := Nat.min (length inputs) (s + DIMENSION) in
        let inputs' := seed s r inputs in
        outputs' ← interpreter_ tree dataset range outputs inputs';
        if (length outputs' =? length outputs)%nat then
          let jac' := scatter order (length outputs) (length inputs) s r
                        outputs' jac in
          sweep order fuel' tree dataset range (s + DIMENSION)
            inputs' outputs' jac'
        else None
    end.

(** [operator()<StorageOrder>(tree, dataset, coeff, range, jacobian)]: the
    final content of the storage behind [jacobian].  The counters [s] and
    [r] are 32 bits wide; a parameter count that lets [s + d] wrap is
    outside the model. *)
Definition Jacobian (order : StorageOrder) (tree : Tree) (dataset : Data)
    (coeff : list Scalar) (range : Range) : option (list Scalar) :=
  let inputs := (fun c => Dual.mk c (replicate DIMENSION s_zero)) <$> coeff in
  let outputs := replicate (Size range) (Dual.mk s_zero (replicate DIMENSION s_zero)) in
  let jac := replicate (length outputs * length inputs) s_zero in
  if 2 ^ 32 <=? Z.of_nat (length inputs + DIMENSION) then None
  else sweep order (length inputs) tree dataset range 0 inputs outputs jac.

End DerivativeCalculator.

(** ** Integer scalars

    Exact arithmetic on integers stands in for the floating-point scalar on
    data where the latter is exact as well; [/] is only meaningful where it
    divides. *)

#[global] Instance FieldOps_Z : FieldOps Z := {
  f_add := Z.add;
  f_sub := Z.sub;
  f_mul := Z.mul;
  f_div := Z.div;
  f_neg := Z.opp;
  f_inv := Z.div 1;
  f_max := Z.max;
  f_min := Z.min
}.

#[global] Instance ScalarFns_Z : ScalarFns Z := {
  s_math := fun u x => match u with NodeType.Abs => Z.abs x | _ => x end;
  s_pow := Z.pow;
  s_zero := 0;
  s_one := 1
}.

(** ** Example trees over integer scalars *)

Definition example_node (ty : NodeType.t) (hash value : Z)
    (arity length : nat) (optimize : bool) : Node Z :=
  {| HashValue := hash; CalculatedHashValue := hash; Value := value;
     Arity := arity; Length := length; Depth := 0; Level := 0; Parent := 0;
     Type_ := ty; IsEnabled := true; Optimize := optimize |}.

(** A constant leaf, a weighted variable leaf and an inner node whose
    children are all leaves. *)
Definition constant_node (value : Z) (optimize : bool) : Node Z :=
  example_node NodeType.Constant (NodeType.utype NodeType.Constant)
    value 0 0 optimize.
Definition variable_node (hash weight : Z) (optimize : bool) : Node Z :=
  example_node NodeType.Variable_ hash weight 0 0 optimize.
Definition flat_node (ty : NodeType.t) (arity : nat) : Node Z :=
  example_node ty (NodeType.utype ty) 1 arity arity false.

(** A dataset with the two columns [X] (hash 1000) and [Y] (hash 1001). *)
Definition example_data : Dataset (Scalar := Z) :=
  fun hash =>
    if hash =? 1000 then Some [1; 2; 3; 4; 5]
    else if hash =? 1001 then Some [10; 20; 30; 40; 50]
    else None.

(** The primal interpreter on integers, with 64-row blocks and a buffer that
    happens to hold 77 everywhere when allocated. *)
Definition example_eval (S : nat) :=
  Evaluate (Scalar := Z) (T := Z) id S (fun _ _ => 77) default_table.

(** [Add] over seven constant leaves 1..7. *)
Definition add7_tree : list (Node Z) :=
  ((fun v => constant_node v false) <$> [1; 2; 3; 4; 5; 6; 7])
    ++ [flat_node NodeType.Add 7].

(** The tree of the n-ary subtraction scenario,
    [[c1=10, c2=1, c3=2, c4=3, Sub(arity=4, length=4)]]. *)
Definition sub4_tree : list (Node Z) :=
  ((fun v => constant_node v false) <$> [10; 1; 2; 3])
    ++ [flat_node NodeType.Sub 4].

(** [3 * (Y + X)]: the nodes [[X, Y, Add, 3, Mul]]; the constant is a
    learnable parameter. *)
Definition nested_tree : list (Node Z) :=
  [ variable_node 1000 1 false;
    variable_node 1001 1 false;
    example_node NodeType.Add (NodeType.utype NodeType.Add) 1 2 2 false;
    constant_node 3 true;
    example_node NodeType.Mul (NodeType.utype NodeType.Mul) 1 2 4 false ].

(** The sum of five learnable constants, and [a * X + b] with learnable [a]
    and [b]. *)
Definition sum5_tree : list (Node Z) :=
  ((fun v => constant_node v true) <$> [1; 2; 3; 4; 5])
    ++ [flat_node NodeType.Add 5].
Definition affine_tree : list (Node Z) :=
  [ variable_node 1000 2 true; constant_node 3 true; flat_node NodeType.Add 2 ].

(** The interpreter on dual numbers over the integers, as the derivative
    calculator calls it.  The math functions of the integer instance are
    the identity or the absolute value; [pow] is not used by any example. *)
Definition example_FieldOps_Dual : FieldOps (Dual.t Z) := FieldOps_Dual Z.ltb.
Definition example_ScalarFns_Dual (D : nat) : ScalarFns (Dual.t Z) :=
  ScalarFns_Dual D
    (fun u x => match u with NodeType.Abs => Z.sgn x | _ => 1 end)
    (fun x y => y * x ^ (y - 1)) (fun _ _ => 0).
Definition example_dual_interpreter (D : nat) :
    Interpreter_t (Scalar := Z) (Tree := list (Node Z))
                  (Data := Dataset (Scalar := Z)) :=
  fun tree dataset range outputs inputs =>
    Evaluate_span (FO := example_FieldOps_Dual) (Dual_of D) 64
      (fun _ _ => Dual_of D 0)
      (default_table (FO := example_FieldOps_Dual)
                     (SF := example_ScalarFns_Dual D))
      tree dataset range outputs (Some inputs).
Definition example_jacobian (D : nat) (order : StorageOrder) :=
  Jacobian D (example_dual_interpreter D) order.

(** ** Auxiliary notions of the statements and proofs *)

(** A run of indexed writes [j[key w] = val w], in order. *)
Definition write_all {A B : Type} (key : B -> nat) (val : B -> A)
    (ws : list B) (j : list A) : list A :=
  foldl (fun j' w => <[key w := val w]> j') j ws.

(** Two storages that hold the same [rows x cols] matrix, the first in
    column-major and the second in row-major order. *)
Definition same_matrix {Scalar : Type} (rows cols : nat)
    (jc jr : list Scalar) : Prop :=
  length jc = (rows * cols)%nat /\ length jr = (rows * cols)%nat /\
  forall r c, (r < rows)%nat -> (c < cols)%nat ->
    jc !! jac_index ColMajor rows cols r c = jr !! jac_index RowMajor rows cols r c.

(** What the rounds of [dispatch_op] leave in the parent column, as a
    function of the child columns in sibling order; [r] stands for the
    parent column once the loop has [continued]. *)
Fixpoint fold_children {A : Type} {FO : FieldOps A} (N : NodeType.t)
    (continued : bool) (r : A) (cols : list A) : option A :=
  match cols with
  | [] => None
  | [c] => Some (if continued then opn N r c [] else op1 N c)
  | [c; c1] => Some (opn N c c1 [])
  | [c; c1; c2] => Some (opn N c c1 [c2])
  | [c; c1; c2; c3] => Some (opn N c c1 [c2; c3])
  | [c; c1; c2; c3; c4] => Some (opn N c c1 [c2; c3; c4])
  | c :: c1 :: c2 :: c3 :: c4 :: (_ :: _) as rest =>
      fold_children N true (opn N c c1 [c2; c3; c4]) rest
  end.

Section Validity.

Context {Scalar T : Type} {FO : FieldOps T} {SF : ScalarFns T}.

(** The parent column a kernel computes from the columns of the children. *)
Definition kernel_fn (k : KernelKind (T := T)) (cols : list (list T)) :
    option (list T) :=
  match k with
  | Variadic N => fold_children N false [] cols
  | Binary f =>
      match cols with [a; b] => Some (zip_with f a b) | _ => None end
  | Unary f =>
      match cols with [c] => Some (f <$> c) | _ => None end
  end.

(** The arities a kind can be evaluated with: at least one child for the
    variadic kinds, two for Aq and Pow, one for the unary kinds, none for
    Constant and Variable; Dynamic has no kernel. *)
Definition arity_ok (ty : NodeType.t) (arity : nat) : bool :=
  match ty with
  | NodeType.Add | NodeType.Mul | NodeType.Sub | NodeType.Div
  | NodeType.Fmax | NodeType.Fmin => (1 <=? arity)%nat
  | NodeType.Aq | NodeType.Pow => (arity =? 2)%nat
  | NodeType.Dynamic => false
  | NodeType.Constant | NodeType.Variable_ => (arity =? 0)%nat
  | _ => (arity =? 1)%nat
  end.

(** A node carries the hash of its kind, a variable that of its column. *)
Definition well_kinded (n : Node Scalar) : bool :=
  arity_ok (Type_ n) (Arity n) &&
  (IsVariable n || (HashValue n =? NodeType.utype (Type_ n))).

(** The preconditions of the interpreter on the tree: non-empty, within the
    machine types, postorder-consistent, every node of an evaluable kind. *)
Definition valid_tree (nodes : list (Node Scalar)) : bool :=
  negb (Nat.eqb (length nodes) 0) && representable nodes && consistent nodes &&
  forallb well_kinded nodes.

(** The preconditions on dataset and range: a proper range of fewer than
    [2^31] rows, inside the column of every variable of the tree. *)
Definition valid_data (nodes : list (Node Scalar))
    (dataset : Dataset (Scalar := Scalar)) (range : Range) : bool :=
  (Start range <=? End range)%nat && (Z.of_nat (Size range) <? 2 ^ 31) &&
  forallb (fun n =>
             if IsVariable n then
               match dataset (HashValue n) with
               | Some column => (End range <=? length column)%nat
               | None => false
               end
             else true) nodes.

(** There is a parameter for every optimize-marked node. *)
Definition valid_parameters (nodes : list (Node Scalar))
    (parameters : option (list T)) : bool :=
  match parameters with
  | None => true
  | Some ps => (length (filter (fun n => Optimize n = true) nodes) <=? length ps)%nat
  end.

End Validity.

(** Parameter substitution, in the words of the spec: the value of each
    optimize-marked leaf is replaced by the next parameter entry. *)
Fixpoint substitute {Scalar : Type} (nodes : list (Node Scalar))
    (parameters : list Scalar) : list (Node Scalar) :=
  match nodes with
  | [] => []
  | n :: rest =>
      if Optimize n && IsLeaf n then
        match parameters with
        | p :: parameters' =>
            {| HashValue := HashValue n;
               CalculatedHashValue := CalculatedHashValue n;
               Value := p;
               Arity := Arity n; Length := Length n; Depth := Depth n;
               Level := Level n; Parent := Parent n; Type_ := Type_ n;
               IsEnabled := IsEnabled n; Optimize := Optimize n |}
            :: substitute rest parameters'
        | [] => n :: substitute rest []
        end
      else n :: substitute rest parameters
  end.

Section SetupParts.

Context {Scalar T : Type} {FO : FieldOps T} {SF : ScalarFns T}.
Variable cast : Scalar -> T.
Variable BatchSize : nat.
Variable uninit : nat -> nat -> T.

(** The effective parameter of each node, from parameter index [idx] on. *)
Fixpoint params_from (parameters : option (list T))
    (nodes : list (Node Scalar)) (idx : nat) : option (list T) :=
  match nodes with
  | [] => Some []
  | n :: rest =>
      match parameters with
      | Some ps =>
          if Optimize n
          then p ← ps !! idx; (p ::.) <$> params_from parameters rest (S idx)
          else (cast (Value n) ::.) <$> params_from parameters rest idx
      | None => (cast (Value n) ::.) <$> params_from parameters rest idx
      end
  end.

(** The view of the dataset a node gets. *)
Definition view_of (dataset : Dataset (Scalar := Scalar)) (range : Range)
    (n : Node Scalar) : option (list Scalar) :=
  if IsVariable n
  then column ← dataset (HashValue n);
       segment column (Start range) (Size range)
  else Some [].

(** The meta records built from parameters and views. *)
Fixpoint metas_of (ftable : DTable (Scalar := Scalar) (T := T))
    (nodes : list (Node Scalar)) (ps : list T) (vs : list (list Scalar)) :
    list (NodeMeta (Scalar := Scalar) (T := T)) :=
  match nodes, ps, vs with
  | n :: nodes', p :: ps', v :: vs' =>
      mkMeta p v (ftable (HashValue n)) :: metas_of ftable nodes' ps' vs'
  | _, _, _ => []
  end.

(** The buffer after the constants from index [i] on are broadcast. *)
Fixpoint preload (nodes : list (Node Scalar)) (ps : list T) (i : nat)
    (m : list (list T)) : list (list T) :=
  match nodes, ps with
  | n :: nodes', p :: ps' =>
      preload nodes' ps' (S i)
        (if IsConstant n then <[i := replicate BatchSize p]> m else m)
  | _, _ => m
  end.

(** A working buffer between two nodes: a column of [BatchSize] rows per
    node, the constants broadcast. *)
Definition buffer_ok (nodes : list (Node Scalar)) (ps : list T)
    (m : list (list T)) : Prop :=
  length m = length nodes /\
  Forall (fun c => length c = BatchSize) m /\
  forall j n p, nodes !! j = Some n -> ps !! j = Some p ->
    IsConstant n = true -> m !! j = Some (replicate BatchSize p).

End SetupParts.

(** The value of the tree on the single dataset row [x]: what the
    interpreter returns on the range [[x, x + 1)] with one-row blocks. *)
Definition row_value {Scalar T : Type} {FO : FieldOps T} {SF : ScalarFns T}
    (cast : Scalar -> T) (uninit : nat -> nat -> T)
    (ftable : DTable (Scalar := Scalar) (T := T)) (tree : list (Node Scalar))
    (dataset : Dataset (Scalar := Scalar)) (parameters : option (list T))
    (x : nat) : T :=
  match Evaluate_span cast 1 uninit ftable tree dataset (mkRange x (S x))
          [s_zero] parameters with
  | Some (v :: _) => v
  | _ => s_zero
  end.

(** A relation between two carriers that the overloaded operators
    preserve. *)
Definition ops_related {A B : Type} {FA : FieldOps A} {FB : FieldOps B}
    (R : A -> B -> Prop) : Prop :=
  (forall x x' y y', R x x' -> R y y' -> R (f_add x y) (f_add x' y')) /\
  (forall x x' y y', R x x' -> R y y' -> R (f_sub x y) (f_sub x' y')) /\
  (forall x x' y y', R x x' -> R y y' -> R (f_mul x y) (f_mul x' y')) /\
  (forall x x' y y', R x x' -> R y y' -> R (f_div x y) (f_div x' y')) /\
  (forall x x' y y', R x x' -> R y y' -> R (f_max x y) (f_max x' y')) /\
  (forall x x' y y', R x x' -> R y y' -> R (f_min x y) (f_min x' y')) /\
  (forall x x', R x x' -> R (f_neg x) (f_neg x')) /\
  (forall x x', R x x' -> R (f_inv x) (f_inv x')).

(** Row [k] of the first [i] columns of the block buffer [m] is the
    single row of the one-row buffer [b]. *)
Definition rows_agree {T : Type} (k i : nat) (m b : list (list T)) : Prop :=
  forall j, (j < i)%nat -> (fun c => take 1 (drop k c)) <$> m !! j = b !! j.

(** Two nodes that differ at most in their [Value]. *)
Definition same_but_value {Scalar : Type} (n n' : Node Scalar) : Prop :=
  HashValue n' = HashValue n /\ Type_ n' = Type_ n /\
  Arity n' = Arity n /\ Length n' = Length n /\ Optimize n' = Optimize n.

(** Only leaves are marked as learnable parameters. *)
Definition optimize_leaves_only {Scalar : Type} (nodes : list (Node Scalar)) : bool :=
  forallb (fun n => implb (Optimize n) (IsLeaf n)) nodes.

(** ** The operators on [NodeType]

    An object of the scoped enumeration holds any value of its underlying
    type [uint32_t]: an enumerator, or a mask of several.  The operators
    cast to [utype], apply the built-in operator and cast back. *)

Definition UTYPE_MOD : Z := 2 ^ 32.

(** [operator&], [operator|], [operator^]. *)
Definition NodeType_and (lhs rhs : Z) : Z := Z.land lhs rhs.
Definition NodeType_or (lhs rhs : Z) : Z := Z.lor lhs rhs.
Definition NodeType_xor (lhs rhs : Z) : Z := Z.lxor lhs rhs.

(** [operator~]: the complement of an [uint32_t]. *)
Definition NodeType_not (lhs : Z) : Z := Z.lnot lhs mod UTYPE_MOD.

(** [operator&=], [operator|=], [operator^=]: [lhs = lhs op rhs; return lhs;]
    gives the new value of the object behind the reference [lhs]. *)
Definition NodeType_and_assign (lhs rhs : Z) : Z := NodeType_and lhs rhs.
Definition NodeType_or_assign (lhs rhs : Z) : Z := NodeType_or lhs rhs.
Definition NodeType_xor_assign (lhs rhs : Z) : Z := NodeType_xor lhs rhs.

(** ** The comparison operators of [Node] *)

Section NodeComparison.

Context {Scalar : Type}.

(** [operator==] and [operator!=] look at the calculated hash only. *)
Definition Node_eq (lhs rhs : Node Scalar) : bool :=
  CalculatedHashValue lhs =? CalculatedHashValue rhs.
Definition Node_ne (lhs rhs : Node Scalar) : bool := negb (Node_eq lhs rhs).

(** [operator<]: by [HashValue], ties broken by [CalculatedHashValue]. *)
Definition Node_lt (lhs rhs : Node Scalar) : bool :=
  if HashValue lhs =? HashValue rhs
  then CalculatedHashValue lhs <? CalculatedHashValue rhs
  else HashValue lhs <? HashValue rhs.

(** [operator<=], [operator>] and [operator>=] are written in terms of the
    two above. *)
Definition Node_le (lhs rhs : Node Scalar) : bool :=
  Node_eq lhs rhs || Node_lt lhs rhs.
Definition Node_gt (lhs rhs : Node Scalar) : bool := negb (Node_le lhs rhs).
Definition Node_ge (lhs rhs : Node Scalar) : bool := negb (Node_lt lhs rhs).

End NodeComparison.

(** ** [analyzers/diversity.hpp]: intersections of sorted hash vectors *)

(** [std::adjacent_find(first, last, pred)]: the offset of the first element
    that satisfies [pred] with its successor, the offset of [last] if there
    is none. *)
Fixpoint adjacent_find {A : Type} (pred : A -> A -> bool) (l : list A) : nat :=
  match l with
  | a :: (b :: _) as rest =>
      if pred a b then 0%nat else S (adjacent_find pred rest)
  | _ => length l
  end.

(** [detail::is_set(vec)]. *)
Definition is_set (vec : list Z) : bool :=
  (adjacent_find Z.eqb vec =? length vec)%nat.

(** The loop of [Intersect2], from the state [(i, j, count)].  Each round
    advances [i] or [j]; [fuel] bounds the number of rounds. *)
Fixpoint Intersect2_loop (fuel : nat) (lhs rhs : list Z) (lm rm : Z)
    (i j count : nat) : option nat :=
  if negb ((i =? length lhs)%nat) && negb ((j =? length rhs)%nat) then
    match fuel with
    | O => None
    | S fuel' =>
        a ← lhs !! i;
        b ← rhs !! j;
        let count' := (count + (if Z.eqb a b then 1 else 0))%nat in
        let i' := (i + (if Z.leb a b then 1 else 0))%nat in
        let j' := (j + (if Z.geb a b then 1 else 0))%nat in
        if Z.gtb a rm || Z.gtb b lm then Some count'
        else Intersect2_loop fuel' lhs rhs lm rm i' j' count'
    end
  else Some count.

(** [PopulationDiversityAnalyzer::Intersect2(lhs, rhs)].  [back()] of an
    empty vector is undefined. *)
Definition Intersect2 (lhs rhs : list Z) : option nat :=
  lm ← last lhs;
  rm ← last rhs;
  Intersect2_loop (length lhs + length rhs) lhs rhs lm rm 0 0 0.

(** *** The AVX2 intrinsics of [probe_nullintersect_fast]

    A [__m256i] is given by its four 64-bit lanes, lane 0 being the element
    at the lowest address.  Each lane holds a hash, an unsigned 64-bit
    integer.  The intrinsics follow Intel's pseudocode. *)
Record m256i : Set := mk256 { q0 : Z; q1 : Z; q2 : Z; q3 : Z }.

Definition lanes (a : m256i) : list Z := [q0 a; q1 a; q2 a; q3 a].

(** [_mm256_load_si256] of the address of [p[off]]: the four elements
    from [off] on. *)
Definition _mm256_load_si256 (p : list Z) (off : nat) : option m256i :=
  x0 ← p !! off; x1 ← p !! (off + 1)%nat;
  x2 ← p !! (off + 2)%nat; x3 ← p !! (off + 3)%nat;
  Some (mk256 x0 x1 x2 x3).

(** [_mm256_cmpeq_epi64]: a lane is all ones where the operands agree, and
    zero elsewhere. *)
Definition _mm256_cmpeq_epi64 (a b : m256i) : m256i :=
  let eq64 (x y : Z) := if x =? y then 2 ^ 64 - 1 else 0 in
  mk256 (eq64 (q0 a) (q0 b)) (eq64 (q1 a) (q1 b))
        (eq64 (q2 a) (q2 b)) (eq64 (q3 a) (q3 b)).

(** [_mm256_testz_si256(a, b)]: 1 when [a AND b] is zero in all bits. *)
Definition _mm256_testz_si256 (a b : m256i) : bool :=
  forallb (fun x => x =? 0) (zip_with Z.land (lanes a) (lanes b)).

(** [detail::_mm256_is_zero(m)]. *)
Definition _mm256_is_zero (m : m256i) : bool := _mm256_testz_si256 m m.

(** The eight 32-bit elements of a register, lowest first, and back. *)
Definition epi32 (a : m256i) : list Z :=
  lanes a ≫= fun q => [q mod 2 ^ 32; q / 2 ^ 32].
Definition of_epi32 (w : list Z) : m256i :=
  let word (k : nat) := nth k w 0 in
  mk256 (word 0%nat + 2 ^ 32 * word 1%nat) (word 2%nat + 2 ^ 32 * word 3%nat)
        (word 4%nat + 2 ^ 32 * word 5%nat) (word 6%nat + 2 ^ 32 * word 7%nat).

(** [SELECT4(src, control)] picks one of four 32-bit elements. *)
Definition SELECT4 (src : list Z) (control : Z) : Z :=
  nth (Z.to_nat control) src 0.

(** [_mm256_shuffle_epi32(a, imm8)]: in each 128-bit half, element [k] of
    the result is the element of the same half of [a] selected by bits
    [2k+1 : 2k] of [imm8]. *)
Definition _mm256_shuffle_epi32 (a : m256i) (imm8 : Z) : m256i :=
  let half (src : list Z) :=
    (fun k => SELECT4 src (Z.land (Z.shiftr imm8 (2 * k)) 3)) <$> [0; 1; 2; 3] in
  of_epi32 (half (take 4 (epi32 a)) ++ half (drop 4 (epi32 a))).

(** [_MM_SHUFFLE(fp3, fp2, fp1, fp0)] and the three constants. *)
Definition _MM_SHUFFLE (fp3 fp2 fp1 fp0 : Z) : Z :=
  Z.lor (Z.lor (Z.lor (Z.shiftl fp3 6) (Z.shiftl fp2 4)) (Z.shiftl fp1 2)) fp0.
Definition shift_one : Z := _MM_SHUFFLE 0 3 2 1.
Definition shift_two : Z := _MM_SHUFFLE 1 0 3 2.
Definition shift_thr : Z := _MM_SHUFFLE 2 1 0 3.

(** [detail::probe_nullintersect_fast(&p[i], &q[j])]. *)
Definition probe_nullintersect_fast (p : list Z) (i : nat) (q : list Z) (j : nat) :
    option bool :=
  a ← _mm256_load_si256 p i;
  b ← _mm256_load_si256 q j;
  let r0 := _mm256_cmpeq_epi64 a b in
  if negb (_mm256_is_zero r0) then Some false else
  let r1 := _mm256_cmpeq_epi64 a (_mm256_shuffle_epi32 b shift_one) in
  if negb (_mm256_is_zero r1) then Some false else
  let r2 := _mm256_cmpeq_epi64 a (_mm256_shuffle_epi32 b shift_two) in
  if negb (_mm256_is_zero r2) then Some false else
  let r3 := _mm256_cmpeq_epi64 a (_mm256_shuffle_epi32 b shift_thr) in
  Some (_mm256_is_zero r3).

(** The first loop of [Intersect1]: blocks of four are skipped while the
    probe reports no common element; the state is [(i, j)]. *)
Fixpoint Intersect1_probe_loop (fuel : nat) (lhs rhs : list Z) (lt rt : nat)
    (i j : nat) : option (nat * nat) :=
  if (i <? lt)%nat && (j <? rt)%nat then
    match fuel with
    | O => None
    | S fuel' =>
        null ← probe_nullintersect_fast lhs i rhs j;
        if null : bool then
          a ← lhs !! (i + 3)%nat;
          b ← rhs !! (j + 3)%nat;
          Intersect1_probe_loop fuel' lhs rhs lt rt
            (i + (if Z.ltb a b then 1 else 0) * 4)%nat
            (j + (if Z.ltb b a then 1 else 0) * 4)%nat
        else Some (i, j)
    end
  else Some (i, j).

(** The second loop of [Intersect1]: that of [Intersect2] with the guards
    [i < ls && j < rs]. *)
Fixpoint Intersect1_loop (fuel : nat) (lhs rhs : list Z) (lm rm : Z)
    (i j count : nat) : option nat :=
  if (i <? length lhs)%nat && (j <? length rhs)%nat then
    match fuel with
    | O => None
    | S fuel' =>
        a ← lhs !! i;
        b ← rhs !! j;
        let count' := (count + (if Z.eqb a b then 1 else 0))%nat in
        let i' := (i + (if Z.leb a b then 1 else 0))%nat in
        let j' := (j + (if Z.geb a b then 1 else 0))%nat in
        if Z.gtb a rm || Z.gtb b lm then Some count'
        else Intersect1_loop fuel' lhs rhs lm rm i' j' count'
    end
  else Some count.

(** [PopulationDiversityAnalyzer::Intersect1(lhs, rhs)]. *)
Definition Intersect1 (lhs rhs : list Z) : option nat :=
  let ls := length lhs in
  let rs := length rhs in
  let lt := (ls / 4 * 4)%nat in
  let rt := (rs / 4 * 4)%nat in
  '(i, j) ← Intersect1_probe_loop (lt + rt) lhs rhs lt rt 0 0;
  lm ← last lhs;
  rm ← last rhs;
  Intersect1_loop (ls + rs) lhs rhs lm rm i j 0.

(** ** Auxiliary notions for the sweeps of the derivative calculator *)

Section Sweeps.

Context {Scalar Tree Data : Type} {SF : ScalarFns Scalar}.
Variable DIMENSION : nat.
Variable interpreter_ : Interpreter_t (Scalar := Scalar) (Tree := Tree) (Data := Data).

(** The inputs once the parameters below [upto] have been seeded: input
    [i < upto] has lane [i mod DIMENSION] set to one, in whichever sweep
    that happened. *)
Definition seeded_inputs (coeff : list Scalar) (upto : nat) :
    list (Dual.t Scalar) :=
  imap (fun i c =>
          Dual.mk c (if (i <? upto)%nat
                     then <[(i mod DIMENSION)%nat := s_one]>
                            (replicate DIMENSION s_zero)
                     else replicate DIMENSION s_zero))
       coeff.

(** The content of [outputs] after sweep number [c], counted from 0: each
    sweep hands the interpreter the outputs of the one before. *)
Fixpoint sweep_outputs (tree : Tree) (dataset : Data) (coeff : list Scalar)
    (range : Range) (c : nat) : option (list (Dual.t Scalar)) :=
  prev ← match c with
         | O => Some (replicate (Size range)
                        (Dual.mk s_zero (replicate DIMENSION s_zero)))
         | S c' => sweep_outputs tree dataset coeff range c'
         end;
  interpreter_ tree dataset range prev
    (seeded_inputs coeff (Nat.min (length coeff) ((c + 1) * DIMENSION))).

End Sweeps.

(** ** The value of the expression a tree denotes

    A reference for statements about [Evaluate]: the value of the subtree
    rooted at [p] on the dataset row [x], by recursion on the tree.  A
    variable is its effective parameter times the entry of its column, a
    constant is its effective parameter, and an inner node is the result of
    its kernel on the values of its children, taken in the order of the
    sibling recurrence.  [ps] holds the effective parameter of each node
    ([params_from]); [fuel] bounds the depth of the recursion. *)

Section TreeValue.

Context {Scalar T : Type} {FO : FieldOps T} {SF : ScalarFns T}.
Variable cast : Scalar -> T.

Fixpoint value_at (fuel : nat) (nodes : list (Node Scalar)) (ps : list T)
    (dataset : Dataset (Scalar := Scalar)) (x : nat) (p : Z) : option T :=
  match fuel with
  | O => None
  | S fuel' =>
      n ← at_ nodes p;
      prm ← ps !! Z.to_nat p;
      if IsVariable n then
        column ← dataset (HashValue n);
        v ← column !! x;
        Some (f_mul prm (cast v))
      else
        match kernel_kind (T := T) (Type_ n) with
        | Some k =>
            cs ← children nodes p;
            vals ← mapM (value_at fuel' nodes ps dataset x) cs;
            g ← kernel_fn k ((fun v => [v]) <$> vals);
            head g
        | None => if IsConstant n then Some prm else None
        end
  end.

(** The value of the whole tree: that of its root, the last node. *)
Definition tree_value (nodes : list (Node Scalar)) (ps : list T)
    (dataset : Dataset (Scalar := Scalar)) (x : nat) : option T :=
  value_at (length nodes) nodes ps dataset x (Z.of_nat (length nodes) - 1).

(** The columns of the nodes before [i] hold their values. *)
Definition values_ok (nodes : list (Node Scalar)) (ps : list T)
    (dataset : Dataset (Scalar := Scalar)) (x : nat)
    (i : nat) (b : list (list T)) : Prop :=
  forall j, (j < i)%nat ->
    exists v, b !! j = Some [v] /\
              value_at (S j) nodes ps dataset x (Z.of_nat j) = Some v.

End TreeValue.

(** *** [PopulationDiversityAnalyzer::HashTree]

    [Tree::Sort] is not among the sources; it reorders the nodes of the
    tree and sets their calculated hashes, and stays a parameter here.
    [std::sort] on integers yields the one ascending arrangement of its
    input. *)

Section HashTree.

Context {Scalar : Type}.
Variable Sort : list (Node Scalar) -> list (Node Scalar).

Definition HashTree (tree : list (Node Scalar)) : list Z :=
  let nodes := Sort tree in
  merge_sort Z.le (CalculatedHashValue <$> nodes).

End HashTree.

(** *** [PopulationDiversityAnalyzer::Prepare]: the loop over the pairs

    The part of [Prepare] after the hash vectors are built.  The distance
    of two individuals ([calculateDistance], a floating-point quotient) and
    the accumulator ([MeanVarianceCalculator::Add], not among the sources)
    stay parameters; [N] is [hashes.size()]. *)

Section Prepare.

Context {Dist Calc : Type}.
Variable calculateDistance : nat -> nat -> Dist.
Variable Add : Calc -> list Dist -> Calc.

Record PrepareState : Type := mkPrepare {
  pairs : list (nat * nat);
  k_ : nat;
  c_ : nat;
  calc : Calc
}.

(** The body of the inner loop, for the pair [(i, j)]; [n] is the number
    of pairs expected. *)
Definition Prepare_body (N n : nat) (st : PrepareState) (i j : nat) :
    PrepareState :=
  let pairs' := <[k_ st := (i, j)]> (pairs st) in
  let k1 := S (k_ st) in
  let c' := S (c_ st) in
  let k2 := if (k1 =? N)%nat then 0%nat else k1 in
  if (k2 =? N)%nat || (c' =? n)%nat then
    let distances := (fun ab : nat * nat => calculateDistance ab.1 ab.2) <$> pairs' in
    mkPrepare pairs' 0 c' (Add (calc st) distances)
  else mkPrepare pairs' k2 c' (calc st).

(** The two nested loops; [hashes.size() - 1] and the product in [n] are
    computed on [size_t]. *)
Definition Prepare_loops (N : nat) (calc0 : Calc) : PrepareState :=
  let bound := Z.to_nat ((Z.of_nat N - 1) mod SIZE_MOD) in
  let n := Z.to_nat (((Z.of_nat N - 1) mod SIZE_MOD * Z.of_nat N) mod SIZE_MOD / 2) in
  foldl (fun st i =>
           foldl (fun st' j => Prepare_body N n st' i j) st
                 (seq (i + 1) (N - (i + 1))))
        (mkPrepare (replicate N (0%nat, 0%nat)) 0 0 calc0)
        (seq 0 bound).

End Prepare.

(** The pairs [(i, j)] with [i < j < N] in the order of the two loops. *)
Definition all_pairs (N : nat) : list (nat * nat) :=
  i ← seq 0 (N - 1); (fun j => (i, j)) <$> seq (i + 1) (N - (i + 1)).

(** What the ring buffer [pairs] holds after the pairs of [l] were
    written: slot [s] has the last pair whose position is [s] modulo [N],
    or the initial pair when no position reached it. *)
Definition ring_of (N : nat) (l ring : list (nat * nat)) : Prop :=
  length ring = N /\
  forall s pr, ring !! s = Some pr ->
    (exists q, (q < length l)%nat /\ (length l <= q + N)%nat /\
               (q mod N)%nat = s /\ l !! q = Some pr) \/
    (pr = (0%nat, 0%nat) /\ (length l <= s)%nat).

(** * Properties *)

(** ** Node kinds *)

Lemma NodeType_eqb_eq (a b : NodeType.t) : NodeType.eqb a b = true <-> a = b.
Proof.
  split.
  - destruct a, b; (reflexivity || (intros E; vm_compute in E; discriminate E)).
  - intros ->. unfold NodeType.eqb. apply Z.eqb_refl.
Qed.

Lemma NodeType_all_complete (ty : NodeType.t) : In ty NodeType.all.
Proof. destruct ty; vm_compute; tauto. Qed.

(** C10.  Every kind is the single set bit [1 << k] with [k] in 0..30, and
    [GetIndex] returns that bit position; over the 31 kinds in declaration
    order it takes the values 0, 1, ..., 30, each once. *)
Theorem GetIndex_bit_position :
  (forall ty : NodeType.t,
      NodeType.utype ty = 2 ^ NodeType.shift ty /\
      0 <= NodeType.shift ty <= 30 /\
      NodeTypes.GetIndex ty = NodeType.shift ty /\
      In ty NodeType.all) /\
  Forall (fun k => NodeTypes.GetIndex_raw (Z.shiftl 1 k) = k) (seqZ 0 31) /\
  NodeTypes.GetIndex <$> NodeType.all = seqZ 0 31 /\
  NoDup (NodeTypes.GetIndex <$> NodeType.all).
Proof.
  split; [|split; [|split]].
  - intros ty. split; [|split; [|split]].
    + destruct ty; reflexivity.
    + destruct ty; unfold NodeType.shift; lia.
    + destruct ty; vm_compute; reflexivity.
    + apply NodeType_all_complete.
  - let l := eval vm_compute in (seqZ 0 31) in change (seqZ 0 31) with l.
    repeat (constructor; [vm_compute; reflexivity|]). constructor.
  - vm_compute. reflexivity.
  - replace (NodeTypes.GetIndex <$> NodeType.all) with (seqZ 0 31)
      by (vm_compute; reflexivity).
    apply NoDup_seqZ.
Qed.

(** C9.  [IsCommutative] is the test [Type < NodeType::Sub]: it holds for
    Add and Mul and for no other kind; in particular it answers [false] on
    Fmax and Fmin nodes. *)
Theorem IsCommutative_only_Add_Mul :
  (forall (Scalar : Type) (n : Node Scalar),
      IsCommutative n =
      match Type_ n with
      | NodeType.Add | NodeType.Mul => true
      | _ => false
      end) /\
  (forall (Scalar : Type) (one : Scalar) (this : Node Scalar),
      IsCommutative (Node_init one this NodeType.Fmax) = false /\
      IsCommutative (Node_init one this NodeType.Fmin) = false).
Proof.
  split.
  - intros Scalar n. unfold IsCommutative. destruct (Type_ n); reflexivity.
  - intros. split; reflexivity.
Qed.

(** C8.  The constructor gives Constant and Variable nodes arity 0, but a
    Dynamic node falls into the branch [Type < NodeType::Constant] and gets
    arity 1, so it is not a leaf. *)
Theorem Node_init_leaf_arity :
  forall (Scalar : Type) (one : Scalar) (this : Node Scalar),
    Arity (Node_init one this NodeType.Constant) = 0%nat /\
    IsLeaf (Node_init one this NodeType.Constant) = true /\
    Arity (Node_init one this NodeType.Variable_) = 0%nat /\
    IsLeaf (Node_init one this NodeType.Variable_) = true /\
    Arity (Node_init one this NodeType.Dynamic) = 1%nat /\
    IsLeaf (Node_init one this NodeType.Dynamic) = false.
Proof. intros. repeat split; reflexivity. Qed.

(** ** The chunked fold of [dispatch_op] *)

(** C1.  On an Add node with seven constant children 1, ..., 7 the second
    round of [dispatch_op] overwrites the result of the first five-child
    call: the node evaluates to 1 + 2 = 3, not to the sum 28 of its children,
    which the unchunked [dispatch_op_simple] does produce. *)
Theorem dispatch_op_arity7_drops_first_chunk :
  let m := (fun n : Node Z => [Value n]) <$> add7_tree in
  dispatch_op NodeType.Add m add7_tree 7 = Some (<[7%nat := [3]]> m) /\
  dispatch_op_simple NodeType.Add m add7_tree 7 = Some (<[7%nat := [28]]> m) /\
  example_eval 64 add7_tree example_data (mkRange 0 3) None = Some [3; 3; 3].
Proof. vm_compute. repeat split; reflexivity. Qed.

(** ** Indexing *)

Lemma at_Some {A : Type} (v : list A) (i : Z) (x : A) :
  at_ v i = Some x -> 0 <= i < Z.of_nat (length v) /\ v !! Z.to_nat i = Some x.
Proof.
  unfold at_. destruct (Z.leb_spec 0 i) as [Hi|Hi]; [|discriminate].
  intros E. split; [|exact E].
  apply lookup_lt_Some in E. lia.
Qed.

Lemma at_of_nat {A : Type} (v : list A) (p : nat) : at_ v (Z.of_nat p) = v !! p.
Proof.
  unfold at_. destruct (Z.leb_spec 0 (Z.of_nat p)); [|lia].
  now rewrite Nat2Z.id.
Qed.

Lemma at_in_range {A : Type} (v : list A) (i : Z) :
  0 <= i < Z.of_nat (length v) -> exists x, at_ v i = Some x.
Proof.
  intros Hi. unfold at_. destruct (Z.leb_spec 0 i); [|lia].
  destruct (lookup_lt_is_Some_2 v (Z.to_nat i)) as [x Hx]; [lia|].
  now exists x.
Qed.

(** ** The sibling recurrence *)

Section PostorderFacts.

Context {Scalar : Type}.
Implicit Types (nodes : list (Node Scalar)) (i j p c : Z) (cs : list Z).

Lemma representable_size nodes :
  representable nodes = true -> Z.of_nat (length nodes) + 2 ^ 16 <= SIZE_MOD.
Proof.
  unfold representable. intros E. apply andb_true_iff in E as [E _].
  now apply Z.leb_le in E.
Qed.

Lemma representable_Length nodes i n :
  representable nodes = true -> at_ nodes i = Some n ->
  Z.of_nat (Length n) < 2 ^ 16.
Proof.
  unfold representable. intros E Hn. apply andb_true_iff in E as [_ E].
  apply at_Some in Hn as [_ Hn].
  rewrite forallb_forall in E.
  specialize (E n). rewrite <- list_elem_of_In in E.
  apply list_elem_of_lookup_2 in Hn.
  apply E in Hn. apply andb_true_iff in Hn as [_ Hn].
  now apply Z.ltb_lt in Hn.
Qed.

Lemma subtree_size_pos nodes c n :
  at_ nodes c = Some n -> subtree_size nodes c = Z.of_nat (Length n) + 1.
Proof. unfold subtree_size. now intros ->. Qed.

Lemma subtree_size_nonneg nodes c : 0 <= subtree_size nodes c.
Proof. unfold subtree_size. destruct (at_ nodes c); lia. Qed.

Lemma sizes_nonneg nodes cs : 0 <= foldr Z.add 0 (subtree_size nodes <$> cs).
Proof.
  induction cs as [|c cs IH]; csimpl; [lia|].
  pose proof (subtree_size_nonneg nodes c). lia.
Qed.

(** A sibling that is itself a node of the vector was reached without
    wrapping around. *)
Lemma nextSibling_exact nodes i j n :
  representable nodes = true ->
  nextSibling nodes i = Some j -> at_ nodes j = Some n ->
  j = i - subtree_size nodes i /\ 0 <= j < i.
Proof.
  intros Hrep Hj Hn. unfold nextSibling in Hj.
  destruct (at_ nodes i) as [ni|] eqn:Hi; [|discriminate].
  simpl in Hj. injection Hj as <-.
  rewrite (subtree_size_pos _ _ _ Hi).
  pose proof (representable_size _ Hrep) as Hsz.
  pose proof (representable_Length _ _ _ Hrep Hi) as Hlen.
  apply at_Some in Hi as [Hi _]. apply at_Some in Hn as [Hn _].
  unfold SIZE_MOD in *.
  destruct (Z_lt_le_dec (i - (Z.of_nat (Length ni) + 1)) 0) as [Hneg|Hpos].
  - exfalso.
    rewrite <- (Z_mod_plus_full _ 1) in Hn.
    rewrite Z.mod_small in Hn; lia.
  - rewrite Z.mod_small by lia. lia.
Qed.

Lemma siblings_length nodes i k cs :
  siblings nodes i k = Some cs -> length cs = k.
Proof.
  revert i cs. induction k as [|k IH]; intros i cs; simpl.
  - now intros [= <-].
  - destruct (nextSibling nodes i) as [j|]; [|discriminate]. simpl.
    destruct (siblings nodes j k) as [cs'|] eqn:E; [|discriminate]. simpl.
    intros [= <-]. simpl. f_equal. eauto.
Qed.

Lemma siblings_head_node nodes i k cs :
  siblings nodes i (S k) = Some cs -> exists n, at_ nodes i = Some n.
Proof.
  simpl. unfold nextSibling. destruct (at_ nodes i) as [n|]; [eauto|discriminate].
Qed.

(** Every index of the chain lies between the start minus the sizes of the
    subtrees passed, and the start; the chain descends by exactly one
    subtree per step. *)
Lemma siblings_bounds nodes k : forall i cs,
  representable nodes = true ->
  siblings nodes i k = Some cs ->
  Forall (fun c => i - foldr Z.add 0 (subtree_size nodes <$> cs)
                     + subtree_size nodes c <= c <= i /\
                   exists n, at_ nodes c = Some n) cs.
Proof.
  induction k as [|k IH]; intros i cs Hrep; simpl.
  - intros [= <-]. constructor.
  - destruct (nextSibling nodes i) as [j|] eqn:Hj; [|discriminate]. simpl.
    destruct (siblings nodes j k) as [cs'|] eqn:E; [|discriminate]. simpl.
    intros [= <-]. csimpl.
    pose proof (sizes_nonneg nodes cs') as Hnn.
    pose proof (subtree_size_nonneg nodes i) as Hni.
    assert (Hi : exists n, at_ nodes i = Some n).
    { unfold nextSibling in Hj. destruct (at_ nodes i); [eauto|discriminate]. }
    constructor; [split; [lia|exact Hi]|].
    specialize (IH j cs' Hrep E).
    destruct k as [|k].
    { simpl in E. injection E as <-. constructor. }
    destruct (siblings_head_node _ _ _ _ E) as [nj Hnj].
    destruct (nextSibling_exact _ _ _ _ Hrep Hj Hnj) as [-> Hlt].
    eapply Forall_impl; [exact IH|].
    intros c [Hc Hex]. split; [lia|exact Hex].
Qed.

(** Consecutive indices of the chain differ by one subtree. *)
Lemma siblings_step nodes k : forall i cs,
  representable nodes = true ->
  siblings nodes i k = Some cs ->
  forall a c c', cs !! a = Some c -> cs !! S a = Some c' ->
    c' = c - subtree_size nodes c /\ 0 <= c' < c.
Proof.
  induction k as [|k IH]; intros i cs Hrep; simpl.
  - intros [= <-] a c c' Hc. discriminate.
  - destruct (nextSibling nodes i) as [j|] eqn:Hj; [|discriminate]. simpl.
    destruct (siblings nodes j k) as [cs'|] eqn:E; [|discriminate]. simpl.
    intros [= <-] a c c' Hc Hc'.
    destruct a as [|a]; simpl in Hc, Hc'.
    + injection Hc as <-.
      destruct k as [|k]; simpl in E.
      { injection E as <-. discriminate. }
      destruct (nextSibling nodes j) as [j'|] eqn:Hj'; [|discriminate].
      simpl in E. destruct (siblings nodes j' k); [|discriminate].
      simpl in E. injection E as <-. simpl in Hc'. injection Hc' as <-.
      unfold nextSibling in Hj'.
      destruct (at_ nodes j) as [nj|] eqn:Hnj; [|discriminate].
      eapply nextSibling_exact; eauto.
    + eapply IH; eauto.
Qed.

Lemma siblings_decreasing nodes k i cs :
  representable nodes = true ->
  siblings nodes i k = Some cs ->
  forall a b c c', (a < b)%nat -> cs !! a = Some c -> cs !! b = Some c' -> c' < c.
Proof.
  intros Hrep E a b. revert a.
  induction b as [|b IH]; intros a c c' Hab Hc Hc'; [lia|].
  destruct (lookup_lt_is_Some_2 cs b) as [cb Hcb].
  { apply lookup_lt_Some in Hc'. lia. }
  destruct (siblings_step _ _ _ _ Hrep E _ _ _ Hcb Hc') as [_ Hlt].
  destruct (decide (a = b)) as [->|Hne].
  - rewrite Hcb in Hc. injection Hc as <-. lia.
  - assert (cb < c) by (eapply IH; eauto; lia). lia.
Qed.

Lemma siblings_NoDup nodes k i cs :
  representable nodes = true -> siblings nodes i k = Some cs -> NoDup cs.
Proof.
  intros Hrep E. apply NoDup_alt. intros a b c Ha Hb.
  destruct (Nat.lt_trichotomy a b) as [Hlt|[->|Hlt]]; [|reflexivity|].
  - pose proof (siblings_decreasing _ _ _ _ Hrep E _ _ _ _ Hlt Ha Hb). lia.
  - pose proof (siblings_decreasing _ _ _ _ Hrep E _ _ _ _ Hlt Hb Ha). lia.
Qed.

(** A node with a child is not the first node of the vector. *)
Lemma children_start nodes (p : nat) n k cs :
  representable nodes = true -> nodes !! p = Some n ->
  siblings nodes ((Z.of_nat p - 1) mod SIZE_MOD) (S k) = Some cs ->
  (Z.of_nat p - 1) mod SIZE_MOD = Z.of_nat p - 1 /\ (0 < p)%nat.
Proof.
  intros Hrep Hn Hcs.
  destruct (siblings_head_node _ _ _ _ Hcs) as [n0 Hn0].
  apply at_Some in Hn0 as [Hrange _].
  pose proof (representable_size _ Hrep) as Hsz.
  destruct p as [|p].
  - exfalso. change ((Z.of_nat 0 - 1) mod SIZE_MOD) with (SIZE_MOD - 1) in Hrange.
    unfold SIZE_MOD in *. lia.
  - split; [|lia]. apply Z.mod_small. apply lookup_lt_Some in Hn.
    unfold SIZE_MOD in *. lia.
Qed.

Lemma consistent_at_of nodes (p : nat) :
  consistent nodes = true -> (p < length nodes)%nat ->
  consistent_at nodes (Z.of_nat p) = true.
Proof.
  unfold consistent. rewrite forallb_forall. intros Hc Hp.
  apply Hc. rewrite <- list_elem_of_In. apply elem_of_seqZ. lia.
Qed.

(** The children of a consistent node. *)
Lemma children_of_consistent nodes (p : nat) n :
  representable nodes = true -> consistent_at nodes (Z.of_nat p) = true ->
  nodes !! p = Some n ->
  exists cs,
    children nodes (Z.of_nat p) = Some cs /\
    length cs = Arity n /\
    Forall (fun c => Z.of_nat p - Z.of_nat (Length n) <= c <= Z.of_nat p - 1 /\
                     0 <= c) cs.
Proof.
  intros Hrep Hc Hn. unfold consistent_at in Hc.
  rewrite at_of_nat, Hn in Hc.
  destruct (children nodes (Z.of_nat p)) as [cs|] eqn:Hcs; [|discriminate].
  exists cs. split; [reflexivity|].
  unfold children in Hcs. rewrite at_of_nat, Hn in Hcs. simpl in Hcs.
  split; [eauto using siblings_length|].
  apply Z.eqb_eq in Hc.
  pose proof (siblings_bounds _ _ _ _ Hrep Hcs) as Hb.
  destruct (Arity n) as [|k] eqn:Har.
  { simpl in Hcs. injection Hcs as <-. constructor. }
  destruct (children_start _ _ _ _ _ Hrep Hn Hcs) as [Hp1 _].
  rewrite Hp1, Hc in Hb.
  eapply Forall_impl; [exact Hb|].
  intros c [Hle [nc Hnc]]. simpl in Hle.
  rewrite (subtree_size_pos _ _ _ Hnc) in Hle.
  apply at_Some in Hnc as [Hnc _]. lia.
Qed.

End PostorderFacts.

(** C6.  In a tree whose [Length] and [Arity] fields are consistent, the
    indices the sibling recurrence produces for a node [p], namely
    [c0 = p - 1] and [c(k+1) = ck - Length[ck] - 1], are [Arity[p]] many, all
    lie in [[p - Length[p], p - 1]], and are pairwise distinct. *)
Theorem sibling_recurrence_within_subtree :
  forall (Scalar : Type) (nodes : list (Node Scalar)) (p : nat) (n : Node Scalar),
    representable nodes = true -> consistent nodes = true ->
    nodes !! p = Some n ->
    exists cs : list Z,
      children nodes (Z.of_nat p) = Some cs /\
      length cs = Arity n /\
      (forall c, cs !! 0%nat = Some c -> c = Z.of_nat p - 1) /\
      (forall a c c', cs !! a = Some c -> cs !! S a = Some c' ->
         exists nc, at_ nodes c = Some nc /\
                    c' = c - Z.of_nat (Length nc) - 1) /\
      Forall (fun c => Z.of_nat p - Z.of_nat (Length n) <= c <= Z.of_nat p - 1) cs /\
      NoDup cs.
Proof.
  intros Scalar nodes p n Hrep Hcons Hn.
  assert (Hp : (p < length nodes)%nat) by (eapply lookup_lt_Some; eauto).
  pose proof (consistent_at_of _ _ Hcons Hp) as Hat.
  destruct (children_of_consistent _ _ _ Hrep Hat Hn) as (cs & Hcs & Hlen & Hb).
  exists cs. split; [exact Hcs|]. split; [exact Hlen|].
  unfold children in Hcs. rewrite at_of_nat, Hn in Hcs. simpl in Hcs.
  repeat split.
  - intros c Hc. destruct (Arity n) as [|k].
    + simpl in Hcs. injection Hcs as <-. discriminate.
    + destruct (children_start _ _ _ _ _ Hrep Hn Hcs) as [Hp1 _].
      simpl in Hcs. destruct (nextSibling nodes _); [|discriminate]. simpl in Hcs.
      destruct (siblings nodes _ k); [|discriminate]. simpl in Hcs.
      injection Hcs as <-. simpl in Hc. injection Hc as <-. exact Hp1.
  - intros a c c' Hc Hc'.
    destruct (siblings_step _ _ _ _ Hrep Hcs _ _ _ Hc Hc') as [E _].
    pose proof (siblings_bounds _ _ _ _ Hrep Hcs) as Hall.
    rewrite Forall_forall in Hall.
    destruct (Hall c) as [_ [nc Hnc]]; [eapply list_elem_of_lookup_2; eauto|].
    exists nc. split; [exact Hnc|].
    rewrite (subtree_size_pos _ _ _ Hnc) in E. lia.
  - eapply Forall_impl; [exact Hb|]. intros c [Hc _]. exact Hc.
  - eapply siblings_NoDup; eauto.
Qed.

(** The theorem at the root of [3 * (Y + X)]: its children are the nodes 3
    and 2. *)
Lemma sibling_recurrence_witness :
  exists cs : list Z,
    children nested_tree (Z.of_nat 4) = Some cs /\
    length cs = 2%nat /\
    (forall c, cs !! 0%nat = Some c -> c = 3) /\
    (forall a c c', cs !! a = Some c -> cs !! S a = Some c' ->
       exists nc, at_ nested_tree c = Some nc /\
                  c' = c - Z.of_nat (Length nc) - 1) /\
    Forall (fun c => 0 <= c <= 3) cs /\
    NoDup cs.
Proof.
  apply (sibling_recurrence_within_subtree Z nested_tree 4
           (example_node NodeType.Mul (NodeType.utype NodeType.Mul) 1 2 4 false));
    reflexivity.
Defined.

(** ** The rounds of [dispatch_op] as a function of the child columns *)

Lemma siblings_S {Scalar : Type} (nodes : list (Node Scalar)) i k cs :
  siblings nodes i (S k) = Some cs ->
  exists j cs', nextSibling nodes i = Some j /\ siblings nodes j k = Some cs' /\
                cs = i :: cs'.
Proof.
  simpl. destruct (nextSibling nodes i) as [j|]; [|discriminate]. simpl.
  destruct (siblings nodes j k) as [cs'|] eqn:E; [|discriminate]. simpl.
  intros [= <-]. exists j, cs'. repeat split. exact E.
Qed.

Lemma mapM_cons_Some {A B : Type} (f : A -> option B) x l ys :
  mapM f (x :: l) = Some ys ->
  exists y ys', f x = Some y /\ mapM f l = Some ys' /\ ys = y :: ys'.
Proof.
  intros E. apply mapM_Some in E. inversion E as [|? y ? ys' Hy Hys]; subst.
  exists y, ys'. split; [exact Hy|]. split; [|reflexivity].
  now apply mapM_Some.
Qed.

Lemma mapM_nil_Some {A B : Type} (f : A -> option B) ys :
  mapM f [] = Some ys -> ys = [].
Proof. intros E. apply mapM_Some in E. now inversion E. Qed.

(** Unfold a chain of siblings and the lookups of their columns. *)
Ltac open_chain :=
  repeat match goal with
  | E : siblings _ _ (S _) = Some _ |- _ =>
      let j := fresh "j" in let cs := fresh "cs" in let Hj := fresh "Hj" in
      apply siblings_S in E as (j & cs & Hj & E & ->)
  | E : siblings _ _ O = Some _ |- _ => simpl in E; injection E as <-
  | E : mapM _ (_ :: _) = Some _ |- _ =>
      let y := fresh "col" in let ys := fresh "cols" in let Hy := fresh "Hcol" in
      apply mapM_cons_Some in E as (y & ys & Hy & E & ->)
  | E : mapM _ [] = Some _ |- _ => apply mapM_nil_Some in E; subst
  end.

Ltac use_lookups :=
  repeat match goal with
  | E : ?x = Some _ |- context [?x] => rewrite E; simpl
  end.

Ltac use_lookups_bind :=
  repeat match goal with
  | E : ?x = Some _ |- context [?x] => rewrite E; cbn [mbind option_bind]
  end.

Section Factoring.

Context {Scalar A : Type} {FO : FieldOps A}.
Implicit Types (nodes : list (Node Scalar)) (m : list A) (cs : list Z).

Lemma at_assign_ne m p c (x : A) : c <> p -> 0 <= p -> at_ (assign m p x) c = at_ m c.
Proof.
  intros Hne Hp. unfold at_, assign. destruct (0 <=? c) eqn:Hc; [|reflexivity].
  apply list_lookup_insert_ne. apply Z.leb_le in Hc. lia.
Qed.

Lemma at_assign_eq m p (x r : A) : at_ m p = Some r -> at_ (assign m p x) p = Some x.
Proof.
  intros Hr. apply at_Some in Hr as [Hp _]. unfold at_, assign.
  destruct (Z.leb_spec 0 p); [|lia]. apply list_lookup_insert_eq. lia.
Qed.

Lemma assign_assign m p (x y : A) : assign (assign m p x) p y = assign m p y.
Proof. unfold assign. apply list_insert_insert_eq. Qed.

Lemma mapM_at_assign m p (x : A) cs :
  0 <= p -> p ∉ cs -> mapM (at_ (assign m p x)) cs = mapM (at_ m) cs.
Proof.
  intros Hp Hcs. induction cs as [|c cs IH]; [reflexivity|].
  apply not_elem_of_cons in Hcs as [Hc Hcs].
  cbn [mapM]. rewrite at_assign_ne by (auto; lia). now rewrite IH.
Qed.

Lemma fold_children_chunk N continued (r c0 c1 c2 c3 c4 c5 : A) rest :
  fold_children N continued r (c0 :: c1 :: c2 :: c3 :: c4 :: c5 :: rest)
  = fold_children N true (opn N c0 c1 [c2; c3; c4]) (c5 :: rest).
Proof. reflexivity. Qed.

(** The loop, entered with [arity >= 1] children left whose columns are
    [cols], leaves [fold_children] of them in the parent column. *)
Lemma dispatch_loop_factored N nodes p : forall arity i continued m r cs cols,
  (1 <= arity)%nat ->
  siblings nodes i arity = Some cs ->
  mapM (at_ m) cs = Some cols ->
  at_ m p = Some r ->
  p ∉ cs ->
  dispatch_loop N nodes p arity i continued m
  = assign m p <$> fold_children N continued r cols.
Proof.
  intros arity. induction arity as [arity IH] using lt_wf_ind.
  intros i continued m r cs cols Har Hcs Hcols Hr Hp.
  destruct arity as [|[|[|[|[|[|k]]]]]]; [lia|..].
  - open_chain. simpl. use_lookups. destruct continued; use_lookups; reflexivity.
  - open_chain. simpl. use_lookups. reflexivity.
  - open_chain. simpl. use_lookups. reflexivity.
  - open_chain. simpl. use_lookups. reflexivity.
  - open_chain. simpl. unfold five. use_lookups. reflexivity.
  - apply siblings_S in Hcs as (j1 & cs1 & Hj1 & Hcs & ->).
    apply siblings_S in Hcs as (j2 & cs2 & Hj2 & Hcs & ->).
    apply siblings_S in Hcs as (j3 & cs3 & Hj3 & Hcs & ->).
    apply siblings_S in Hcs as (j4 & cs4 & Hj4 & Hcs & ->).
    apply siblings_S in Hcs as (j5 & cs5 & Hj5 & Hcs & ->).
    apply mapM_cons_Some in Hcols as (c0 & cols1 & Hc0 & Hcols & ->).
    apply mapM_cons_Some in Hcols as (c1 & cols2 & Hc1 & Hcols & ->).
    apply mapM_cons_Some in Hcols as (c2 & cols3 & Hc2 & Hcols & ->).
    apply mapM_cons_Some in Hcols as (c3 & cols4 & Hc3 & Hcols & ->).
    apply mapM_cons_Some in Hcols as (c4 & cols5 & Hc4 & Hcols & ->).
    assert (Hp0 : 0 <= p) by (apply at_Some in Hr; lia).
    assert (Hp5 : p ∉ cs5).
    { intros Hin. apply Hp. now do 5 right. }
    change (dispatch_loop N nodes p (S (S (S (S (S (S k)))))) i continued m)
      with ('(m', j4') ← five N nodes p i m;
            i' ← nextSibling nodes j4';
            dispatch_loop N nodes p (S k) i' true m').
    unfold five. use_lookups_bind.
    set (x := opn N c0 c1 [c2; c3; c4]).
    rewrite (IH (S k) ltac:(lia) j5 true (assign m p x) x cs5 cols5);
      [| lia | exact Hcs | | now apply (at_assign_eq _ _ _ r) | exact Hp5 ].
    + pose proof (siblings_length _ _ _ _ Hcs) as Hlen.
      assert (Hlen' : length cols5 = S k).
      { apply mapM_Some in Hcols. apply Forall2_length in Hcols. lia. }
      destruct cols5 as [|c5 cols6]; [discriminate|].
      rewrite fold_children_chunk. fold x.
      destruct (fold_children N true x (c5 :: cols6)) as [y|]; simpl; [|reflexivity].
      now rewrite assign_assign.
    + now rewrite mapM_at_assign.
Qed.

(** [dispatch_op] on a node with at least one child, none of which is the
    node itself. *)
Lemma dispatch_op_factored N m nodes p n r cs cols :
  at_ nodes p = Some n -> (1 <= Arity n)%nat ->
  children nodes p = Some cs ->
  mapM (at_ m) cs = Some cols ->
  at_ m p = Some r -> p ∉ cs ->
  dispatch_op N m nodes p = assign m p <$> fold_children N false r cols.
Proof.
  intros Hn Har Hcs Hcols Hr Hp. unfold dispatch_op. rewrite Hr, Hn. simpl.
  unfold children in Hcs. rewrite Hn in Hcs. simpl in Hcs.
  now apply dispatch_loop_factored with (cs := cs).
Qed.

(** Before the loop has continued, the parent column is not read. *)
Lemma fold_children_first N (r r' : A) cols :
  fold_children N false r cols = fold_children N false r' cols.
Proof. destruct cols as [|c [|c1 [|c2 [|c3 [|c4 [|c5 cols]]]]]]; reflexivity. Qed.

End Factoring.




(** ** Sequences of indexed writes *)

Section Writes.

Context {A B : Type} (key : B -> nat) (val : B -> A).

Lemma write_all_length ws j : length (write_all key val ws j) = length j.
Proof.
  revert j. induction ws as [|w ws IH]; intros j; simpl; [reflexivity|].
  unfold write_all in *. simpl. rewrite IH. apply length_insert.
Qed.

Lemma write_all_other ws j q :
  (forall w, w ∈ ws -> key w <> q) -> write_all key val ws j !! q = j !! q.
Proof.
  revert j. induction ws as [|w ws IH]; intros j Hq; [reflexivity|].
  unfold write_all in *. simpl. rewrite IH.
  - apply list_lookup_insert_ne. apply Hq. left.
  - intros w' Hw'. apply Hq. now right.
Qed.

(** When writes to one cell all carry the same value, the cell ends up
    with the value of any of them. *)
Lemma write_all_hit ws j q w :
  (forall w1 w2, w1 ∈ ws -> w2 ∈ ws -> key w1 = key w2 -> val w1 = val w2) ->
  w ∈ ws -> key w = q -> (q < length j)%nat ->
  write_all key val ws j !! q = Some (val w).
Proof.
  revert j w. induction ws as [|w0 ws IH]; intros j w Hfun Hw Hk Hq.
  { inversion Hw. }
  unfold write_all in *. simpl.
  destruct (decide (q ∈ (key <$> ws))) as [Hin|Hout].
  - apply list_elem_of_fmap in Hin as [w' [-> Hw']].
    rewrite (IH (<[key w0 := val w0]> j) w').
    + f_equal. symmetry. apply Hfun; [exact Hw|now right|exact Hk].
    + intros w1 w2 H1 H2. apply Hfun; now right.
    + exact Hw'.
    + reflexivity.
    + now rewrite length_insert.
  - fold (write_all key val ws (<[key w0 := val w0]> j)).
    rewrite write_all_other.
    + apply elem_of_cons in Hw as [->|Hw].
      * subst q. now apply list_lookup_insert_eq.
      * exfalso. apply Hout. apply list_elem_of_fmap. eauto.
    + intros w' Hw' E. apply Hout. apply list_elem_of_fmap. eauto.
Qed.

End Writes.

Lemma foldl_bind {A B C : Type} (f : A -> C -> A) (g : B -> list C)
    (l : list B) (a : A) :
  foldl f a (l ≫= g) = foldl (fun a' b => foldl f a' (g b)) a l.
Proof.
  revert a. induction l as [|b l IH]; intros a; [reflexivity|].
  rewrite bind_cons, foldl_app. simpl. apply IH.
Qed.

Lemma foldl_fmap {A B C : Type} (f : A -> C -> A) (g : B -> C)
    (l : list B) (a : A) :
  foldl f a (g <$> l) = foldl (fun a' b => f a' (g b)) a l.
Proof. revert a. induction l as [|b l IH]; intros a; simpl; auto. Qed.

Lemma foldl_ext_in {A B : Type} (f g : A -> B -> A) (l : list B) (a : A) :
  (forall a' b, f a' b = g a' b) -> foldl f a l = foldl g a l.
Proof.
  intros E. revert a. induction l as [|b l IH]; intros a; simpl; [reflexivity|].
  now rewrite E, IH.
Qed.

Lemma elem_of_enumerate {A : Type} (l : list A) (i : nat) (x : A) :
  (i, x) ∈ zip (seq 0 (length l)) l <-> l !! i = Some x.
Proof.
  rewrite list_elem_of_lookup. split.
  - intros [k Hk]. apply lookup_zip_with_Some in Hk as (a & b & E & Ha & Hb).
    injection E as -> ->. apply lookup_seq in Ha as [-> _]. exact Hb.
  - intros Hx. exists i. apply lookup_zip_with_Some. exists i, x.
    split; [reflexivity|]. split; [|exact Hx].
    apply lookup_seq. split; [reflexivity|]. now apply lookup_lt_Some in Hx.
Qed.

Lemma mixed_radix_inj (n a b a' b' : nat) :
  (b < n)%nat -> (b' < n)%nat -> (a * n + b = a' * n + b')%nat ->
  a = a' /\ b = b'.
Proof.
  intros Hb Hb' E.
  destruct (Nat.lt_trichotomy a a') as [Hlt|[->|Hlt]]; [exfalso; nia|lia|exfalso; nia].
Qed.

(** ** Storage orders of the Jacobian *)

Section StorageOrders.

Context {Scalar Tree Data : Type} {SF : ScalarFns Scalar}.
Variable DIMENSION : nat.
Variable interpreter_ : Interpreter_t (Scalar := Scalar) (Tree := Tree) (Data := Data).

Implicit Types (jac jc jr : list Scalar) (outputs inputs : list (Dual.t Scalar)).

(** The writes of the column-major branch, one per chunk parameter and
    row. *)
Lemma scatter_col_writes rows s r outputs jac :
  scatter_col rows s r outputs jac =
  write_all (fun w : nat * (nat * Dual.t Scalar) => (w.1 * rows + w.2.1)%nat)
            (fun w => lane w.2.2 (w.1 - s))
            (seq s (r - s) ≫= fun i =>
               (fun rj => (i, rj)) <$> zip (seq 0 (length outputs)) outputs)
            jac.
Proof.
  unfold scatter_col, write_all. rewrite foldl_bind.
  apply foldl_ext_in. intros j i. rewrite foldl_fmap.
  apply foldl_ext_in. intros j' [row jet]. reflexivity.
Qed.

(** The writes of the row-major branch, one per row and chunk lane. *)
Lemma scatter_row_writes cols s r outputs jac :
  scatter_row cols s r outputs jac =
  write_all (fun w : (nat * Dual.t Scalar) * nat => (w.1.1 * cols + s + w.2)%nat)
            (fun w => lane w.1.2 w.2)
            (zip (seq 0 (length outputs)) outputs ≫= fun rj =>
               (fun k => (rj, k)) <$> seq 0 (r - s))
            jac.
Proof.
  unfold scatter_row, write_all. rewrite foldl_bind.
  apply foldl_ext_in. intros j [row jet]. rewrite foldl_fmap.
  apply foldl_ext_in. intros j' k. reflexivity.
Qed.

(** After a chunk, entry [(row, c)] holds lane [c - s] of output [row] when
    [c] is in the chunk, and is untouched otherwise: column-major. *)
Lemma scatter_col_lookup rows cols s r outputs jac row c jet :
  length jac = (rows * cols)%nat -> length outputs = rows -> (r <= cols)%nat ->
  outputs !! row = Some jet -> (c < cols)%nat ->
  scatter_col rows s r outputs jac !! (c * rows + row)%nat =
  if decide (s <= c < r)%nat then Some (lane jet (c - s))
  else jac !! (c * rows + row)%nat.
Proof.
  intros Hjac Hout Hr Hjet Hc.
  pose proof (lookup_lt_Some _ _ _ Hjet) as Hrow.
  rewrite scatter_col_writes. case_decide as Hin.
  - etrans; [apply (write_all_hit _ _ _ _ _ (c, (row, jet)))|reflexivity].
    + intros [i1 [r1 j1]] [i2 [r2 j2]] H1 H2; simpl.
      apply list_elem_of_bind in H1 as (a1 & H1 & _).
      apply list_elem_of_bind in H2 as (a2 & H2 & _).
      apply list_elem_of_fmap in H1 as (rj1 & E1 & H1). injection E1 as <- <-.
      apply list_elem_of_fmap in H2 as (rj2 & E2 & H2). injection E2 as <- <-.
      apply elem_of_enumerate in H1, H2.
      pose proof (lookup_lt_Some _ _ _ H1). pose proof (lookup_lt_Some _ _ _ H2).
      intros E. assert (i1 = i2 /\ r1 = r2) as [-> ->]
        by (apply (mixed_radix_inj rows); lia).
      rewrite H1 in H2. now injection H2 as ->.
    + apply list_elem_of_bind. exists c. split.
      * apply list_elem_of_fmap. exists (row, jet). split; [reflexivity|].
        now apply elem_of_enumerate.
      * apply elem_of_seq. lia.
    + reflexivity.
    + nia.
  - apply write_all_other. intros [i [r1 j1]] Hw; simpl.
    apply list_elem_of_bind in Hw as (a & Hw & Ha).
    apply list_elem_of_fmap in Hw as (rj & E & Hw). injection E as <- <-.
    apply elem_of_enumerate in Hw. apply lookup_lt_Some in Hw.
    apply elem_of_seq in Ha. nia.
Qed.

(** The same for the row-major branch. *)
Lemma scatter_row_lookup rows cols s r outputs jac row c jet :
  length jac = (rows * cols)%nat -> length outputs = rows -> (r <= cols)%nat ->
  outputs !! row = Some jet -> (c < cols)%nat ->
  scatter_row cols s r outputs jac !! (row * cols + c)%nat =
  if decide (s <= c < r)%nat then Some (lane jet (c - s))
  else jac !! (row * cols + c)%nat.
Proof.
  intros Hjac Hout Hr Hjet Hc.
  pose proof (lookup_lt_Some _ _ _ Hjet) as Hrow.
  rewrite scatter_row_writes. case_decide as Hin.
  - etrans; [apply (write_all_hit _ _ _ _ _ ((row, jet), (c - s)%nat))|reflexivity].
    + intros [[r1 j1] k1] [[r2 j2] k2] H1 H2; simpl.
      apply list_elem_of_bind in H1 as (a1 & H1 & G1).
      apply list_elem_of_bind in H2 as (a2 & H2 & G2).
      apply list_elem_of_fmap in H1 as (x1 & E1 & H1). injection E1 as <- <-.
      apply list_elem_of_fmap in H2 as (x2 & E2 & H2). injection E2 as <- <-.
      apply elem_of_enumerate in G1, G2.
      apply elem_of_seq in H1, H2.
      intros E. assert (r1 = r2 /\ (s + k1 = s + k2)%nat) as [-> Ek]
        by (apply (mixed_radix_inj cols); lia).
      assert (k1 = k2) as -> by lia.
      rewrite G1 in G2. now injection G2 as ->.
    + apply list_elem_of_bind. exists (row, jet). split.
      * apply list_elem_of_fmap. exists (c - s)%nat. split; [reflexivity|].
        apply elem_of_seq. lia.
      * now apply elem_of_enumerate.
    + simpl. lia.
    + nia.
  - apply write_all_other. intros [[r1 j1] k] Hw; simpl.
    apply list_elem_of_bind in Hw as (a & Hw & Ha).
    apply list_elem_of_fmap in Hw as (x & E & Hw). injection E as <- <-.
    apply elem_of_enumerate in Ha. apply lookup_lt_Some in Ha.
    apply elem_of_seq in Hw. intros E.
    assert (r1 = row /\ (s + k = c)%nat) as [-> Ek]
      by (apply (mixed_radix_inj cols); lia).
    lia.
Qed.

Lemma scatter_length order rows cols s r outputs jac :
  length (scatter order rows cols s r outputs jac) = length jac.
Proof.
  destruct order; simpl.
  - rewrite scatter_col_writes. apply write_all_length.
  - rewrite scatter_row_writes. apply write_all_length.
Qed.

Lemma scatter_same_matrix rows cols s r outputs jc jr :
  length outputs = rows -> (r <= cols)%nat ->
  same_matrix rows cols jc jr ->
  same_matrix rows cols (scatter ColMajor rows cols s r outputs jc)
                        (scatter RowMajor rows cols s r outputs jr).
Proof.
  intros Hout Hr (Hc & Hrw & Hsame).
  split; [now rewrite scatter_length|]. split; [now rewrite scatter_length|].
  intros row c Hrow Hcol. simpl.
  destruct (lookup_lt_is_Some_2 outputs row) as [jet Hjet]; [lia|].
  rewrite (scatter_col_lookup rows cols s r outputs jc row c jet) by assumption.
  rewrite (scatter_row_lookup rows cols s r outputs jr row c jet) by assumption.
  case_decide; [reflexivity|]. now apply Hsame.
Qed.

Lemma seed_length s r inputs : length (seed s r inputs) = length inputs.
Proof.
  unfold seed. generalize (seq s (r - s)). intros l. revert inputs.
  induction l as [|i l IH]; intros inputs; simpl; [reflexivity|].
  rewrite IH. apply length_alter.
Qed.

(** The two instantiations of the sweep run in lockstep. *)
Lemma sweep_same_matrix fuel tree dataset range : forall s inputs outputs jc jr,
  same_matrix (length outputs) (length inputs) jc jr ->
  match sweep DIMENSION interpreter_ ColMajor fuel tree dataset range s inputs outputs jc,
        sweep DIMENSION interpreter_ RowMajor fuel tree dataset range s inputs outputs jr
  with
  | Some jc', Some jr' => same_matrix (length outputs) (length inputs) jc' jr'
  | None, None => True
  | _, _ => False
  end.
Proof.
  induction fuel as [|fuel IH]; intros s inputs outputs jc jr Hsame; simpl.
  - destruct (length inputs <=? s)%nat; [exact Hsame|exact I].
  - destruct (length inputs <=? s)%nat; [exact Hsame|].
    destruct (interpreter_ tree dataset range outputs _) as [outputs'|]; simpl; [|exact I].
    destruct (Nat.eqb_spec (length outputs') (length outputs)) as [E|_]; [|exact I].
    specialize (IH (s + DIMENSION)%nat
                   (seed s (Nat.min (length inputs) (s + DIMENSION)) inputs)
                   outputs').
    rewrite seed_length, E in IH. apply IH.
    apply scatter_same_matrix; [exact E|lia|exact Hsame].
Qed.

End StorageOrders.

(** C7.  The row-major and the column-major instantiation of the derivative
    calculator either both fail or both return a storage of
    [rows * cols] cells, and entry [(r, i)] of the one equals entry [(r, i)]
    of the other for every row [r] and parameter [i]. *)
Theorem Jacobian_storage_orders_agree :
  forall (Scalar Tree Data : Type) (SF : ScalarFns Scalar) (DIMENSION : nat)
         (interpreter_ : Interpreter_t (Scalar := Scalar))
         (tree : Tree) (dataset : Data) (coeff : list Scalar) (range : Range),
    match Jacobian DIMENSION interpreter_ ColMajor tree dataset coeff range,
          Jacobian DIMENSION interpreter_ RowMajor tree dataset coeff range
    with
    | Some jc, Some jr =>
        length jc = (Size range * length coeff)%nat /\
        length jr = (Size range * length coeff)%nat /\
        forall r i, (r < Size range)%nat -> (i < length coeff)%nat ->
          jc !! jac_index ColMajor (Size range) (length coeff) r i =
          jr !! jac_index RowMajor (Size range) (length coeff) r i
    | None, None => True
    | _, _ => False
    end.
Proof.
  intros. unfold Jacobian.
  destruct (2 ^ 32 <=? _); [exact I|].
  set (inputs := (fun c => Dual.mk c (replicate DIMENSION s_zero)) <$> coeff).
  set (outputs := replicate (Size range) (Dual.mk s_zero (replicate DIMENSION s_zero))).
  pose proof (sweep_same_matrix DIMENSION interpreter_ (length inputs) tree dataset
                range 0%nat inputs outputs
                (replicate (length outputs * length inputs) s_zero)
                (replicate (length outputs * length inputs) s_zero)) as Hs.
  assert (Hin : length inputs = length coeff) by apply length_fmap.
  assert (Hout : length outputs = Size range) by apply length_replicate.
  rewrite Hin, Hout in Hs. rewrite Hin, Hout. apply Hs.
  split; [apply length_replicate|]. split; [apply length_replicate|].
  intros r c Hr Hc. simpl.
  rewrite !lookup_replicate_2 by nia. reflexivity.
Qed.

(** ** The chunked sweep of the derivative calculator *)

(** C2.  With dual dimension 4 and five parameters the calculator makes two
    sweeps.  Nothing clears the seeds of the first chunk, so in the second
    sweep parameter 0 still carries a unit seed in lane 0, next to
    parameter 4: column 4 of the Jacobian of [p0 + p1 + p2 + p3 + p4] comes
    out as 2 instead of 1.  With dual dimension 8 (one sweep) every entry is
    1; likewise the Jacobian of [a * X + b] is [[1,1],[2,1],[3,1]] in one
    sweep but [[1,2],[2,3],[3,4]] with dual dimension 1. *)
Theorem Jacobian_second_sweep_keeps_first_seeds :
  seed 4 5 (seed 0 4 ((fun c => Dual.mk c (replicate 4 0)) <$> [1; 2; 3; 4; 5]))
  = [ Dual.mk 1 [1; 0; 0; 0]; Dual.mk 2 [0; 1; 0; 0]; Dual.mk 3 [0; 0; 1; 0];
      Dual.mk 4 [0; 0; 0; 1]; Dual.mk 5 [1; 0; 0; 0] ] /\
  example_jacobian 4 RowMajor sum5_tree example_data [1; 2; 3; 4; 5] (mkRange 0 2)
  = Some [1; 1; 1; 1; 2;  1; 1; 1; 1; 2] /\
  example_jacobian 8 RowMajor sum5_tree example_data [1; 2; 3; 4; 5] (mkRange 0 2)
  = Some [1; 1; 1; 1; 1;  1; 1; 1; 1; 1] /\
  example_jacobian 4 RowMajor affine_tree example_data [2; 3] (mkRange 0 3)
  = Some [1; 1;  2; 1;  3; 1] /\
  example_jacobian 1 RowMajor affine_tree example_data [2; 3] (mkRange 0 3)
  = Some [1; 2;  2; 3;  3; 4].
Proof. vm_compute. repeat split; reflexivity. Qed.

(** ** Kernels are elementwise *)

Section Related.

Context {A B : Type} {FA : FieldOps A} {FB : FieldOps B}.
Variable R : A -> B -> Prop.
Hypothesis HR : ops_related R.

Lemma fold_pack_related (f : A -> A -> A) (g : B -> B -> B) :
  (forall x x' y y', R x x' -> R y y' -> R (f x y) (g x' y')) ->
  forall args args' a a', R a a' -> Forall2 R args args' ->
    R (fold_pack f a args) (fold_pack g a' args').
Proof.
  intros Hfg args args' a a' Ha Hargs. revert a a' Ha.
  induction Hargs as [|b b' args args' Hb _ IH]; intros a a' Ha; simpl; auto.
Qed.

Lemma opn_related N a a' b b' args args' :
  R a a' -> R b b' -> Forall2 R args args' ->
  R (opn N a b args) (opn N a' b' args').
Proof.
  destruct HR as (Hadd & Hsub & Hmul & Hdiv & Hmax & Hmin & _ & _).
  intros Ha Hb Hargs.
  destruct N; simpl;
    first [ apply Hadd | apply Hsub | apply Hmul | apply Hdiv
          | apply Hmax | apply Hmin ];
    auto using fold_pack_related.
Qed.

Lemma op1_related N a a' : R a a' -> R (op1 N a) (op1 N a').
Proof.
  destruct HR as (_ & _ & _ & _ & _ & _ & Hneg & Hinv).
  intros Ha. destruct N; simpl; auto.
Qed.

Lemma fold_children_related N : forall cols cols' continued r r',
  Forall2 R cols cols' -> (continued = true -> R r r') ->
  option_Forall2 R (fold_children N continued r cols)
                   (fold_children N continued r' cols').
Proof.
  intros cols. induction cols as [cols IH] using (induction_ltof1 _ (@length A)).
  unfold ltof in IH.
  intros cols' continued r r' Hcols Hr.
  destruct Hcols as [|c0 d0 cols cols' H0 Hcols]; [constructor|].
  destruct Hcols as [|c1 d1 cols cols' H1 Hcols].
  { simpl. constructor. destruct continued.
    - apply opn_related; auto.
    - now apply op1_related. }
  destruct Hcols as [|c2 d2 cols cols' H2 Hcols].
  { simpl. constructor. apply opn_related; auto. }
  destruct Hcols as [|c3 d3 cols cols' H3 Hcols].
  { simpl. constructor. apply opn_related; auto. }
  destruct Hcols as [|c4 d4 cols cols' H4 Hcols].
  { simpl. constructor. apply opn_related; auto. }
  destruct Hcols as [|c5 d5 cols cols' H5 Hcols].
  { simpl. constructor. apply opn_related; auto. }
  rewrite !fold_children_chunk. apply IH.
  - simpl. lia.
  - constructor; assumption.
  - intros _. apply opn_related; auto.
Qed.

End Related.

Section Elementwise.

Context {T : Type} {FO : FieldOps T}.

(** Taking a block of rows commutes with the coefficient-wise operators. *)
Lemma rows_related (off len : nat) :
  ops_related (fun x y : list T => y = take len (drop off x)).
Proof.
  unfold ops_related; simpl.
  repeat split; intros; subst;
    rewrite ?zip_with_drop, ?zip_with_take, ?fmap_take, ?fmap_drop; reflexivity.
Qed.

(** Columns of [L] rows stay columns of [L] rows. *)
Lemma length_related (L : nat) :
  ops_related (fun x _ : list T => length x = L).
Proof.
  unfold ops_related; simpl.
  repeat split; intros; rewrite ?length_zip_with, ?length_fmap; lia.
Qed.

End Elementwise.

Section KernelFacts.

Context {Scalar T : Type} {FO : FieldOps T} {SF : ScalarFns T}.
Implicit Types (nodes : list (Node Scalar)) (m : list (list T)) (cs : list Z).

#[local] Abbreviation rows off len := (fun c : list T => take len (drop off c)).

Lemma option_Forall2_rows (off len : nat) (o o' : option (list T)) :
  option_Forall2 (fun x y => y = take len (drop off x)) o o' ->
  o' = rows off len <$> o.
Proof. intros [x y ->|]; reflexivity. Qed.

(** A kernel applied to a block of rows of its operands yields that block
    of rows of its result. *)
Lemma kernel_fn_rows (k : KernelKind (T := T)) cols off len :
  kernel_fn k (rows off len <$> cols) = rows off len <$> kernel_fn k cols.
Proof.
  destruct k as [N|f|f]; simpl.
  - apply option_Forall2_rows.
    apply (fold_children_related _ (rows_related off len)).
    + apply Forall2_fmap_r. apply Forall_Forall2_diag.
      apply Forall_forall. reflexivity.
    + discriminate.
  - destruct cols as [|a [|b [|c cols]]]; simpl; try reflexivity.
    now rewrite zip_with_drop, zip_with_take.
  - destruct cols as [|a [|b cols]]; simpl; try reflexivity.
    now rewrite fmap_take, fmap_drop.
Qed.

(** Operands of [L] rows give a result of [L] rows. *)
Lemma kernel_fn_length (k : KernelKind (T := T)) cols g L :
  Forall (fun c => length c = L) cols -> kernel_fn k cols = Some g ->
  length g = L.
Proof.
  intros Hcols Hg. destruct k as [N|f|f]; simpl in Hg.
  - pose proof (fold_children_related _ (length_related L) N cols cols
                  false [] []) as Hrel.
    rewrite Hg in Hrel.
    assert (Hd : Forall2 (fun x _ : list T => length x = L) cols cols).
    { apply Forall_Forall2_diag. exact Hcols. }
    specialize (Hrel Hd ltac:(discriminate)).
    inversion Hrel; assumption.
  - destruct cols as [|a [|b [|c cols]]]; try discriminate.
    injection Hg as <-. inversion Hcols as [|? ? Ha Hcols']; subst.
    inversion Hcols' as [|? ? Hb _]; subst.
    rewrite length_zip_with. lia.
  - destruct cols as [|a [|b cols]]; try discriminate.
    injection Hg as <-. inversion Hcols; subst. now rewrite length_fmap.
Qed.

Lemma fold_children_is_Some N (r c : list T) cols :
  is_Some (fold_children N false r (c :: cols)).
Proof.
  remember (c :: cols) as l eqn:E.
  assert (Hne : l <> []) by (subst; discriminate). clear E c cols.
  generalize false. revert r.
  induction l as [l IH] using (induction_ltof1 _ (@length (list T))).
  unfold ltof in IH. intros r continued.
  destruct l as [|c0 [|c1 [|c2 [|c3 [|c4 [|c5 rest]]]]]]; try (simpl; eauto; fail).
  - congruence.
  - rewrite fold_children_chunk. apply IH; [simpl; lia|discriminate].
Qed.

(** The table, looked up with the hash of a kind, holds the kernel of that
    kind. *)
Lemma default_table_utype (ty : NodeType.t) :
  default_table (Scalar := Scalar) (T := T) (NodeType.utype ty) = kernel_of ty.
Proof. destruct ty; reflexivity. Qed.

Lemma arity_ok_kind (ty : NodeType.t) (a : nat) :
  arity_ok ty a = true ->
  match kernel_kind (T := T) ty with
  | Some (Variadic N) => N = ty /\ (1 <= a)%nat
  | Some (Binary _) => a = 2%nat
  | Some (Unary _) => a = 1%nat
  | None => ty = NodeType.Constant \/ ty = NodeType.Variable_
  end.
Proof.
  unfold arity_ok.
  destruct ty; cbn [kernel_kind]; intros E; try discriminate;
    try (apply Nat.eqb_eq in E; exact E);
    try (apply Nat.leb_le in E; split; [reflexivity|exact E]);
    auto.
Qed.

Lemma mapM_at_in_range {X : Type} (v : list X) cs :
  Forall (fun c => 0 <= c < Z.of_nat (length v)) cs ->
  exists xs, mapM (at_ v) cs = Some xs /\ length xs = length cs.
Proof.
  induction 1 as [|c cs Hc _ [xs [IH Hlen]]].
  - exists []. split; reflexivity.
  - destruct (at_in_range v c Hc) as [x Hx].
    exists (x :: xs). split; [|simpl; lia].
    cbn [mapM]. rewrite Hx, IH. reflexivity.
Qed.

Lemma IsVariable_false_Type (n : Node Scalar) :
  IsVariable n = false -> Type_ n <> NodeType.Variable_.
Proof.
  unfold IsVariable, Is. simpl. intros E Hty. rewrite Hty in E. discriminate.
Qed.

Lemma IsConstant_Type (n : Node Scalar) :
  IsConstant n = true <-> Type_ n = NodeType.Constant.
Proof.
  unfold IsConstant, Is. simpl. rewrite orb_false_r. apply NodeType_eqb_eq.
Qed.

Lemma IsVariable_Type (n : Node Scalar) :
  IsVariable n = true <-> Type_ n = NodeType.Variable_.
Proof.
  unfold IsVariable, Is. simpl. rewrite orb_false_r. apply NodeType_eqb_eq.
Qed.

(** The node is not a variable: its hash is that of its kind. *)
Lemma well_kinded_hash (n : Node Scalar) :
  well_kinded n = true -> IsVariable n = false ->
  HashValue n = NodeType.utype (Type_ n) /\ arity_ok (Type_ n) (Arity n) = true.
Proof.
  unfold well_kinded. intros E Hv. apply andb_true_iff in E as [Ha E].
  rewrite Hv in E. simpl in E. apply Z.eqb_eq in E. auto.
Qed.

(** A constant has no kernel. *)
Lemma constant_no_kernel (n : Node Scalar) :
  well_kinded n = true -> IsVariable n = false ->
  kernel_kind (T := T) (Type_ n) = None ->
  IsConstant n = true /\
  default_table (Scalar := Scalar) (T := T) (HashValue n) = None.
Proof.
  intros Hwk Hv Hk. destruct (well_kinded_hash _ Hwk Hv) as [Hh Ha].
  rewrite Hh, default_table_utype. unfold kernel_of. rewrite Hk. split; [|reflexivity].
  apply arity_ok_kind in Ha. rewrite Hk in Ha.
  destruct Ha as [Hc|Hc].
  - now apply IsConstant_Type.
  - now apply IsVariable_false_Type in Hv.
Qed.

(** The kernel call on an inner node of a valid tree: the columns of its
    children go through [kernel_fn] into the column of the node. *)
Lemma kernel_call nodes (p : nat) (n : Node Scalar) m rg k :
  representable nodes = true -> consistent_at nodes (Z.of_nat p) = true ->
  nodes !! p = Some n -> well_kinded n = true -> IsVariable n = false ->
  length m = length nodes ->
  kernel_kind (Type_ n) = Some k ->
  exists f cs cols g,
    default_table (HashValue n) = Some f /\
    children nodes (Z.of_nat p) = Some cs /\
    Forall (fun c => 0 <= c < Z.of_nat p) cs /\
    mapM (at_ m) cs = Some cols /\
    kernel_fn k cols = Some g /\
    f m nodes (Z.of_nat p) rg = Some (<[p := g]> m).
Proof.
  intros Hrep Hcons Hn Hwk Hv Hlen Hk.
  destruct (well_kinded_hash _ Hwk Hv) as [Hh Ha].
  destruct (children_of_consistent _ _ _ Hrep Hcons Hn) as (cs & Hcs & Hcslen & Hb).
  assert (Hp : (p < length nodes)%nat) by (eapply lookup_lt_Some; eauto).
  assert (Hrange : Forall (fun c => 0 <= c < Z.of_nat p) cs).
  { eapply Forall_impl; [exact Hb|]. simpl. intros c ?. lia. }
  destruct (mapM_at_in_range m cs) as (cols & Hcols & Hcl).
  { eapply Forall_impl; [exact Hrange|]. simpl. intros c ?. lia. }
  destruct (lookup_lt_is_Some_2 m p) as [r Hr]; [lia|].
  assert (Hr' : at_ m (Z.of_nat p) = Some r) by now rewrite at_of_nat.
  assert (Hn' : at_ nodes (Z.of_nat p) = Some n) by now rewrite at_of_nat.
  assert (Hnotin : Z.of_nat p ∉ cs).
  { intros Hin. rewrite Forall_forall in Hrange. specialize (Hrange _ Hin). lia. }
  rewrite Hh, default_table_utype. unfold kernel_of. rewrite Hk. simpl.
  apply arity_ok_kind in Ha. rewrite Hk in Ha.
  pose proof (conj Hcs Hcols) as Hsaved.
  destruct k as [N|f|f].
  - destruct Ha as [-> Ha].
    destruct cols as [|c cols'].
    { simpl in Hcl. lia. }
    destruct (fold_children_is_Some (Type_ n) [] c cols') as [g Hg].
    exists (variadic_kernel (Type_ n)), cs, (c :: cols'), g.
    repeat split; try assumption.
    unfold variadic_kernel.
    rewrite (dispatch_op_factored _ m nodes _ n r cs (c :: cols')) by assumption.
    rewrite (fold_children_first _ r []), Hg. simpl.
    unfold assign. now rewrite Nat2Z.id.
  - unfold children in Hcs. rewrite Hn' in Hcs. simpl in Hcs. rewrite Ha in Hcs.
    open_chain.
    eexists (binary_kernel f), _, _, _.
    destruct Hsaved as [Hcs0 Hcols0].
    split; [reflexivity|]. split; [exact Hcs0|]. split; [exact Hrange|].
    split; [exact Hcols0|]. split; [reflexivity|].
    unfold binary_kernel. use_lookups_bind.
    unfold assign. now rewrite Nat2Z.id.
  - unfold children in Hcs. rewrite Hn' in Hcs. simpl in Hcs. rewrite Ha in Hcs.
    open_chain.
    eexists (unary_kernel f), _, _, _.
    destruct Hsaved as [Hcs0 Hcols0].
    split; [reflexivity|]. split; [exact Hcs0|]. split; [exact Hrange|].
    split; [exact Hcols0|]. split; [reflexivity|].
    unfold unary_kernel. use_lookups_bind.
    unfold assign. now rewrite Nat2Z.id.
Qed.

End KernelFacts.

(** ** The per-node setup *)

Section SetupFacts.

Context {Scalar T : Type} {FO : FieldOps T} {SF : ScalarFns T}.
Variable cast : Scalar -> T.
Variable BatchSize : nat.
Implicit Types (nodes : list (Node Scalar)) (m : list (list T))
  (ps : list T) (vs : list (list Scalar)).

(** The first loop computes parameters, views and the preloaded buffer
    independently of one another. *)
Lemma setup_eq ftable dataset range parameters : forall nodes i idx m,
  setup cast BatchSize ftable dataset range parameters nodes i idx m =
  ps ← params_from cast parameters nodes idx;
  vs ← mapM (view_of dataset range) nodes;
  Some (metas_of ftable nodes ps vs, preload BatchSize nodes ps i m).
Proof.
  induction nodes as [|n nodes IH]; intros i idx m; [reflexivity|].
  cbn [setup params_from mapM]. fold (view_of dataset range n).
  destruct (view_of dataset range n) as [v|]; simpl.
  - destruct parameters as [prm|].
    + destruct (Optimize n).
      * destruct (prm !! idx) as [p|]; simpl; [|reflexivity].
        rewrite IH.
        destruct (params_from cast (Some prm) nodes (S idx)) as [ps|];
          simpl; [|reflexivity].
        destruct (mapM (view_of dataset range) nodes) as [vs|]; reflexivity.
      * simpl. rewrite IH.
        destruct (params_from cast (Some prm) nodes idx) as [ps|];
          simpl; [|reflexivity].
        destruct (mapM (view_of dataset range) nodes) as [vs|]; reflexivity.
    + simpl. rewrite IH.
      destruct (params_from cast None nodes idx) as [ps|];
        simpl; [|reflexivity].
      destruct (mapM (view_of dataset range) nodes) as [vs|]; reflexivity.
  - destruct parameters as [prm|]; [destruct (Optimize n)|].
    + destruct (prm !! idx); simpl; [|reflexivity].
      destruct (params_from cast (Some prm) nodes (S idx)); reflexivity.
    + destruct (params_from cast (Some prm) nodes idx); reflexivity.
    + destruct (params_from cast None nodes idx); reflexivity.
Qed.

Lemma params_from_length parameters : forall nodes idx ps,
  params_from cast parameters nodes idx = Some ps -> length ps = length nodes.
Proof.
  induction nodes as [|n nodes IH]; intros idx ps; simpl.
  - now intros [= <-].
  - destruct parameters as [prm|]; [destruct (Optimize n)|].
    + destruct (prm !! idx); [|discriminate]. simpl.
      destruct (params_from _ _ nodes (S idx)) eqn:E; [|discriminate].
      intros [= <-]. simpl. f_equal. eauto.
    + destruct (params_from _ _ nodes idx) eqn:E; [|discriminate].
      intros [= <-]. simpl. f_equal. eauto.
    + destruct (params_from _ _ nodes idx) eqn:E; [|discriminate].
      intros [= <-]. simpl. f_equal. eauto.
Qed.

(** There are enough parameters: the effective parameters exist. *)
Lemma params_from_total parameters : forall nodes idx,
  match parameters with
  | Some prm =>
      (idx + length (filter (fun n => Optimize n = true) nodes) <= length prm)%nat
  | None => True
  end ->
  is_Some (params_from cast parameters nodes idx).
Proof.
  induction nodes as [|n nodes IH]; intros idx Hen; simpl; [eauto|].
  destruct parameters as [prm|].
  - rewrite filter_cons in Hen. destruct (Optimize n) eqn:Ho.
    + rewrite decide_True in Hen by reflexivity. simpl in Hen.
      destruct (lookup_lt_is_Some_2 prm idx) as [p Hp]; [lia|].
      rewrite Hp. simpl.
      destruct (IH (S idx)) as [ps Hps]; [lia|]. rewrite Hps. simpl. eauto.
    + rewrite decide_False in Hen by discriminate.
      destruct (IH idx) as [ps Hps]; [lia|]. rewrite Hps. simpl. eauto.
  - destruct (IH idx I) as [ps Hps]. rewrite Hps. simpl. eauto.
Qed.

Lemma metas_of_lookup ftable : forall nodes ps vs i n mt,
  zip nodes (metas_of ftable nodes ps vs) !! i = Some (n, mt) ->
  exists p v, nodes !! i = Some n /\ ps !! i = Some p /\ vs !! i = Some v /\
              mt = mkMeta p v (ftable (HashValue n)).
Proof.
  induction nodes as [|n0 nodes IH]; intros ps vs i n mt; [discriminate|].
  destruct ps as [|p0 ps]; [discriminate|].
  destruct vs as [|v0 vs]; [discriminate|].
  destruct i as [|i]; simpl.
  - intros [= <- <-]. exists p0, v0. auto.
  - intros E. apply IH in E. exact E.
Qed.

Lemma metas_of_length ftable : forall nodes ps vs,
  length ps = length nodes -> length vs = length nodes ->
  length (metas_of ftable nodes ps vs) = length nodes.
Proof.
  induction nodes as [|n nodes IH]; intros [|p ps] [|v vs] Hp Hv;
    simpl in *; try lia.
  f_equal. apply IH; lia.
Qed.

(** *** The preloaded buffer *)

Lemma preload_length : forall nodes ps i m,
  length (preload BatchSize nodes ps i m) = length m.
Proof.
  induction nodes as [|n nodes IH]; intros [|p ps] i m; simpl; try reflexivity.
  rewrite IH. destruct (IsConstant n); [apply length_insert|reflexivity].
Qed.

Lemma preload_below : forall nodes ps i m q,
  (q < i)%nat -> preload BatchSize nodes ps i m !! q = m !! q.
Proof.
  induction nodes as [|n nodes IH]; intros [|p ps] i m q Hq; simpl; try reflexivity.
  rewrite IH by lia.
  destruct (IsConstant n); [|reflexivity].
  apply list_lookup_insert_ne. lia.
Qed.

Lemma preload_constant : forall nodes ps i m j n p,
  nodes !! j = Some n -> ps !! j = Some p -> IsConstant n = true ->
  (i + j < length m)%nat ->
  preload BatchSize nodes ps i m !! (i + j)%nat = Some (replicate BatchSize p).
Proof.
  induction nodes as [|n0 nodes IH]; intros ps i m j n p Hn Hp Hc Hlt;
    [discriminate|].
  destruct ps as [|p0 ps]; [discriminate|].
  destruct j as [|j]; simpl in Hn, Hp.
  - injection Hn as ->. injection Hp as ->. simpl. rewrite Hc.
    rewrite Nat.add_0_r. rewrite preload_below by lia.
    apply list_lookup_insert_eq. lia.
  - simpl. replace (i + S j)%nat with (S i + j)%nat by lia.
    apply (IH ps (S i) _ j n p Hn Hp Hc).
    destruct (IsConstant n0); [rewrite length_insert|]; lia.
Qed.

Lemma preload_widths : forall nodes ps i m,
  Forall (fun c => length c = BatchSize) m ->
  Forall (fun c => length c = BatchSize) (preload BatchSize nodes ps i m).
Proof.
  induction nodes as [|n nodes IH]; intros [|p ps] i m Hm; simpl; try exact Hm.
  apply IH. destruct (IsConstant n); [|exact Hm].
  apply Forall_insert; [exact Hm|apply length_replicate].
Qed.

(** The buffer the interpreter starts its row blocks with. *)
Lemma preload_buffer_ok (uninit : nat -> nat -> T) nodes ps :
  length ps = length nodes ->
  buffer_ok BatchSize nodes ps
    (preload BatchSize nodes ps 0
       ((fun i => uninit i <$> seq 0 BatchSize) <$> seq 0 (length nodes))).
Proof.
  intros Hps. split; [|split].
  - now rewrite preload_length, length_fmap, length_seq.
  - apply preload_widths. apply Forall_fmap, Forall_forall. intros i _. simpl.
    now rewrite length_fmap, length_seq.
  - intros j n p Hn Hp Hc.
    apply (preload_constant nodes ps 0 _ j n p Hn Hp Hc).
    rewrite length_fmap, length_seq. simpl. eapply lookup_lt_Some; eauto.
Qed.

End SetupFacts.

(** ** The inner loop on a valid tree *)

Lemma take1_drop_lookup {X : Type} (c : list X) (k : nat) :
  take 1 (drop k c) = match c !! k with Some x => [x] | None => [] end.
Proof.
  revert k. induction c as [|x c IH]; intros [|k]; simpl; try reflexivity.
  apply IH.
Qed.

Lemma segment_Some {X : Type} (v : list X) off len vals :
  segment v off len = Some vals ->
  vals = take len (drop off v) /\ (off + len <= length v)%nat /\ length vals = len.
Proof.
  unfold segment. destruct (Nat.leb_spec (off + len) (length v)); [|discriminate].
  intros [= <-]. repeat split; [assumption|].
  rewrite length_take, length_drop. lia.
Qed.

Lemma segment_is_Some {X : Type} (v : list X) off len :
  (off + len <= length v)%nat -> segment v off len = Some (take len (drop off v)).
Proof.
  intros Hle. unfold segment. now destruct (Nat.leb_spec (off + len) (length v)); [|lia].
Qed.

Lemma valid_tree_parts {Scalar : Type} (nodes : list (Node Scalar)) :
  valid_tree nodes = true ->
  nodes <> [] /\ representable nodes = true /\ consistent nodes = true /\
  forallb well_kinded nodes = true.
Proof.
  unfold valid_tree. intros E.
  apply andb_true_iff in E as [E Hwk]. apply andb_true_iff in E as [E Hcons].
  apply andb_true_iff in E as [Hne Hrep].
  repeat split; try assumption.
  intros ->. discriminate.
Qed.

Section NodeLoop.

Context {Scalar T : Type} {FO : FieldOps T} {SF : ScalarFns T}.
Variable cast : Scalar -> T.
Variable nodes : list (Node Scalar).
Variable ps : list T.

Hypothesis Hrep : representable nodes = true.
Hypothesis Hcons : consistent nodes = true.
Hypothesis Hwk : forallb well_kinded nodes = true.

Implicit Types (m b : list (list T)) (vs : list (list Scalar)).

Lemma node_well_kinded i n : nodes !! i = Some n -> well_kinded n = true.
Proof.
  intros Hn. rewrite forallb_forall in Hwk. apply Hwk.
  apply list_elem_of_In. eapply list_elem_of_lookup_2; eauto.
Qed.

Lemma node_consistent i n :
  nodes !! i = Some n -> consistent_at nodes (Z.of_nat i) = true.
Proof.
  intros Hn. apply consistent_at_of; [exact Hcons|].
  eapply lookup_lt_Some; eauto.
Qed.

(** A constant node leaves the buffer alone. *)
Lemma node_step_constant rg row rem i n p v m :
  nodes !! i = Some n -> IsVariable n = false ->
  kernel_kind (T := T) (Type_ n) = None ->
  IsConstant n = true /\
  node_step cast nodes rg row rem i n
    (mkMeta p v (default_table (HashValue n))) m = Some m.
Proof.
  intros Hn Hv Hk.
  destruct (constant_no_kernel n (node_well_kinded _ _ Hn) Hv Hk) as [Hc Hf].
  split; [exact Hc|]. unfold node_step. rewrite Hv. simpl. now rewrite Hf.
Qed.

(** An inner node overwrites its column with [kernel_fn] of the columns of
    its children, which all precede it. *)
Lemma node_step_inner rg row rem i n p v m k :
  nodes !! i = Some n -> IsVariable n = false ->
  kernel_kind (T := T) (Type_ n) = Some k ->
  length m = length nodes ->
  exists cs cols g,
    children nodes (Z.of_nat i) = Some cs /\
    Forall (fun c => 0 <= c < Z.of_nat i) cs /\
    mapM (at_ m) cs = Some cols /\
    kernel_fn k cols = Some g /\
    node_step cast nodes rg row rem i n
      (mkMeta p v (default_table (HashValue n))) m = Some (<[i := g]> m).
Proof.
  intros Hn Hv Hk Hlen.
  destruct (kernel_call nodes i n m rg k Hrep (node_consistent _ _ Hn) Hn
              (node_well_kinded _ _ Hn) Hv Hlen Hk)
    as (f & cs & cols & g & Hf & Hcs & Hrange & Hcols & Hg & Hcall).
  exists cs, cols, g. repeat split; try assumption.
  unfold node_step. rewrite Hv. simpl. rewrite Hf. exact Hcall.
Qed.

Lemma constant_not_inner (n : Node Scalar) k :
  IsConstant n = true -> kernel_kind (T := T) (Type_ n) = Some k -> False.
Proof. intros Hc. apply IsConstant_Type in Hc. rewrite Hc. discriminate. Qed.

Lemma constant_not_variable (n : Node Scalar) :
  IsConstant n = true -> IsVariable n = true -> False.
Proof.
  intros Hc Hv. apply IsConstant_Type in Hc. apply IsVariable_Type in Hv.
  congruence.
Qed.

Lemma mapM_at_widths m cs cols L :
  Forall (fun c => length c = L) m -> mapM (at_ m) cs = Some cols ->
  Forall (fun c => length c = L) cols.
Proof.
  intros Hm Hcols. apply mapM_Some in Hcols.
  induction Hcols as [|c col cs cols Hc _ IH]; constructor; [|exact IH].
  apply at_Some in Hc as [_ Hc]. rewrite Forall_forall in Hm. apply Hm.
  eapply list_elem_of_lookup_2; eauto.
Qed.

(** One node keeps the buffer well-formed. *)
Lemma node_step_ok W vs rg row rem i n mt m :
  buffer_ok W nodes ps m ->
  zip nodes (metas_of default_table nodes ps vs) !! i = Some (n, mt) ->
  (rem <= W)%nat ->
  (IsVariable n = true -> row + rem <= length (meta_values mt))%nat ->
  exists m', node_step cast nodes rg row rem i n mt m = Some m' /\
             buffer_ok W nodes ps m'.
Proof.
  intros (Hlen & Hw & Hconst) Hi Hrem Hview.
  apply metas_of_lookup in Hi as (p & v & Hn & Hp & Hv & ->).
  assert (Hi : (i < length m)%nat) by (rewrite Hlen; eapply lookup_lt_Some; eauto).
  destruct (IsVariable n) eqn:Hvar.
  - destruct (lookup_lt_is_Some_2 m i Hi) as [c Hc].
    unfold node_step. rewrite Hvar, Hc. simpl.
    rewrite segment_is_Some by (apply Hview; reflexivity). simpl.
    eexists. split; [reflexivity|]. split; [|split].
    + now rewrite length_insert.
    + apply Forall_insert; [exact Hw|].
      rewrite length_app, length_fmap, length_take, length_drop, length_drop.
      rewrite Forall_forall in Hw.
      rewrite (Hw c) by (eapply list_elem_of_lookup_2; eauto).
      specialize (Hview eq_refl). simpl in Hview. lia.
    + intros j n' p' Hn' Hp' Hc'.
      destruct (decide (j = i)) as [->|Hne].
      * rewrite Hn in Hn'. injection Hn' as <-.
        exfalso. eapply constant_not_variable; eauto.
      * rewrite list_lookup_insert_ne by congruence. eauto.
  - destruct (kernel_kind (T := T) (Type_ n)) as [k|] eqn:Hk.
    + destruct (node_step_inner rg row rem i n p v m k Hn Hvar Hk Hlen)
        as (cs & cols & g & Hcs & Hrange & Hcols & Hg & Hstep).
      exists (<[i := g]> m). split; [exact Hstep|]. split; [|split].
      * now rewrite length_insert.
      * apply Forall_insert; [exact Hw|].
        eapply kernel_fn_length; [|exact Hg].
        eapply mapM_at_widths; eauto.
      * intros j n' p' Hn' Hp' Hc'.
        destruct (decide (j = i)) as [->|Hne].
        -- rewrite Hn in Hn'. injection Hn' as <-.
           exfalso. eapply constant_not_inner; eauto.
        -- rewrite list_lookup_insert_ne by congruence. eauto.
    + destruct (node_step_constant rg row rem i n p v m Hn Hvar Hk) as [_ Hstep].
      exists m. split; [exact Hstep|]. repeat split; assumption.
Qed.

(** The inner loop from node [i] on succeeds and keeps the buffer
    well-formed. *)
Lemma node_loop_ok W vs rg row rem :
  (rem <= W)%nat ->
  (forall j n v, nodes !! j = Some n -> vs !! j = Some v ->
     IsVariable n = true -> (row + rem <= length v)%nat) ->
  forall todo i m,
    todo = drop i (zip nodes (metas_of default_table nodes ps vs)) ->
    buffer_ok W nodes ps m ->
    exists m', node_loop cast nodes rg row rem todo i m = Some m' /\
               buffer_ok W nodes ps m'.
Proof.
  intros Hrem Hviews todo.
  induction todo as [|[n mt] todo IH]; intros i m Htodo Hok.
  - exists m. split; [reflexivity|exact Hok].
  - assert (Hi : zip nodes (metas_of default_table nodes ps vs) !! i = Some (n, mt)).
    { rewrite <- (Nat.add_0_r i), <- lookup_drop, <- Htodo. reflexivity. }
    destruct (node_step_ok W vs rg row rem i n mt m Hok Hi Hrem) as (m1 & Hstep & Hok1).
    { intros Hvar. apply metas_of_lookup in Hi as (p & v & Hn & Hp & Hv & ->).
      simpl. eauto. }
    destruct (IH (S i) m1) as (m' & Hloop & Hok').
    { rewrite (drop_S _ _ _ Hi) in Htodo. now injection Htodo as ->. }
    { exact Hok1. }
    exists m'. split; [|exact Hok'].
    simpl. rewrite Hstep. simpl. exact Hloop.
Qed.

End NodeLoop.

(** ** A block of rows against its single rows *)

Section Simulation.

Context {Scalar T : Type} {FO : FieldOps T} {SF : ScalarFns T}.
Variable cast : Scalar -> T.
Variable nodes : list (Node Scalar).
Variable ps : list T.

Hypothesis Hrep : representable nodes = true.
Hypothesis Hcons : consistent nodes = true.
Hypothesis Hwk : forallb well_kinded nodes = true.

Implicit Types (m b : list (list T)) (vs : list (list Scalar)).

Lemma mapM_rows_agree k i m b (cs : list Z) (cols cols' : list (list T)) :
  rows_agree k i m b ->
  Forall (fun c => 0 <= c < Z.of_nat i) cs ->
  mapM (at_ m) cs = Some cols -> mapM (at_ b) cs = Some cols' ->
  cols' = (fun c => take 1 (drop k c)) <$> cols.
Proof.
  intros Hrel Hcs Hcols. revert cols'.
  apply mapM_Some in Hcols.
  induction Hcols as [|c col cs cols Hc _ IH]; intros cols' Hcols'.
  - apply mapM_nil_Some in Hcols'. now subst.
  - apply mapM_cons_Some in Hcols' as (col' & cols1 & Hc' & Hcols' & ->).
    inversion Hcs as [|? ? Hrange Hcs']; subst.
    rewrite fmap_cons. f_equal.
    + specialize (Hrel (Z.to_nat c) ltac:(lia)).
      apply at_Some in Hc as [_ Hc]. apply at_Some in Hc' as [_ Hc'].
      rewrite Hc, Hc' in Hrel. simpl in Hrel. now injection Hrel as <-.
    + apply IH; assumption.
Qed.

(** One node keeps row [k] of the block in step with the single row. *)
Lemma node_step_sim W vs vs1 rg rg1 row rem k i n mt mt1 m b m' b' :
  buffer_ok W nodes ps m -> buffer_ok 1 nodes ps b ->
  rows_agree k i m b ->
  zip nodes (metas_of default_table nodes ps vs) !! i = Some (n, mt) ->
  zip nodes (metas_of default_table nodes ps vs1) !! i = Some (n, mt1) ->
  (k < rem)%nat -> (rem <= W)%nat ->
  (IsVariable n = true ->
     exists x, meta_values mt !! (row + k)%nat = Some x /\ meta_values mt1 = [x]) ->
  node_step cast nodes rg row rem i n mt m = Some m' ->
  node_step cast nodes rg1 0 1 i n mt1 b = Some b' ->
  rows_agree k (S i) m' b'.
Proof.
  intros (Hlen & Hw & Hconst) (Hlen1 & Hw1 & Hconst1) Hrel Hi Hi1 Hk Hrem Hview
         Hstep Hstep1.
  apply metas_of_lookup in Hi as (p & v & Hn & Hp & Hv & ->).
  apply metas_of_lookup in Hi1 as (p1 & v1 & _ & Hp1 & Hv1 & ->).
  rewrite Hp in Hp1. injection Hp1 as <-.
  assert (Him : (i < length m)%nat) by (rewrite Hlen; eapply lookup_lt_Some; eauto).
  assert (Hib : (i < length b)%nat) by (rewrite Hlen1; eapply lookup_lt_Some; eauto).
  assert (Hother : forall g g' j, (j < S i)%nat -> j <> i ->
            (fun c => take 1 (drop k c)) <$> <[i := g]> m !! j = <[i := g']> b !! j).
  { intros g g' j Hj Hne. rewrite !list_lookup_insert_ne by congruence.
    apply Hrel. lia. }
  destruct (IsVariable n) eqn:Hvar.
  - unfold node_step in Hstep, Hstep1. rewrite Hvar in Hstep, Hstep1.
    destruct (m !! i) as [c|] eqn:Hc; [|discriminate]. simpl in Hstep.
    destruct (b !! i) as [c1|] eqn:Hc1; [|discriminate]. simpl in Hstep1.
    destruct (segment v row rem) as [vals|] eqn:Hvals; [|discriminate].
    destruct (segment v1 0 1) as [vals1|] eqn:Hvals1; [|discriminate].
    simpl in Hstep, Hstep1. injection Hstep as <-. injection Hstep1 as <-.
    destruct (Hview eq_refl) as (x & Hx & Hx1). simpl in Hx, Hx1. subst v1.
    apply segment_Some in Hvals as (-> & Hle & Hvl).
    apply segment_Some in Hvals1 as (-> & _ & _).
    intros j Hj. destruct (decide (j = i)) as [->|Hne]; [|now apply Hother].
    rewrite !list_lookup_insert_eq by assumption. simpl. f_equal.
    rewrite take1_drop_lookup.
    rewrite lookup_app_l by (rewrite length_fmap; lia).
    rewrite list_lookup_fmap, lookup_take_lt, lookup_drop, Hx by lia. simpl.
    rewrite Forall_forall in Hw1.
    rewrite (drop_ge c1); [reflexivity|].
    rewrite (Hw1 c1); [lia|]. eapply list_elem_of_lookup_2; eauto.
  - destruct (kernel_kind (T := T) (Type_ n)) as [k0|] eqn:Hk0.
    + destruct (node_step_inner cast nodes Hrep Hcons Hwk rg row rem i n p v m k0
                  Hn Hvar Hk0 Hlen)
        as (cs & cols & g & Hcs & Hrange & Hcols & Hg & Hs).
      destruct (node_step_inner cast nodes Hrep Hcons Hwk rg1 0%nat 1%nat i n p v1 b k0
                  Hn Hvar Hk0 Hlen1)
        as (cs' & cols' & g' & Hcs' & _ & Hcols' & Hg' & Hs').
      rewrite Hs in Hstep. injection Hstep as <-.
      rewrite Hs' in Hstep1. injection Hstep1 as <-.
      rewrite Hcs in Hcs'. injection Hcs' as <-.
      rewrite (mapM_rows_agree k i m b cs cols cols' Hrel Hrange Hcols Hcols') in Hg'.
      rewrite kernel_fn_rows, Hg in Hg'. simpl in Hg'. injection Hg' as <-.
      intros j Hj. destruct (decide (j = i)) as [->|Hne]; [|now apply Hother].
      now rewrite !list_lookup_insert_eq by assumption.
    + destruct (node_step_constant cast nodes Hwk rg row rem i n p v m Hn Hvar Hk0)
        as [Hc Hs].
      destruct (node_step_constant cast nodes Hwk rg1 0%nat 1%nat i n p v1 b Hn Hvar Hk0)
        as [_ Hs'].
      rewrite Hs in Hstep. injection Hstep as <-.
      rewrite Hs' in Hstep1. injection Hstep1 as <-.
      intros j Hj. destruct (decide (j = i)) as [->|Hne]; [|apply Hrel; lia].
      rewrite (Hconst _ _ _ Hn Hp Hc), (Hconst1 _ _ _ Hn Hp Hc). simpl. f_equal.
      rewrite take1_drop_lookup, lookup_replicate_2 by lia. reflexivity.
Qed.

(** The inner loop keeps row [k] of the block in step with the single
    row. *)
Lemma node_loop_sim W vs vs1 rg rg1 row rem k :
  (k < rem)%nat -> (rem <= W)%nat ->
  length ps = length nodes -> length vs = length nodes ->
  length vs1 = length nodes ->
  (forall j n v v1, nodes !! j = Some n -> vs !! j = Some v -> vs1 !! j = Some v1 ->
     IsVariable n = true ->
     (row + rem <= length v)%nat /\
     exists x, v !! (row + k)%nat = Some x /\ v1 = [x]) ->
  forall todo todo1 i m b m' b',
    todo = drop i (zip nodes (metas_of default_table nodes ps vs)) ->
    todo1 = drop i (zip nodes (metas_of default_table nodes ps vs1)) ->
    buffer_ok W nodes ps m -> buffer_ok 1 nodes ps b ->
    rows_agree k i m b ->
    node_loop cast nodes rg row rem todo i m = Some m' ->
    node_loop cast nodes rg1 0 1 todo1 i b = Some b' ->
    rows_agree k (length nodes) m' b'.
Proof.
  intros Hk Hrem Hps Hvs Hvs1 Hviews todo.
  induction todo as [|[n mt] todo IH];
    intros todo1 i m b m' b' Htodo Htodo1 Hok Hok1 Hrel Hloop Hloop1.
  - assert (Hi : (length nodes <= i)%nat).
    { apply (f_equal length) in Htodo. simpl in Htodo.
      rewrite length_drop, length_zip, metas_of_length in Htodo by assumption. lia. }
    rewrite drop_ge in Htodo1
      by (rewrite length_zip, metas_of_length by assumption; lia).
    subst todo1. simpl in Hloop, Hloop1.
    injection Hloop as <-. injection Hloop1 as <-.
    intros j Hj. apply Hrel. lia.
  - assert (Hi : zip nodes (metas_of default_table nodes ps vs) !! i = Some (n, mt)).
    { rewrite <- (Nat.add_0_r i), <- lookup_drop, <- Htodo. reflexivity. }
    pose proof Hi as Hi'.
    apply metas_of_lookup in Hi' as (p & v & Hn & Hp & Hv & ->).
    destruct (lookup_lt_is_Some_2 vs1 i) as [v1 Hv1].
    { rewrite Hvs1. eapply lookup_lt_Some; eauto. }
    assert (Hi1 : zip nodes (metas_of default_table nodes ps vs1) !! i
                  = Some (n, mkMeta p v1 (default_table (HashValue n)))).
    { clear - Hn Hp Hv1. revert ps vs1 i Hn Hp Hv1.
      induction nodes as [|n0 l IHl]; intros [|p0 ps'] [|w0 vs'] [|i] Hn Hp Hv1;
        simpl in *; try discriminate.
      - now injection Hn as ->; injection Hp as ->; injection Hv1 as ->.
      - now apply IHl. }
    rewrite (drop_S _ _ _ Hi) in Htodo. injection Htodo as ->.
    rewrite (drop_S _ _ _ Hi1) in Htodo1. subst todo1.
    simpl in Hloop, Hloop1.
    destruct (node_step cast nodes rg row rem i n _ m) as [m1|] eqn:Hs; [|discriminate].
    destruct (node_step cast nodes rg1 0 1 i n _ b) as [b1|] eqn:Hs1; [|discriminate].
    simpl in Hloop, Hloop1.
    assert (Hview : IsVariable n = true ->
              (row + rem <= length v)%nat /\
              exists x, v !! (row + k)%nat = Some x /\ v1 = [x]).
    { intros Hvar. eapply Hviews; eauto. }
    destruct (node_step_ok cast nodes ps Hrep Hcons Hwk W vs rg row rem i n _ m
                Hok Hi Hrem) as (m1' & Hs' & Hok').
    { intros Hvar. simpl. now destruct (Hview Hvar). }
    destruct (node_step_ok cast nodes ps Hrep Hcons Hwk 1 vs1 rg1 0 1 i n _ b
                Hok1 Hi1 (Nat.le_refl 1)) as (b1' & Hs1' & Hok1').
    { intros Hvar. simpl. destruct (Hview Hvar) as (_ & x & _ & ->). simpl. lia. }
    rewrite Hs in Hs'. injection Hs' as <-.
    rewrite Hs1 in Hs1'. injection Hs1' as <-.
    apply (IH _ (S i) m1 b1 m' b' eq_refl eq_refl Hok' Hok1');
      [|exact Hloop|exact Hloop1].
    apply (node_step_sim W vs vs1 rg rg1 row rem k i n _ _ m b m1 b1
             Hok Hok1 Hrel Hi Hi1 Hk Hrem); [|exact Hs|exact Hs1].
    intros Hvar. simpl. destruct (Hview Hvar) as (_ & x & Hx & ->). eauto.
Qed.

End Simulation.

(** ** The row-block loop *)

Section Views.

Context {Scalar : Type}.
Implicit Types (nodes : list (Node Scalar)) (dataset : Dataset (Scalar := Scalar)).

Lemma valid_data_parts nodes dataset range :
  valid_data nodes dataset range = true ->
  (Start range <= End range)%nat /\ Z.of_nat (Size range) < 2 ^ 31 /\
  forall j n, nodes !! j = Some n -> IsVariable n = true ->
    exists column, dataset (HashValue n) = Some column /\
                   (End range <= length column)%nat.
Proof.
  unfold valid_data. intros E.
  apply andb_true_iff in E as [E Hall]. apply andb_true_iff in E as [Hse Hsz].
  apply Nat.leb_le in Hse. apply Z.ltb_lt in Hsz.
  repeat split; try assumption.
  intros j n Hn Hvar. rewrite forallb_forall in Hall.
  specialize (Hall n). rewrite Hvar in Hall.
  destruct (dataset (HashValue n)) as [column|].
  - exists column. split; [reflexivity|]. apply Nat.leb_le, Hall.
    apply list_elem_of_In. eapply list_elem_of_lookup_2; eauto.
  - discriminate Hall. apply list_elem_of_In. eapply list_elem_of_lookup_2; eauto.
Qed.

(** A valid range stays valid when it shrinks. *)
Lemma valid_data_sub nodes dataset range a b :
  valid_data nodes dataset range = true ->
  (Start range <= a)%nat -> (a <= b)%nat -> (b <= End range)%nat ->
  valid_data nodes dataset (mkRange a b) = true.
Proof.
  intros Hv Ha Hab Hb.
  destruct (valid_data_parts _ _ _ Hv) as (Hse & Hsz & _).
  unfold valid_data in *.
  apply andb_true_iff in Hv as [_ Hall].
  apply andb_true_iff. split.
  - apply andb_true_iff. split; [now apply Nat.leb_le|].
    apply Z.ltb_lt. unfold Size in *. simpl. lia.
  - rewrite forallb_forall in *. intros n Hn. specialize (Hall n Hn).
    destruct (IsVariable n); [|reflexivity].
    destruct (dataset (HashValue n)) as [column|]; [|discriminate].
    apply Nat.leb_le in Hall. apply Nat.leb_le. simpl. lia.
Qed.

(** On valid data every node has its view, and a variable's view is the
    rows of the range in its column. *)
Lemma views_total nodes dataset range :
  valid_data nodes dataset range = true ->
  exists vs, mapM (view_of dataset range) nodes = Some vs /\
    length vs = length nodes /\
    forall j n v, nodes !! j = Some n -> vs !! j = Some v ->
      IsVariable n = true ->
      exists column, dataset (HashValue n) = Some column /\
        (End range <= length column)%nat /\
        v = take (Size range) (drop (Start range) column).
Proof.
  intros Hv. destruct (valid_data_parts _ _ _ Hv) as (Hse & _ & Hcols).
  assert (Hall : Forall (fun n => is_Some (view_of dataset range n)) nodes).
  { apply Forall_forall. intros n Hn.
    apply list_elem_of_lookup in Hn as [j Hj].
    unfold view_of. destruct (IsVariable n) eqn:Hvar; [|eauto].
    destruct (Hcols _ _ Hj Hvar) as (column & -> & Hle). simpl.
    rewrite segment_is_Some by (unfold Size; lia). eauto. }
  destruct (mapM_is_Some_2 (view_of dataset range) nodes Hall) as [vs Hvs].
  exists vs. split; [exact Hvs|].
  apply mapM_Some in Hvs. split; [symmetry; eapply Forall2_length; eauto|].
  intros j n v Hn Hvj Hvar.
  pose proof (Forall2_lookup_lr _ _ _ _ _ _ Hvs Hn Hvj) as Hview.
  destruct (Hcols _ _ Hn Hvar) as (column & Hc & Hle).
  exists column. split; [exact Hc|]. split; [exact Hle|].
  unfold view_of in Hview. rewrite Hvar, Hc in Hview. simpl in Hview.
  apply segment_Some in Hview as [-> _]. reflexivity.
Qed.

(** Row [off] of the view of a range is the view of the single row
    [Start + off]. *)
Lemma views_row dataset range (n : Node Scalar) v v1 off :
  valid_data [n] dataset range = true -> IsVariable n = true ->
  view_of dataset range n = Some v ->
  view_of dataset (mkRange (Start range + off) (S (Start range + off))) n = Some v1 ->
  (off < Size range)%nat ->
  length v = Size range /\ exists x, v !! off = Some x /\ v1 = [x].
Proof.
  intros Hv Hvar Hview Hview1 Hoff.
  destruct (valid_data_parts _ _ _ Hv) as (Hse & _ & Hcols).
  destruct (Hcols 0%nat n eq_refl Hvar) as (column & Hc & Hle).
  unfold view_of in Hview, Hview1. rewrite Hvar, Hc in Hview, Hview1.
  simpl in Hview, Hview1.
  apply segment_Some in Hview as (-> & _ & Hlen).
  apply segment_Some in Hview1 as (-> & _ & _).
  split; [exact Hlen|].
  unfold Size in *. simpl.
  replace (S (Start range + off) - (Start range + off))%nat with 1%nat by lia.
  destruct (lookup_lt_is_Some_2 column (Start range + off)) as [x Hx]; [lia|].
  exists x. split.
  - now rewrite lookup_take_lt, lookup_drop by lia.
  - now rewrite take1_drop_lookup, Hx.
Qed.

End Views.

Section Rows.

Context {Scalar T : Type} {FO : FieldOps T} {SF : ScalarFns T}.
Variable cast : Scalar -> T.
Variable uninit : nat -> nat -> T.
Variable nodes : list (Node Scalar).
Variable dataset : Dataset (Scalar := Scalar).
Variable parameters : option (list T).
Variable ps : list T.

Hypothesis Hvalid : valid_tree nodes = true.
Hypothesis Hps : params_from cast parameters nodes 0 = Some ps.

Lemma Evaluate_span_unfold W ftable range result :
  Evaluate_span cast W uninit ftable nodes dataset range result parameters =
  if 2 ^ 31 <=? Z.of_nat (Size range) then None
  else
    '(meta, m') ← setup cast W ftable dataset range parameters nodes 0 0
                    ((fun i => uninit i <$> seq 0 W) <$> seq 0 (length nodes));
    row_loop cast W (Size range) nodes meta range (Size range) 0 m' result.
Proof.
  destruct (valid_tree_parts _ Hvalid) as (Hne & _).
  unfold Evaluate_span. destruct nodes; [congruence|reflexivity].
Qed.

Lemma row_loop_unfold W fuel meta range numRows row (m : list (list T)) res :
  row_loop cast W (S fuel) nodes meta range numRows row m res =
  if (numRows <=? row)%nat then Some res
  else
    m' ← node_loop cast nodes
           (mkRange (Start range + row)
                    (Start range + row + Nat.min W (numRows - row)))
           row (Nat.min W (numRows - row)) (zip nodes meta) 0 m;
    back ← last m';
    res' ← segment_assign res row (Nat.min W (numRows - row)) back;
    row_loop cast W fuel nodes meta range numRows (row + W) m' res'.
Proof. reflexivity. Qed.

Lemma row_loop_done W fuel meta range numRows row (m : list (list T)) res :
  (numRows <= row)%nat ->
  row_loop cast W fuel nodes meta range numRows row m res = Some res.
Proof.
  intros Hle. destruct fuel; simpl;
    now destruct (Nat.leb_spec numRows row); [|lia].
Qed.

Lemma last_buffer_ok W (m : list (list T)) :
  buffer_ok W nodes ps m -> exists back, last m = Some back /\ length back = W /\
                                          m !! (length nodes - 1)%nat = Some back.
Proof.
  intros (Hlen & Hw & _).
  destruct (valid_tree_parts _ Hvalid) as (Hne & _).
  assert (Hpos : (0 < length nodes)%nat) by (destruct nodes; [congruence|simpl; lia]).
  destruct (lookup_lt_is_Some_2 m (length nodes - 1)) as [back Hback]; [lia|].
  exists back. rewrite last_lookup, Hlen.
  replace (Nat.pred (length nodes)) with (length nodes - 1)%nat by lia.
  split; [exact Hback|]. split; [|exact Hback].
  rewrite Forall_forall in Hw. apply Hw. eapply list_elem_of_lookup_2; eauto.
Qed.

(** The interpreter on the single row [x]: one block of one row. *)
Lemma Evaluate_row x :
  valid_data nodes dataset (mkRange x (S x)) = true ->
  exists vs1 b' v,
    mapM (view_of dataset (mkRange x (S x))) nodes = Some vs1 /\
    length vs1 = length nodes /\
    node_loop cast nodes (mkRange (x + 0) (x + 0 + 1)) 0 1
      (zip nodes (metas_of default_table nodes ps vs1)) 0
      (preload 1 nodes ps 0 ((fun i => uninit i <$> seq 0 1) <$> seq 0 (length nodes)))
    = Some b' /\
    buffer_ok 1 nodes ps b' /\
    b' !! (length nodes - 1)%nat = Some [v] /\
    row_value cast uninit default_table nodes dataset parameters x = v.
Proof.
  intros Hdata.
  destruct (valid_tree_parts _ Hvalid) as (Hne & Hrep & Hcons & Hwk).
  destruct (views_total _ _ _ Hdata) as (vs1 & Hvs1 & Hlen1 & Hcol1).
  pose proof (params_from_length _ _ _ _ _ Hps) as Hpl.
  pose proof (preload_buffer_ok 1 uninit nodes ps Hpl) as Hok0.
  destruct (node_loop_ok cast nodes ps Hrep Hcons Hwk 1 vs1
              (mkRange (x + 0) (x + 0 + 1)) 0 1 (Nat.le_refl 1))
    with (todo := zip nodes (metas_of default_table nodes ps vs1)) (i := 0%nat)
         (m := preload 1 nodes ps 0
                 ((fun i => uninit i <$> seq 0 1) <$> seq 0 (length nodes)))
    as (b' & Hloop & Hok'); [|reflexivity|exact Hok0|].
  { intros j n v Hn Hv Hvar.
    destruct (Hcol1 _ _ _ Hn Hv Hvar) as (column & _ & Hle & ->).
    rewrite length_take, length_drop. unfold Size. simpl in *. lia. }
  destruct (last_buffer_ok 1 b' Hok') as (back & Hlast & Hbl & Hback).
  destruct back as [|v [|w back]]; simpl in Hbl; try lia.
  exists vs1, b', v.
  split; [exact Hvs1|]. split; [exact Hlen1|]. split; [exact Hloop|].
  split; [exact Hok'|]. split; [exact Hback|].
  unfold row_value. rewrite Evaluate_span_unfold.
  assert (Hsz : Size (mkRange x (S x)) = 1%nat) by (unfold Size; simpl; lia).
  rewrite Hsz. change (2 ^ 31 <=? Z.of_nat 1) with false. cbv iota.
  rewrite setup_eq, Hps. cbn [mbind option_bind]. rewrite Hvs1.
  cbn [mbind option_bind]. rewrite row_loop_unfold.
  change (1 <=? 0)%nat with false. change (Nat.min 1 (1 - 0)) with 1%nat.
  cbv iota. cbn [Start End]. rewrite Hloop. cbn [mbind option_bind].
  rewrite Hlast. cbn [mbind option_bind].
  change (segment_assign [s_zero] 0 1 [v]) with (Some [v]).
  cbn [mbind option_bind]. rewrite row_loop_done by lia. reflexivity.
Qed.

(** The row-block loop writes, block after block, the values of the rows of
    the range. *)
Lemma row_loop_rows W range vs :
  (0 < W)%nat ->
  valid_data nodes dataset range = true ->
  mapM (view_of dataset range) nodes = Some vs ->
  forall fuel row (m : list (list T)) res,
    (Size range - row <= fuel)%nat ->
    buffer_ok W nodes ps m ->
    length res = Size range ->
    take (Nat.min row (Size range)) res =
      row_value cast uninit default_table nodes dataset parameters
        <$> seq (Start range) (Nat.min row (Size range)) ->
    row_loop cast W fuel nodes (metas_of default_table nodes ps vs) range
      (Size range) row m res
    = Some (row_value cast uninit default_table nodes dataset parameters
              <$> seq (Start range) (Size range)).
Proof.
  intros HW Hdata Hvs.
  destruct (valid_tree_parts _ Hvalid) as (Hne & Hrep & Hcons & Hwk).
  destruct (valid_data_parts _ _ _ Hdata) as (Hse & Hsz & _).
  pose proof (params_from_length _ _ _ _ _ Hps) as Hpl.
  destruct (views_total _ _ _ Hdata) as (vs' & Hvs' & Hvl & Hcol).
  rewrite Hvs in Hvs'. injection Hvs' as <-.
  set (V := row_value cast uninit default_table nodes dataset parameters).
  induction fuel as [|fuel IH]; intros row m res Hfuel Hok Hres Hpre.
  - simpl. destruct (Nat.leb_spec (Size range) row) as [Hdone|Hmore]; [|lia].
    rewrite Nat.min_r in Hpre by lia.
    rewrite <- Hres, firstn_all in Hpre. now rewrite Hpre, Hres.
  - rewrite row_loop_unfold.
    destruct (Nat.leb_spec (Size range) row) as [Hdone|Hmore].
    { rewrite Nat.min_r in Hpre by lia.
      rewrite <- Hres, firstn_all in Hpre. now rewrite Hpre, Hres. }
    set (rem := Nat.min W (Size range - row)).
    assert (Hrem : (0 < rem <= W)%nat) by (unfold rem; lia).
    assert (Hrem' : (row + rem <= Size range)%nat) by (unfold rem; lia).
    assert (Hviews : forall j n v, nodes !! j = Some n -> vs !! j = Some v ->
              IsVariable n = true -> (row + rem <= length v)%nat).
    { intros j n v Hn Hv Hvar.
      destruct (Hcol _ _ _ Hn Hv Hvar) as (column & _ & Hle & ->).
      rewrite length_take, length_drop. unfold Size in *. lia. }
    destruct (node_loop_ok cast nodes ps Hrep Hcons Hwk W vs
                (mkRange (Start range + row) (Start range + row + rem)) row rem
                (proj2 Hrem) Hviews
                (zip nodes (metas_of default_table nodes ps vs)) 0%nat m eq_refl Hok)
      as (m' & Hloop & Hok').
    rewrite Hloop. cbn [mbind option_bind].
    destruct (last_buffer_ok W m' Hok') as (back & Hlast & Hbl & Hback).
    rewrite Hlast. cbn [mbind option_bind].
    assert (Hrows : forall k, (k < rem)%nat ->
              back !! k = Some (V (Start range + row + k)%nat)).
    { intros k Hk.
      assert (Hdata1 : valid_data nodes dataset
                (mkRange (Start range + row + k) (S (Start range + row + k))) = true).
      { apply (valid_data_sub _ _ range); [exact Hdata|lia|lia|].
        unfold Size in *. simpl. lia. }
      destruct (Evaluate_row _ Hdata1) as (vs1 & b' & v & Hvs1 & Hvl1 & Hloop1 & Hok1 & Hb' & HV).
      fold V in HV.
      assert (Hagree : rows_agree k (length nodes) m' b').
      { apply (node_loop_sim cast nodes ps Hrep Hcons Hwk W vs vs1
                 (mkRange (Start range + row) (Start range + row + rem))
                 (mkRange (Start range + row + k + 0) (Start range + row + k + 0 + 1))
                 row rem k Hk (proj2 Hrem) Hpl Hvl Hvl1)
          with (todo := zip nodes (metas_of default_table nodes ps vs))
               (todo1 := zip nodes (metas_of default_table nodes ps vs1))
               (i := 0%nat) (m := m)
               (b := preload 1 nodes ps 0
                       ((fun i => uninit i <$> seq 0 1) <$> seq 0 (length nodes)));
          try reflexivity; try assumption.
        - intros j n v0 v1 Hn Hv0 Hv1 Hvar.
          split; [now apply (Hviews j n)|].
          apply mapM_Some in Hvs, Hvs1.
          pose proof (Forall2_lookup_lr _ _ _ _ _ _ Hvs Hn Hv0) as Hview.
          pose proof (Forall2_lookup_lr _ _ _ _ _ _ Hvs1 Hn Hv1) as Hview1.
          replace (Start range + row + k)%nat with (Start range + (row + k))%nat
            in Hview1 by lia.
          destruct (views_row dataset range n v0 v1 (row + k)) as (_ & Hx);
            try assumption; [|lia].
          unfold valid_data in *.
          apply andb_true_iff in Hdata as [Hd Hall].
          apply andb_true_iff. split; [exact Hd|].
          rewrite forallb_forall in Hall. simpl. rewrite andb_true_r.
          apply Hall, list_elem_of_In. eapply list_elem_of_lookup_2; eauto.
        - now apply preload_buffer_ok.
        - intros j Hj. lia. }
      assert (Hlt : (length nodes - 1 < length nodes)%nat).
      { destruct nodes; [congruence|simpl; lia]. }
      specialize (Hagree _ Hlt). rewrite Hback, Hb' in Hagree. simpl in Hagree.
      injection Hagree as Hagree. rewrite take1_drop_lookup in Hagree.
      destruct (back !! k); [|discriminate]. injection Hagree as ->.
      now rewrite HV. }
    assert (Hassign : segment_assign res row rem back
                      = Some (take row res ++ take rem back ++ drop (row + rem) res)).
    { unfold segment_assign.
      destruct (Nat.leb_spec (row + rem) (length res)); [|lia].
      destruct (Nat.leb_spec rem (length back)); [|lia]. reflexivity. }
    rewrite Hassign. cbn [mbind option_bind].
    apply IH.
    + lia.
    + exact Hok'.
    + rewrite !length_app, !length_take, length_drop. lia.
    + assert (Hmin : Nat.min (row + W) (Size range) = (row + rem)%nat)
        by (unfold rem; lia).
      rewrite Hmin. rewrite Nat.min_l in Hpre by lia.
      rewrite app_assoc, take_app_le by (rewrite length_app, !length_take; lia).
      rewrite take_ge by (rewrite length_app, !length_take; lia).
      rewrite seq_app, fmap_app. f_equal; [exact Hpre|].
      apply list_eq. intros k.
      destruct (Nat.lt_ge_cases k rem) as [Hk|Hk].
      * rewrite lookup_take_lt, (Hrows k Hk) by assumption.
        rewrite list_lookup_fmap, lookup_seq_lt by assumption. reflexivity.
      * rewrite lookup_take_ge by assumption.
        rewrite list_lookup_fmap, lookup_seq_ge by assumption. reflexivity.
Qed.

(** The span overload on valid inputs: every row of the range gets its
    value. *)
Lemma Evaluate_span_rows W range result :
  (0 < W)%nat ->
  valid_data nodes dataset range = true ->
  length result = Size range ->
  Evaluate_span cast W uninit default_table nodes dataset range result parameters
  = Some (row_value cast uninit default_table nodes dataset parameters
            <$> seq (Start range) (Size range)).
Proof.
  intros HW Hdata Hres.
  destruct (valid_data_parts _ _ _ Hdata) as (Hse & Hsz & _).
  destruct (views_total _ _ _ Hdata) as (vs & Hvs & Hvl & _).
  pose proof (params_from_length _ _ _ _ _ Hps) as Hpl.
  rewrite Evaluate_span_unfold.
  destruct (Z.leb_spec (2 ^ 31) (Z.of_nat (Size range))); [lia|].
  rewrite setup_eq, Hps. cbn [mbind option_bind]. rewrite Hvs.
  cbn [mbind option_bind].
  apply (row_loop_rows W range vs HW Hdata Hvs); try assumption.
  - lia.
  - now apply preload_buffer_ok.
  - reflexivity.
Qed.

End Rows.

(** ** Kernels read only the shape of the tree *)

Lemma Evaluate_span_cases {Scalar T : Type} {FO : FieldOps T} {SF : ScalarFns T}
    (cast : Scalar -> T) W uninit ftable (tree : list (Node Scalar))
    dataset range result parameters :
  Evaluate_span cast W uninit ftable tree dataset range result parameters =
  if (length tree =? 0)%nat then None
  else if 2 ^ 31 <=? Z.of_nat (Size range) then None
  else
    '(meta, m') ← setup cast W ftable dataset range parameters tree 0 0
                    ((fun i => uninit i <$> seq 0 W) <$> seq 0 (length tree));
    row_loop cast W (Size range) tree meta range (Size range) 0 m' result.
Proof. destruct tree; reflexivity. Qed.

Section ShapeOnly.

Context {Scalar T : Type} {FO : FieldOps T} {SF : ScalarFns T}.
Variables nodes nodes' : list (Node Scalar).
Hypothesis Hsame : Forall2 same_but_value nodes nodes'.

Lemma same_at i :
  match at_ nodes i, at_ nodes' i with
  | Some n, Some n' => same_but_value n n'
  | None, None => True
  | _, _ => False
  end.
Proof.
  unfold at_. destruct (0 <=? i); [|exact I].
  pose proof (proj1 (Forall2_lookup _ _ _) Hsame (Z.to_nat i)) as Hi.
  destruct Hi; [assumption|exact I].
Qed.

Lemma nextSibling_same i : nextSibling nodes' i = nextSibling nodes i.
Proof.
  unfold nextSibling. pose proof (same_at i) as Hi.
  destruct (at_ nodes i) as [n|], (at_ nodes' i) as [n'|]; try contradiction;
    [|reflexivity].
  simpl. destruct Hi as (_ & _ & _ & -> & _). reflexivity.
Qed.

Ltac next_sibling :=
  match goal with
  | |- context [nextSibling nodes' ?i] =>
      rewrite (nextSibling_same i);
      destruct (nextSibling nodes i) as [?|];
      cbn [mbind option_bind fmap option_fmap option_map]; [|reflexivity]
  end.

Lemma five_same {A : Type} {FA : FieldOps A} N p i (m : list A) :
  five N nodes' p i m = five N nodes p i m.
Proof. unfold five. repeat next_sibling. reflexivity. Qed.

Lemma dispatch_loop_same {A : Type} {FA : FieldOps A} N p :
  forall arity i continued (m : list A),
    dispatch_loop N nodes' p arity i continued m
    = dispatch_loop N nodes p arity i continued m.
Proof.
  intros arity. induction arity as [arity IH] using lt_wf_ind.
  intros i continued m.
  destruct arity as [|[|[|[|[|[|k]]]]]].
  - cbn [dispatch_loop]. rewrite five_same.
    destruct (five N nodes p i m) as [[m' j4]|]; cbn [mbind option_bind]; [|reflexivity].
    now rewrite nextSibling_same.
  - reflexivity.
  - cbn [dispatch_loop]. repeat next_sibling. reflexivity.
  - cbn [dispatch_loop]. repeat next_sibling. reflexivity.
  - cbn [dispatch_loop]. repeat next_sibling. reflexivity.
  - cbn [dispatch_loop]. now rewrite five_same.
  - change (dispatch_loop N nodes' p (S (S (S (S (S (S k)))))) i continued m)
      with ('(m', j4) ← five N nodes' p i m;
            i' ← nextSibling nodes' j4;
            dispatch_loop N nodes' p (S k) i' true m').
    change (dispatch_loop N nodes p (S (S (S (S (S (S k)))))) i continued m)
      with ('(m', j4) ← five N nodes p i m;
            i' ← nextSibling nodes j4;
            dispatch_loop N nodes p (S k) i' true m').
    rewrite five_same.
    destruct (five N nodes p i m) as [[m' j4]|]; cbn [mbind option_bind]; [|reflexivity].
    rewrite nextSibling_same.
    destruct (nextSibling nodes j4) as [i'|]; cbn [mbind option_bind]; [|reflexivity].
    apply IH. lia.
Qed.

Lemma dispatch_op_same {A : Type} {FA : FieldOps A} N (m : list A) p :
  dispatch_op N m nodes' p = dispatch_op N m nodes p.
Proof.
  unfold dispatch_op. destruct (at_ m p); cbn [mbind option_bind]; [|reflexivity].
  pose proof (same_at p) as Hp.
  destruct (at_ nodes p) as [n|], (at_ nodes' p) as [n'|]; try contradiction;
    cbn [mbind option_bind]; [|reflexivity].
  destruct Hp as (_ & _ & -> & _). apply dispatch_loop_same.
Qed.

(** Every kernel of the default table computes the same on two trees of
    the same shape. *)
Lemma default_table_same hash (f : Callable (Scalar := Scalar) (T := T)) m p rg :
  default_table hash = Some f -> f m nodes' p rg = f m nodes p rg.
Proof.
  unfold default_table.
  destruct (find _ NodeType.all) as [ty|]; [|discriminate]. simpl.
  unfold kernel_of. destruct (kernel_kind ty) as [[N|g|g]|]; [| | |discriminate];
    simpl; intros [= <-].
  - apply dispatch_op_same.
  - unfold binary_kernel. now rewrite nextSibling_same.
  - reflexivity.
Qed.

Variable cast : Scalar -> T.

Lemma same_IsVariable (n n' : Node Scalar) :
  same_but_value n n' -> IsVariable n' = IsVariable n.
Proof. intros (_ & E & _). unfold IsVariable, Is. now rewrite E. Qed.

Lemma same_IsConstant (n n' : Node Scalar) :
  same_but_value n n' -> IsConstant n' = IsConstant n.
Proof. intros (_ & E & _). unfold IsConstant, Is. now rewrite E. Qed.

Lemma node_loop_same rg row rem :
  forall (l l' : list (Node Scalar)),
    Forall2 same_but_value l l' ->
    forall (metas : list (NodeMeta (Scalar := Scalar) (T := T))) i m,
      Forall (fun mt => exists h, meta_func mt = default_table h) metas ->
      node_loop cast nodes' rg row rem (zip l' metas) i m
      = node_loop cast nodes rg row rem (zip l metas) i m.
Proof.
  intros l l' Hl. induction Hl as [|n n' l l' Hn _ IH]; intros metas i m Hm;
    [reflexivity|].
  destruct Hm as [|mt metas [h Hh] Hm]; [reflexivity|].
  cbn [zip zip_with node_loop].
  assert (Hstep : node_step cast nodes' rg row rem i n' mt m
                  = node_step cast nodes rg row rem i n mt m).
  { unfold node_step. rewrite (same_IsVariable _ _ Hn).
    destruct (IsVariable n); [reflexivity|].
    rewrite Hh. destruct (default_table h) as [f|] eqn:Hf; [|reflexivity].
    now apply (default_table_same h). }
  rewrite Hstep.
  destruct (node_step cast nodes rg row rem i n mt m) as [m1|];
    cbn [mbind option_bind]; [|reflexivity].
  now apply IH.
Qed.

Lemma metas_of_default (ftable : DTable (Scalar := Scalar) (T := T)) :
  forall (l : list (Node Scalar)) ps vs,
    Forall (fun mt => exists h, meta_func mt = ftable h) (metas_of ftable l ps vs).
Proof.
  induction l as [|n l IH]; intros [|p ps] [|v vs]; simpl; try constructor.
  - now exists (HashValue n).
  - apply IH.
Qed.

Lemma metas_of_same (ftable : DTable (Scalar := Scalar) (T := T)) :
  forall (l l' : list (Node Scalar)),
    Forall2 same_but_value l l' ->
    forall ps vs, metas_of ftable l' ps vs = metas_of ftable l ps vs.
Proof.
  intros l l' Hl. induction Hl as [|n n' l l' (E & _) _ IH];
    intros [|p ps] [|v vs]; simpl; try reflexivity.
  now rewrite E, IH.
Qed.

Lemma preload_same W :
  forall (l l' : list (Node Scalar)),
    Forall2 same_but_value l l' ->
    forall ps i (m : list (list T)), preload W l' ps i m = preload W l ps i m.
Proof.
  intros l l' Hl. induction Hl as [|n n' l l' Hn _ IH];
    intros [|p ps] i m; simpl; try reflexivity.
  now rewrite (same_IsConstant _ _ Hn), IH.
Qed.

Lemma views_same dataset range :
  forall (l l' : list (Node Scalar)),
    Forall2 same_but_value l l' ->
    mapM (view_of dataset range) l' = mapM (view_of dataset range) l.
Proof.
  intros l l' Hl. induction Hl as [|n n' l l' Hn _ IH]; [reflexivity|].
  assert (Hview : view_of dataset range n' = view_of dataset range n).
  { unfold view_of. rewrite (same_IsVariable _ _ Hn).
    destruct Hn as (-> & _). reflexivity. }
  cbn [mapM]. now rewrite IH, Hview.
Qed.

Lemma row_loop_same W metas range numRows :
  Forall (fun mt => exists h, meta_func mt = default_table h) metas ->
  forall fuel row (m : list (list T)) res,
    row_loop cast W fuel nodes' metas range numRows row m res
    = row_loop cast W fuel nodes metas range numRows row m res.
Proof.
  intros Hm fuel. induction fuel as [|fuel IH]; intros row m res; [reflexivity|].
  cbn [row_loop]. destruct (numRows <=? row)%nat; [reflexivity|].
  rewrite (node_loop_same _ _ _ nodes nodes' Hsame metas 0 m Hm).
  destruct (node_loop cast nodes _ _ _ _ _ _) as [m'|];
    cbn [mbind option_bind]; [|reflexivity].
  destruct (last m') as [back|]; cbn [mbind option_bind]; [|reflexivity].
  destruct (segment_assign res row _ back) as [res'|];
    cbn [mbind option_bind]; [|reflexivity].
  apply IH.
Qed.

(** The interpreter yields the same on two trees of the same shape with
    the same effective parameters. *)
Lemma Evaluate_span_same W uninit dataset range result parameters parameters' :
  params_from cast parameters' nodes' 0 = params_from cast parameters nodes 0 ->
  Evaluate_span cast W uninit default_table nodes' dataset range result parameters'
  = Evaluate_span cast W uninit default_table nodes dataset range result parameters.
Proof.
  intros Hps. rewrite !Evaluate_span_cases.
  pose proof (Forall2_length _ _ _ Hsame) as Hlen. rewrite <- Hlen.
  destruct (length nodes =? 0)%nat; [reflexivity|].
  destruct (2 ^ 31 <=? Z.of_nat (Size range)); [reflexivity|].
  rewrite !setup_eq, Hps.
  destruct (params_from cast parameters nodes 0) as [ps|];
    cbn [mbind option_bind]; [|reflexivity].
  rewrite (views_same dataset range _ _ Hsame).
  destruct (mapM (view_of dataset range) nodes) as [vs|];
    cbn [mbind option_bind]; [|reflexivity].
  rewrite (metas_of_same _ _ _ Hsame), (preload_same _ _ _ Hsame).
  apply row_loop_same. apply metas_of_default.
Qed.

End ShapeOnly.

(** ** Parameter substitution *)

Section Substitution.

Context {Scalar : Type}.
Implicit Types (nodes : list (Node Scalar)) (prm : list Scalar).

Lemma substitute_same : forall nodes prm,
  Forall2 same_but_value nodes (substitute nodes prm).
Proof.
  induction nodes as [|n nodes IH]; intros prm; simpl; [constructor|].
  destruct (Optimize n && IsLeaf n).
  - destruct prm as [|p prm]; constructor; auto; repeat split.
  - constructor; auto. repeat split.
Qed.

(** Without a parameter vector every node keeps its value. *)
Lemma params_from_None (cast : Scalar -> Scalar) : forall nodes idx,
  params_from cast None nodes idx = Some ((fun n => cast (Value n)) <$> nodes).
Proof.
  induction nodes as [|n nodes IH]; intros idx; simpl; [reflexivity|].
  now rewrite IH.
Qed.

(** With one, the optimize-marked nodes, all of them leaves, take theirs in
    order. *)
Lemma params_from_substitute prm : forall nodes idx,
  Forall (fun n => Optimize n = true -> IsLeaf n = true) nodes ->
  (idx + length (filter (fun n => Optimize n = true) nodes) <= length prm)%nat ->
  params_from id (Some prm) nodes idx
  = Some (Value <$> substitute nodes (drop idx prm)).
Proof.
  induction nodes as [|n nodes IH]; intros idx Hleaf Hen; [reflexivity|].
  inversion Hleaf as [|? ? Hn Hleaf']; subst.
  rewrite filter_cons in Hen. cbn [params_from substitute].
  destruct (Optimize n) eqn:Ho.
  - rewrite decide_True in Hen by reflexivity. simpl in Hen.
    rewrite (Hn eq_refl). simpl.
    destruct (lookup_lt_is_Some_2 prm idx) as [p Hp]; [lia|].
    rewrite Hp, (drop_S _ _ _ Hp). simpl.
    rewrite IH by (auto; lia). reflexivity.
  - rewrite decide_False in Hen by discriminate. simpl.
    rewrite IH by (auto; lia). reflexivity.
Qed.

End Substitution.

(** ** Tiles *)

Section Tiles.

Context {Scalar T : Type} {FO : FieldOps T} {SF : ScalarFns T}.
Variable cast : Scalar -> T.
Variable uninit : nat -> nat -> T.
Variable nodes : list (Node Scalar).
Variable dataset : Dataset (Scalar := Scalar).
Variable parameters : option (list T).
Variable ps : list T.

Hypothesis Hvalid : valid_tree nodes = true.
Hypothesis Hps : params_from cast parameters nodes 0 = Some ps.

(** The tiles of the batched overload fill the result from left to
    right. *)
Lemma tiles_rows W range batchSize :
  (0 < W)%nat -> (0 < batchSize)%nat ->
  valid_data nodes dataset range = true ->
  forall cnt i0 view,
    (forall idx, (i0 <= idx < i0 + cnt)%nat -> (idx * batchSize < Size range)%nat) ->
    (Size range <= (i0 + cnt) * batchSize)%nat ->
    length view = Size range ->
    take (Nat.min (i0 * batchSize) (Size range)) view =
      row_value cast uninit default_table nodes dataset parameters
        <$> seq (Start range) (Nat.min (i0 * batchSize) (Size range)) ->
    tiles cast W uninit default_table nodes dataset range batchSize parameters
      (seq i0 cnt) view
    = Some (row_value cast uninit default_table nodes dataset parameters
              <$> seq (Start range) (Size range)).
Proof.
  intros HW Hbs Hdata.
  destruct (valid_data_parts _ _ _ Hdata) as (Hse & Hsz & _).
  set (V := row_value cast uninit default_table nodes dataset parameters).
  induction cnt as [|cnt IH]; intros i0 view Htiles Hcover Hview Hpre.
  - simpl. rewrite Nat.min_r in Hpre by lia.
    rewrite <- Hview, firstn_all in Hpre. now rewrite Hpre, Hview.
  - cbn [seq tiles].
    assert (Hi0 : (i0 * batchSize < Size range)%nat) by (apply Htiles; lia).
    set (start := (Start range + i0 * batchSize)%nat).
    set (end_ := Nat.min (start + batchSize) (End range)).
    set (len := (end_ - start)%nat).
    assert (Hlen : len = Nat.min batchSize (Size range - i0 * batchSize))
      by (unfold len, end_, start, Size in *; lia).
    rewrite segment_is_Some by lia. cbn [mbind option_bind].
    assert (Hdata' : valid_data nodes dataset (mkRange start end_) = true).
    { apply (valid_data_sub _ _ range); [exact Hdata| | |];
        unfold end_, start, Size in *; lia. }
    rewrite (Evaluate_span_rows cast uninit nodes dataset parameters ps Hvalid Hps
               W (mkRange start end_) _ HW Hdata')
      by (rewrite length_take, length_drop; unfold Size; simpl; fold len; lia).
    cbn [mbind option_bind]. change (Size (mkRange start end_)) with len.
    cbn [Start].
    assert (Hassign : segment_assign view (i0 * batchSize) len (V <$> seq start len)
              = Some (take (i0 * batchSize) view ++ take len (V <$> seq start len)
                        ++ drop (i0 * batchSize + len) view)).
    { unfold segment_assign. rewrite length_fmap, length_seq.
      destruct (Nat.leb_spec (i0 * batchSize + len) (length view)); [|lia].
      destruct (Nat.leb_spec len len); [|lia]. reflexivity. }
    fold V. rewrite Hassign. cbn [mbind option_bind].
    apply IH.
    + intros idx Hidx. apply Htiles. lia.
    + replace (S i0 + cnt)%nat with (i0 + S cnt)%nat by lia. exact Hcover.
    + rewrite !length_app, !length_take, length_drop, length_fmap, length_seq. lia.
    + assert (Hmin : Nat.min (S i0 * batchSize) (Size range)
                     = (i0 * batchSize + len)%nat) by lia.
      rewrite Hmin. rewrite Nat.min_l in Hpre by lia.
      rewrite app_assoc, take_app_le
        by (rewrite length_app, !length_take, length_fmap, length_seq; lia).
      rewrite take_ge
        by (rewrite length_app, !length_take, length_fmap, length_seq; lia).
      rewrite seq_app, fmap_app. f_equal; [exact Hpre|].
      apply take_ge. rewrite length_fmap, length_seq. lia.
Qed.

(** The batched overload on valid inputs. *)
Lemma Evaluate_batched_rows W range batchSize :
  (0 < W)%nat -> (0 < batchSize)%nat ->
  valid_data nodes dataset range = true ->
  Evaluate_batched cast W uninit default_table nodes dataset range batchSize parameters
  = Some (row_value cast uninit default_table nodes dataset parameters
            <$> seq (Start range) (Size range)).
Proof.
  intros HW Hbs Hdata. unfold Evaluate_batched.
  destruct (Nat.eqb_spec batchSize 0) as [|_]; [lia|].
  pose proof (Nat.div_mod_eq (Size range) batchSize) as Hdm.
  pose proof (Nat.mod_upper_bound (Size range) batchSize ltac:(lia)) as Hmod.
  apply tiles_rows; try assumption.
  - intros idx Hidx. destruct (Nat.eqb_spec (Size range mod batchSize) 0); nia.
  - destruct (Nat.eqb_spec (Size range mod batchSize) 0); nia.
  - apply length_replicate.
  - reflexivity.
Qed.

End Tiles.

(** ** Block independence and parameter substitution *)

Lemma valid_parameters_enough {Scalar T : Type} (cast : Scalar -> T)
    (nodes : list (Node Scalar)) (parameters : option (list T)) :
  valid_parameters nodes parameters = true ->
  exists ps, params_from cast parameters nodes 0 = Some ps.
Proof.
  intros Hvp. apply params_from_total.
  destruct parameters as [prm|]; [|exact I].
  unfold valid_parameters in Hvp. apply Nat.leb_le in Hvp. simpl. lia.
Qed.





(** ** The comparison operators of [Node] *)

Section NodeOrder.

Context {Scalar : Type}.
Implicit Types a b c : Node Scalar.

Lemma Node_lt_spec a b :
  Node_lt a b = true <->
  HashValue a < HashValue b \/
  (HashValue a = HashValue b /\ CalculatedHashValue a < CalculatedHashValue b).
Proof.
  unfold Node_lt. destruct (Z.eqb_spec (HashValue a) (HashValue b)) as [E|E].
  - rewrite Z.ltb_lt. lia.
  - rewrite Z.ltb_lt. lia.
Qed.

Lemma Node_lt_false a b :
  Node_lt a b = false <->
  HashValue b < HashValue a \/
  (HashValue a = HashValue b /\ CalculatedHashValue b <= CalculatedHashValue a).
Proof.
  rewrite <- not_true_iff_false, Node_lt_spec. lia.
Qed.

Lemma Node_eq_spec a b :
  Node_eq a b = true <-> CalculatedHashValue a = CalculatedHashValue b.
Proof. unfold Node_eq. apply Z.eqb_eq. Qed.

End NodeOrder.

(** X1.  [operator<] on nodes is a strict total order of the pairs
    (HashValue, CalculatedHashValue): it is irreflexive, transitive and
    asymmetric, and two nodes that it does not order either way carry the
    same pair. *)
Theorem Node_lt_strict_total_order :
  forall (Scalar : Type) (a b c : Node Scalar),
    Node_lt a a = false /\
    (Node_lt a b = true -> Node_lt b c = true -> Node_lt a c = true) /\
    (Node_lt a b = true -> Node_lt b a = false) /\
    (Node_lt a b = false -> Node_lt b a = false ->
       HashValue a = HashValue b /\
       CalculatedHashValue a = CalculatedHashValue b).
Proof.
  intros Scalar a b c. split; [|split; [|split]].
  - apply Node_lt_false. lia.
  - rewrite !Node_lt_spec. lia.
  - rewrite Node_lt_spec, Node_lt_false. lia.
  - rewrite !Node_lt_false. lia.
Qed.

(** X2.  The derived operators in terms of [<] and [==]: [a > b] is
    [b < a] restricted to nodes that are not [==], [a <= b] is [a == b] or
    not [b < a], and [a >= b] is [b < a] or equal pairs.  Because [==] ignores HashValue, [a <= b] and [b < a] hold
    together exactly when the calculated hashes agree and
    [b.HashValue < a.HashValue]; then [a > b] is false although [b < a]. *)
Theorem Node_le_gt_against_lt :
  forall (Scalar : Type) (a b : Node Scalar),
    Node_gt a b = negb (Node_eq a b) && Node_lt b a /\
    Node_le a b = Node_eq a b || negb (Node_lt b a) /\
    (Node_ge a b = true <->
       Node_lt b a = true \/
       (HashValue a = HashValue b /\
        CalculatedHashValue a = CalculatedHashValue b)) /\
    (Node_le a b && Node_lt b a = true <->
       CalculatedHashValue a = CalculatedHashValue b /\
       HashValue b < HashValue a).
Proof.
  intros Scalar a b.
  assert (Hgt : Node_gt a b = negb (Node_eq a b) && Node_lt b a).
  { unfold Node_gt, Node_le. rewrite negb_orb.
    destruct (Node_eq a b) eqn:Eeq; simpl; [reflexivity|].
    apply not_true_iff_false in Eeq. rewrite Node_eq_spec in Eeq.
    destruct (Node_lt a b) eqn:E1, (Node_lt b a) eqn:E2; simpl; try reflexivity.
    - apply Node_lt_spec in E1. apply Node_lt_spec in E2. lia.
    - apply Node_lt_false in E1. apply Node_lt_false in E2. lia. }
  assert (Hle : Node_le a b = Node_eq a b || negb (Node_lt b a)).
  { unfold Node_gt in Hgt. apply (f_equal negb) in Hgt.
    rewrite negb_involutive, negb_andb, negb_involutive in Hgt. exact Hgt. }
  split; [exact Hgt|]. split; [exact Hle|]. split.
  - unfold Node_ge. rewrite negb_true_iff, Node_lt_false, Node_lt_spec. lia.
  - rewrite andb_true_iff. unfold Node_le. rewrite orb_true_iff.
    rewrite Node_eq_spec, !Node_lt_spec. lia.
Qed.

(** X3.  Nodes made by the one-argument constructor compare like their
    kinds: they are [==] exactly when the kinds are the same, and ordered by
    [<] as the enumerators are. *)
Theorem Node_init_compare_as_kinds :
  forall (Scalar : Type) (one : Scalar) (this1 this2 : Node Scalar)
         (t1 t2 : NodeType.t),
    (Node_eq (Node_init one this1 t1) (Node_init one this2 t2) = true <->
       t1 = t2) /\
    Node_lt (Node_init one this1 t1) (Node_init one this2 t2)
      = NodeType.ltb t1 t2 /\
    HashValue (Node_init one this1 t1) = 2 ^ NodeTypes.GetIndex t1.
Proof.
  intros Scalar one this1 this2 t1 t2. split; [|split].
  - unfold Node_eq, Node_init, Node_init2. cbn [CalculatedHashValue].
    apply NodeType_eqb_eq.
  - unfold Node_lt, Node_init, Node_init2, NodeType.ltb.
    cbn [CalculatedHashValue HashValue].
    destruct (Z.eqb_spec (NodeType.utype t1) (NodeType.utype t2)); reflexivity.
  - destruct t1; reflexivity.
Qed.

(** ** Kinds as bit flags *)

Lemma utype_range (k : NodeType.t) : 0 < NodeType.utype k < UTYPE_MOD.
Proof. destruct k; vm_compute; split; reflexivity. Qed.

Lemma utype_and (a b : NodeType.t) :
  NodeType_and (NodeType.utype a) (NodeType.utype b)
  = if NodeType.eqb a b then NodeType.utype a else 0.
Proof. destruct a, b; reflexivity. Qed.

Lemma utype_not_and (a b : NodeType.t) :
  NodeType_and (NodeType_not (NodeType.utype a)) (NodeType.utype b)
  = if NodeType.eqb a b then 0 else NodeType.utype b.
Proof. destruct a, b; reflexivity. Qed.

Lemma NodeType_or_fold_and (ks : list NodeType.t) (k : NodeType.t) : forall m0,
  NodeType_and (foldl NodeType_or m0 (NodeType.utype <$> ks)) (NodeType.utype k)
  = NodeType_or (NodeType_and m0 (NodeType.utype k))
      (if existsb (NodeType.eqb k) ks then NodeType.utype k else 0).
Proof.
  unfold NodeType_and, NodeType_or.
  induction ks as [|a ks IH]; intros m0; cbn [fmap list_fmap foldl existsb].
  - now rewrite Z.lor_0_r.
  - rewrite IH, Z.land_lor_distr_l.
    pose proof (utype_and a k) as Ha. unfold NodeType_and in Ha. rewrite Ha.
    rewrite <- Z.lor_assoc. f_equal.
    destruct (NodeType.eqb a k) eqn:E1.
    + apply NodeType_eqb_eq in E1. subst a.
      replace (NodeType.eqb k k) with true
        by (symmetry; now apply NodeType_eqb_eq).
      cbn [orb]. destruct (existsb (NodeType.eqb k) ks).
      * apply Z.lor_diag.
      * apply Z.lor_0_r.
    + replace (NodeType.eqb k a) with false.
      * cbn [orb]. apply Z.lor_0_l.
      * symmetry. apply not_true_iff_false. intros E2.
        apply NodeType_eqb_eq in E2. subst a.
        apply not_true_iff_false in E1. apply E1. now apply NodeType_eqb_eq.
Qed.

Lemma NodeType_or_range (m n : Z) :
  0 <= m < UTYPE_MOD -> 0 <= n < UTYPE_MOD ->
  0 <= NodeType_or m n < UTYPE_MOD.
Proof.
  unfold NodeType_or, UTYPE_MOD. intros Hm Hn.
  assert (H0 : 0 <= Z.lor m n) by (apply Z.lor_nonneg; lia).
  split; [exact H0|].
  destruct (Z.eq_dec (Z.lor m n) 0) as [->|Hne]; [reflexivity|].
  apply Z.log2_lt_pow2; [lia|].
  rewrite Z.log2_lor by lia.
  apply Z.max_lub_lt.
  - destruct (Z.eq_dec m 0) as [->|]; [reflexivity|]. apply Z.log2_lt_pow2; lia.
  - destruct (Z.eq_dec n 0) as [->|]; [reflexivity|]. apply Z.log2_lt_pow2; lia.
Qed.

Lemma NodeType_or_fold_range (ks : list NodeType.t) : forall m,
  0 <= m < UTYPE_MOD ->
  0 <= foldl NodeType_or m (NodeType.utype <$> ks) < UTYPE_MOD.
Proof.
  induction ks as [|a ks IH]; intros m Hm; cbn [fmap list_fmap foldl]; [exact Hm|].
  apply IH. apply NodeType_or_range; [exact Hm|].
  pose proof (utype_range a). lia.
Qed.

(** X4.  The enumerators are pairwise disjoint one-bit flags: a mask built
    with [|] from a list of kinds (starting from the empty mask) answers
    [mask & k] with [k] itself when [k] is in the list and with 0 when it
    is not, and it stays a 32-bit value. *)
Theorem NodeType_mask_membership :
  forall (ks : list NodeType.t) (k : NodeType.t),
    let mask := foldl NodeType_or 0 (NodeType.utype <$> ks) in
    NodeType_and mask (NodeType.utype k)
      = (if existsb (NodeType.eqb k) ks then NodeType.utype k else 0) /\
    (NodeType_and mask (NodeType.utype k) <> 0 <-> In k ks) /\
    0 <= mask < UTYPE_MOD.
Proof.
  intros ks k mask. subst mask.
  assert (Hand := NodeType_or_fold_and ks k 0).
  change (NodeType_and 0 (NodeType.utype k)) with 0 in Hand.
  change (NodeType_or 0 ?x) with x in Hand.
  split; [exact Hand|]. split.
  - rewrite Hand.
    destruct (existsb (NodeType.eqb k) ks) eqn:E.
    + apply existsb_exists in E as (a & Hin & Ea).
      apply NodeType_eqb_eq in Ea. subst a.
      pose proof (utype_range k). split; [intros _; exact Hin|lia].
    + split; [congruence|].
      intros Hin. apply not_true_iff_false in E. exfalso. apply E.
      apply existsb_exists.
      exists k. split; [exact Hin|]. now apply NodeType_eqb_eq.
  - apply NodeType_or_fold_range. vm_compute. split; [discriminate|reflexivity].
Qed.

Lemma land_pow2_flag (m : Z) (k : NodeType.t) :
  Z.land m (NodeType.utype k)
  = if Z.testbit m (NodeType.shift k) then NodeType.utype k else 0.
Proof.
  assert (Hs : 0 <= NodeType.shift k) by (destruct k; discriminate).
  unfold NodeType.utype. rewrite Z.shiftl_1_l.
  apply Z.bits_inj'. intros n Hn. rewrite Z.land_spec.
  destruct (Z.eq_dec n (NodeType.shift k)) as [->|Hne].
  - rewrite Z.pow2_bits_true by lia.
    destruct (Z.testbit m (NodeType.shift k)) eqn:E.
    + now rewrite Z.pow2_bits_true by lia.
    + now rewrite Z.bits_0.
  - rewrite Z.pow2_bits_false by lia. rewrite andb_false_r.
    destruct (Z.testbit m (NodeType.shift k)).
    + now rewrite Z.pow2_bits_false by lia.
    + now rewrite Z.bits_0.
Qed.

(** X5.  Setting, clearing and toggling the flag of a kind [k] in any mask
    [m]: [m |= k] makes the test [& k] answer [k], [m &= ~k] makes it
    answer 0, [m ^= k] flips it, and none of the three changes the answer
    for another kind [k']. *)
Theorem NodeType_flag_set_clear_toggle :
  forall (m : Z) (k k' : NodeType.t),
    let test (mask : Z) (x : NodeType.t) := NodeType_and mask (NodeType.utype x) in
    test (NodeType_or_assign m (NodeType.utype k)) k'
      = (if NodeType.eqb k k' then NodeType.utype k else test m k') /\
    test (NodeType_and_assign m (NodeType_not (NodeType.utype k))) k'
      = (if NodeType.eqb k k' then 0 else test m k') /\
    test (NodeType_xor_assign m (NodeType.utype k)) k'
      = (if NodeType.eqb k k'
         then NodeType_xor (test m k) (NodeType.utype k)
         else test m k').
Proof.
  intros m k k' test. subst test. cbv beta.
  unfold NodeType_or_assign, NodeType_and_assign, NodeType_xor_assign.
  pose proof (utype_and k k') as Hkk. pose proof (utype_not_and k k') as Hnk.
  unfold NodeType_and, NodeType_or, NodeType_xor in *.
  split; [|split].
  - rewrite Z.land_lor_distr_l, Hkk.
    destruct (NodeType.eqb k k') eqn:E.
    + apply NodeType_eqb_eq in E. subst k'. rewrite land_pow2_flag.
      destruct (Z.testbit m (NodeType.shift k)); [apply Z.lor_diag|apply Z.lor_0_l].
    + apply Z.lor_0_r.
  - rewrite <- Z.land_assoc, Hnk.
    destruct (NodeType.eqb k k'); [apply Z.land_0_r|reflexivity].
  - destruct (NodeType.eqb k k') eqn:E.
    + apply NodeType_eqb_eq in E. subst k'.
      apply Z.bits_inj'. intros n Hn.
      rewrite Z.land_spec, !Z.lxor_spec, Z.land_spec.
      destruct (Z.testbit m n), (Z.testbit (NodeType.utype k) n); reflexivity.
    + apply Z.bits_inj'. intros n Hn.
      rewrite !Z.land_spec, Z.lxor_spec.
      assert (Hz : Z.testbit (Z.land (NodeType.utype k) (NodeType.utype k')) n = false)
        by (rewrite Hkk; apply Z.bits_0).
      rewrite Z.land_spec in Hz.
      destruct (Z.testbit m n), (Z.testbit (NodeType.utype k) n),
               (Z.testbit (NodeType.utype k') n); simpl in *; congruence.
Qed.

(** ** The range of [GetIndex] *)

Lemma bitset_count_bounds (N : nat) (x : Z) :
  0 <= NodeTypes.bitset_count N x <= Z.of_nat N /\
  (NodeTypes.bitset_count N x = Z.of_nat N <->
   forall k, 0 <= k < Z.of_nat N -> Z.testbit x k = true).
Proof.
  induction N as [|N [IHb IHe]]; cbn [NodeTypes.bitset_count].
  - split; [lia|]. split; [intros _ k Hk; lia|reflexivity].
  - destruct (Z.testbit x (Z.of_nat N)) eqn:E.
    + split; [lia|]. split.
      * intros H k Hk. destruct (Z.eq_dec k (Z.of_nat N)) as [->|]; [exact E|].
        apply IHe; lia.
      * intros H. assert (NodeTypes.bitset_count N x = Z.of_nat N)
          by (apply IHe; intros k Hk; apply H; lia). lia.
    + split; [lia|]. split; [lia|].
      intros H. rewrite H in E by lia. discriminate.
Qed.

Lemma low_bits_all_set (n x : Z) :
  0 <= n ->
  (forall k, 0 <= k < n -> Z.testbit x k = true) <-> x mod 2 ^ n = 2 ^ n - 1.
Proof.
  intros Hn.
  replace (2 ^ n - 1) with (Z.ones n) by (rewrite Z.ones_equiv; lia). split.
  - intros H. apply Z.bits_inj'. intros k Hk.
    destruct (Z_lt_dec k n).
    + rewrite Z.mod_pow2_bits_low, Z.ones_spec_low by lia. apply H; lia.
    + rewrite Z.mod_pow2_bits_high, Z.ones_spec_high by lia. reflexivity.
  - intros H k Hk. rewrite <- (Z.mod_pow2_bits_low x n k) by lia.
    rewrite H. apply Z.ones_spec_low; lia.
Qed.

(** X6.  [GetIndex] on an arbitrary 32-bit value, enumerator or not: the
    result never exceeds [Count], and it is a valid index (below [Count])
    exactly when the value has one of its 31 low bits set; for the values 0
    and [1u << 31] it is [Count] itself. *)
Theorem GetIndex_in_range_iff :
  forall u : Z,
    0 <= NodeTypes.GetIndex_raw u <= Z.of_nat NodeTypes.Count /\
    (NodeTypes.GetIndex_raw u < Z.of_nat NodeTypes.Count <-> u mod 2 ^ 31 <> 0).
Proof.
  intros u. unfold NodeTypes.GetIndex_raw.
  destruct (bitset_count_bounds NodeTypes.Count ((u - 1) mod 2 ^ 32)) as [Hb He].
  split; [exact Hb|].
  assert (Hall : NodeTypes.bitset_count NodeTypes.Count ((u - 1) mod 2 ^ 32)
                 = Z.of_nat NodeTypes.Count <-> u mod 2 ^ 31 = 0).
  { rewrite He. change (Z.of_nat NodeTypes.Count) with 31.
    rewrite (low_bits_all_set 31) by lia.
    change (2 ^ 32) with (2 ^ 31 * 2). change (2 ^ 31) with 2147483648.
    split; intros H.
    - pose proof (Z.div_mod u 2147483648). pose proof (Z.mod_pos_bound u 2147483648).
      pose proof (Z.div_mod (u - 1) (2147483648 * 2)).
      pose proof (Z.mod_pos_bound (u - 1) (2147483648 * 2)).
      pose proof (Z.div_mod ((u - 1) mod (2147483648 * 2)) 2147483648).
      pose proof (Z.mod_pos_bound ((u - 1) mod (2147483648 * 2)) 2147483648).
      lia.
    - pose proof (Z.div_mod u 2147483648). pose proof (Z.mod_pos_bound u 2147483648).
      pose proof (Z.div_mod (u - 1) (2147483648 * 2)).
      pose proof (Z.mod_pos_bound (u - 1) (2147483648 * 2)).
      pose proof (Z.div_mod ((u - 1) mod (2147483648 * 2)) 2147483648).
      pose proof (Z.mod_pos_bound ((u - 1) mod (2147483648 * 2)) 2147483648).
      lia. }
  lia.
Qed.

(** ** [dispatch_op] and [dispatch_op_simple] beyond the consistent trees *)

(** Case analysis on the lookups a monadic chain performs, first to last. *)
Ltac open_binds H :=
  repeat match type of H with
  | context [mbind _ ?o] =>
      lazymatch o with
      | mbind _ _ => fail
      | Some _ => fail
      | _ => destruct o; cbn [mbind option_bind] in H; [|discriminate H]
      end
  end.

Section Dispatchers.

Context {Scalar A : Type} {FO : FieldOps A}.
Implicit Types (nodes : list (Node Scalar)) (m : list A) (cs : list Z).

(** Whatever the loop does, it only assigns to the parent column. *)
Lemma dispatch_loop_frame N nodes p : forall arity i continued m m',
  dispatch_loop N nodes p arity i continued m = Some m' ->
  exists x, m' = assign m p x.
Proof.
  intros arity. induction arity as [arity IH] using lt_wf_ind.
  intros i continued m m' H.
  destruct arity as [|[|[|[|[|[|k]]]]]].
  - simpl in H. unfold five in H.
    open_binds H. injection H as <-. eauto.
  - simpl in H. destruct (at_ m i); [|discriminate]. simpl in H.
    destruct continued.
    + destruct (at_ m p); [|discriminate]. simpl in H. injection H as <-. eauto.
    + injection H as <-. eauto.
  - simpl in H.
    open_binds H.
    injection H as <-. eauto.
  - simpl in H.
    open_binds H.
    injection H as <-. eauto.
  - simpl in H.
    open_binds H.
    injection H as <-. eauto.
  - simpl in H. unfold five in H.
    open_binds H.
    simpl in H. injection H as <-. eauto.
  - change (dispatch_loop N nodes p (S (S (S (S (S (S k)))))) i continued m)
      with ('(m', j4') ← five N nodes p i m;
            i' ← nextSibling nodes j4';
            dispatch_loop N nodes p (S k) i' true m') in H.
    destruct (five N nodes p i m) as [[m1 j4]|] eqn:E5; [|discriminate].
    cbn [mbind option_bind] in H.
    destruct (nextSibling nodes j4) as [i'|]; [|discriminate].
    cbn [mbind option_bind] in H.
    apply IH in H as [y ->]; [|lia].
    unfold five in E5.
    open_binds E5.
    injection E5 as <- <-. rewrite assign_assign. eauto.
Qed.


Lemma dispatch_op_frame N m nodes p m' :
  dispatch_op N m nodes p = Some m' ->
  0 <= p < Z.of_nat (length m) /\ exists x, m' = assign m p x.
Proof.
  unfold dispatch_op. intros H.
  destruct (at_ m p) as [r|] eqn:Hr; [|discriminate]. cbn [mbind option_bind] in H.
  destruct (at_ nodes p) as [n|]; [|discriminate]. cbn [mbind option_bind] in H.
  apply at_Some in Hr as [Hp _]. split; [exact Hp|].
  eauto using dispatch_loop_frame.
Qed.

(** The loop of [dispatch_op_simple] over the remaining siblings: the parent
    column ends as the left fold of [op(r, col, r)] over their columns. *)
Lemma simple_loop_fold N nodes p : forall count j m acc cs cols,
  siblings nodes j (S count) = Some (j :: cs) ->
  mapM (at_ m) cs = Some cols ->
  at_ m p = Some acc ->
  p ∉ cs ->
  simple_loop N nodes p count j m
  = Some (assign m p (foldl (fun r c => opn N c r []) acc cols)).
Proof.
  induction count as [|count IH]; intros j m acc cs cols Hcs Hcols Hacc Hp.
  - apply siblings_S in Hcs as (j1 & cs1 & Hj1 & Hcs & E).
    injection E as <-. simpl in Hcs. injection Hcs as <-.
    apply mapM_nil_Some in Hcols. subst cols. simpl.
    f_equal. unfold assign. symmetry. apply list_insert_id.
    now apply at_Some in Hacc as [_ ?].
  - apply siblings_S in Hcs as (j1 & cs1 & Hj1 & Hcs & E).
    injection E as <-.
    pose proof Hcs as Hcs'.
    apply siblings_S in Hcs' as (j2 & cs2 & Hj2 & _ & ->).
    apply mapM_cons_Some in Hcols as (c1 & cols1 & Hc1 & Hcols & ->).
    assert (Hp0 : 0 <= p) by (apply at_Some in Hacc; lia).
    apply not_elem_of_cons in Hp as [Hpj Hp].
    cbn [simple_loop]. rewrite Hj1. cbn [mbind option_bind].
    rewrite Hc1. cbn [mbind option_bind]. rewrite Hacc. cbn [mbind option_bind].
    rewrite (IH j1 _ (opn N c1 acc []) cs2 cols1); auto.
    + now rewrite assign_assign.
    + now rewrite mapM_at_assign.
    + now apply (at_assign_eq _ _ _ acc).
Qed.

Lemma dispatch_op_simple_factored N m nodes p n r cs c0 rest :
  at_ nodes p = Some n -> at_ m p = Some r -> Arity n <> 1%nat ->
  children nodes p = Some cs -> p ∉ cs ->
  mapM (at_ m) cs = Some (c0 :: rest) ->
  dispatch_op_simple N m nodes p
  = Some (assign m p (foldl (fun acc c => opn N c acc []) c0 rest)).
Proof.
  intros Hn Hr Har Hcs Hp Hcols.
  unfold children in Hcs. rewrite Hn in Hcs. cbn [mbind option_bind] in Hcs.
  pose proof (siblings_length _ _ _ _ Hcs) as Hlen.
  assert (Hlen' : length (c0 :: rest) = length cs).
  { apply mapM_Some in Hcols. apply Forall2_length in Hcols. lia. }
  destruct (Arity n) as [|k] eqn:Ek; [rewrite <- Hlen' in Hlen; discriminate|].
  pose proof Hcs as Hcs'.
  apply siblings_S in Hcs' as (j1 & cs1 & Hj1 & _ & ->).
  apply mapM_cons_Some in Hcols as (c0' & cols1 & Hc0 & Hcols & E).
  injection E as <- <-.
  assert (Hp0 : 0 <= p) by (apply at_Some in Hr; lia).
  apply not_elem_of_cons in Hp as [Hpj Hp].
  unfold dispatch_op_simple. rewrite Hr, Hn. cbn [mbind option_bind].
  rewrite Hc0. cbn [mbind option_bind]. rewrite Ek.
  destruct (Nat.eqb_spec (S k) 1) as [E1|_]; [congruence|].
  replace (S k - 1)%nat with k by lia.
  rewrite (simple_loop_fold N nodes p k _ _ c0 cs1 rest); auto.
  - now rewrite assign_assign.
  - now rewrite mapM_at_assign.
  - now apply (at_assign_eq _ _ _ r).
Qed.

(** The parent column is not read before the loop has continued, and
    after a further round of five the value it held is gone. *)
Lemma fold_children_tail N : forall cols continued (r r' : A),
  (2 <= length cols)%nat ->
  fold_children N continued r cols
  = fold_children N false r' (drop (5 * ((length cols - 2) / 5)) cols).
Proof.
  intros cols. induction cols as [cols IH] using (induction_ltof1 _ (@length A)).
  unfold ltof in IH. intros continued r r' Hlen.
  destruct cols as [|c0 [|c1 [|c2 [|c3 [|c4 [|c5 [|c6 rest]]]]]]];
    try (simpl in Hlen; lia); try reflexivity.
  rewrite fold_children_chunk.
  rewrite (IH (c5 :: c6 :: rest) ltac:(simpl; lia) true _ r' ltac:(simpl; lia)).
  f_equal.
  replace (length (c0 :: c1 :: c2 :: c3 :: c4 :: c5 :: c6 :: rest) - 2)%nat
    with (length (c5 :: c6 :: rest) - 2 + 1 * 5)%nat by (simpl; lia).
  rewrite Nat.div_add by lia.
  replace (5 * ((length (c5 :: c6 :: rest) - 2) / 5 + 1))%nat
    with (5 + 5 * ((length (c5 :: c6 :: rest) - 2) / 5))%nat by lia.
  reflexivity.
Qed.

Lemma fold_children_total N : forall cols continued (r : A),
  cols <> [] -> is_Some (fold_children N continued r cols).
Proof.
  intros cols. induction cols as [cols IH] using (induction_ltof1 _ (@length A)).
  unfold ltof in IH. intros continued r Hne.
  destruct cols as [|c0 [|c1 [|c2 [|c3 [|c4 [|c5 rest]]]]]];
    try (simpl; eauto; fail).
  - congruence.
  - rewrite fold_children_chunk. apply IH; [simpl; lia|discriminate].
Qed.

(** The left fold of [dispatch_op_simple] against the right fold of the
    pack, for an associative and commutative operation. *)
Lemma fold_pack_shift (f : A -> A -> A) :
  (forall x y z, f x (f y z) = f (f x y) z) ->
  forall l x y, fold_pack f (f x y) l = f x (fold_pack f y l).
Proof.
  intros Hassoc l x y. destruct l as [|z l]; simpl; [reflexivity|].
  now rewrite <- Hassoc.
Qed.

Lemma foldl_flip_fold_pack (f : A -> A -> A) :
  (forall x y, f x y = f y x) ->
  (forall x y z, f x (f y z) = f (f x y) z) ->
  forall l a, foldl (fun r c => f c r) a l = fold_pack f a l.
Proof.
  intros Hcomm Hassoc l. induction l as [|b l IH]; intros a; simpl; [reflexivity|].
  rewrite IH, (Hcomm b a). now apply fold_pack_shift.
Qed.

Lemma fold_pack_snoc (f : A -> A -> A) :
  (forall x y z, f x (f y z) = f (f x y) z) ->
  forall l a x, fold_pack f a (l ++ [x]) = f (fold_pack f a l) x.
Proof.
  intros Hassoc l. induction l as [|b l IH]; intros a x; simpl; [reflexivity|].
  now rewrite IH, Hassoc.
Qed.

End Dispatchers.

(** X7.  [dispatch_op] writes the parent column and nothing else: when it
    returns, the buffer has the same number of columns and every column
    other than [parentIndex] is unchanged, whatever the arity and whether
    or not the tree is consistent. *)
Theorem dispatch_op_writes_parent_column_only :
  forall (Scalar A : Type) (FO : FieldOps A) (N : NodeType.t)
         (m m' : list A) (nodes : list (Node Scalar)) (p : Z),
    dispatch_op N m nodes p = Some m' ->
    0 <= p < Z.of_nat (length m) /\
    length m' = length m /\
    forall q : nat, q <> Z.to_nat p -> m' !! q = m !! q.
Proof.
  intros Scalar A FO N m m' nodes p H.
  apply dispatch_op_frame in H as [Hp [x ->]].
  split; [exact Hp|]. unfold assign. split.
  - apply length_insert.
  - intros q Hq. now apply list_lookup_insert_ne.
Qed.

Lemma dispatch_op_writes_parent_column_only_witness :
  0 <= 4 < Z.of_nat (length [[10]; [1]; [2]; [3]; [77]]) /\
  length [[10]; [1]; [2]; [3]; [-10]] = length [[10]; [1]; [2]; [3]; [77]] /\
  forall q : nat, q <> Z.to_nat 4 ->
    [[10]; [1]; [2]; [3]; [-10]] !! q = [[10]; [1]; [2]; [3]; [77]] !! q.
Proof.
  apply (dispatch_op_writes_parent_column_only Z (list Z) _ NodeType.Sub
           [[10]; [1]; [2]; [3]; [77]] [[10]; [1]; [2]; [3]; [-10]] sub4_tree 4).
  reflexivity.
Defined.

(** X8.  [dispatch_op_simple] on a node with two or more children that
    precede it folds all of them, whatever their number: starting from the
    column of the child at [p - 1], each further sibling [c] turns the
    parent column [r] into [op(c, r)].  For [Sub] this is the alternating
    difference [c(n-1) - (... - (c1 - c0))], for [Div] the alternating
    quotient. *)
Theorem dispatch_op_simple_folds_every_child :
  forall (Scalar A : Type) (FO : FieldOps A) (N : NodeType.t) (m : list A)
         (nodes : list (Node Scalar)) (p : Z) (n : Node Scalar)
         (r c0 : A) (rest : list A) (cs : list Z),
    at_ nodes p = Some n -> at_ m p = Some r -> (2 <= Arity n)%nat ->
    children nodes p = Some cs -> Forall (fun c => c < p) cs ->
    mapM (at_ m) cs = Some (c0 :: rest) ->
    length rest = (Arity n - 1)%nat /\
    dispatch_op_simple N m nodes p
    = Some (assign m p (foldl (fun acc c => opn N c acc []) c0 rest)) /\
    dispatch_op_simple NodeType.Sub m nodes p
    = Some (assign m p (foldl (fun acc c => f_sub c acc) c0 rest)).
Proof.
  intros Scalar A FO N m nodes p n r c0 rest cs Hn Hr Har Hcs Hlt Hcols.
  assert (Hp : p ∉ cs).
  { intros Hin. rewrite Forall_forall in Hlt. specialize (Hlt _ Hin). lia. }
  split; [|split].
  - unfold children in Hcs. rewrite Hn in Hcs. cbn [mbind option_bind] in Hcs.
    apply siblings_length in Hcs. apply mapM_Some, Forall2_length in Hcols.
    simpl in Hcols. lia.
  - apply (dispatch_op_simple_factored N m nodes p n r cs); auto. lia.
  - rewrite (dispatch_op_simple_factored NodeType.Sub m nodes p n r cs c0 rest);
      auto. lia.
Qed.

Lemma dispatch_op_simple_folds_every_child_witness :
  length [2; 1; 10] = (Arity (flat_node NodeType.Sub 4) - 1)%nat /\
  dispatch_op_simple NodeType.Div [10; 1; 2; 3; 77] sub4_tree 4
  = Some (assign [10; 1; 2; 3; 77] 4
            (foldl (fun acc c => opn NodeType.Div c acc []) 3 [2; 1; 10])) /\
  dispatch_op_simple NodeType.Sub [10; 1; 2; 3; 77] sub4_tree 4
  = Some (assign [10; 1; 2; 3; 77] 4 (foldl (fun acc c => c - acc) 3 [2; 1; 10])).
Proof.
  refine (dispatch_op_simple_folds_every_child Z Z _ NodeType.Div
            [10; 1; 2; 3; 77] sub4_tree 4 (flat_node NodeType.Sub 4)
            77 3 [2; 1; 10] [3; 2; 1; 0] _ _ _ _ _ _).
  - reflexivity.
  - reflexivity.
  - simpl. lia.
  - reflexivity.
  - repeat constructor.
  - reflexivity.
Defined.



Lemma simple_loop_frame {Scalar A : Type} {FO : FieldOps A} N
    (nodes : list (Node Scalar)) p : forall count j (m m' : list A),
  0 <= p ->
  simple_loop N nodes p count j m = Some m' ->
  length m' = length m /\
  forall q : nat, q <> Z.to_nat p -> m' !! q = m !! q.
Proof.
  induction count as [|count IH]; intros j m m' Hp H.
  - injection H as <-. auto.
  - cbn [simple_loop] in H. open_binds H.
    apply IH in H as [Hlen Hq]; [|exact Hp]. unfold assign in *.
    rewrite length_insert in Hlen. split; [exact Hlen|].
    intros q Hne. rewrite Hq by exact Hne. now apply list_lookup_insert_ne.
Qed.

(** X10.  [dispatch_op_simple] and the arity: with one child the call
    [op(m.col(j), r)] has its destination and source exchanged, so the
    child's column [p - 1] receives [op] of the parent column and the parent
    column keeps what it held; with any other arity only the parent column
    is written. *)
Theorem dispatch_op_simple_unary_writes_child :
  forall (Scalar A : Type) (FO : FieldOps A) (N : NodeType.t)
         (m m' : list A) (nodes : list (Node Scalar)) (p : Z) (n : Node Scalar),
    at_ nodes p = Some n ->
    dispatch_op_simple N m nodes p = Some m' ->
    length m' = length m /\
    if (Arity n =? 1)%nat
    then exists r, at_ m p = Some r /\
                   m' = assign m ((p - 1) mod SIZE_MOD) (op1 N r) /\
                   (p <> (p - 1) mod SIZE_MOD -> at_ m' p = Some r)
    else forall q : nat, q <> Z.to_nat p -> m' !! q = m !! q.
Proof.
  intros Scalar A FO N m m' nodes p n Hn H.
  unfold dispatch_op_simple in H. rewrite Hn in H.
  destruct (at_ m p) as [r|] eqn:Hr; [|discriminate]. cbn [mbind option_bind] in H.
  destruct (at_ m ((p - 1) mod SIZE_MOD)) as [cj|] eqn:Hj; [|discriminate].
  cbn [mbind option_bind] in H.
  assert (Hp : 0 <= p) by (apply at_Some in Hr; lia).
  assert (Hj0 : 0 <= (p - 1) mod SIZE_MOD) by (apply at_Some in Hj; lia).
  destruct (Arity n =? 1)%nat.
  - injection H as <-. split; [apply length_insert|].
    exists r. split; [reflexivity|]. split; [reflexivity|].
    intros Hne. rewrite at_assign_ne by auto. exact Hr.
  - apply simple_loop_frame in H as [Hlen Hq]; [|exact Hp]. unfold assign in *.
    rewrite length_insert in Hlen. split; [exact Hlen|].
    intros q Hne. rewrite Hq by exact Hne. now apply list_lookup_insert_ne.
Qed.

Lemma dispatch_op_simple_unary_writes_child_witness :
  length [[-7]; [7]] = length [[5]; [7]] /\
  if (Arity (flat_node NodeType.Sub 1) =? 1)%nat
  then exists r, at_ [[5]; [7]] 1 = Some r /\
                 [[-7]; [7]] = assign [[5]; [7]] ((1 - 1) mod SIZE_MOD) (op1 NodeType.Sub r) /\
                 (1 <> (1 - 1) mod SIZE_MOD -> at_ [[-7]; [7]] 1 = Some r)
  else forall q : nat, q <> Z.to_nat 1 -> [[-7]; [7]] !! q = [[5]; [7]] !! q.
Proof.
  refine (dispatch_op_simple_unary_writes_child Z (list Z) _ NodeType.Sub
            [[5]; [7]] [[-7]; [7]]
            [constant_node 5 false; flat_node NodeType.Sub 1] 1
            (flat_node NodeType.Sub 1) _ _).
  - reflexivity.
  - reflexivity.
Defined.

(** X11.  A node of arity 0 handed to the dispatchers.  The [do ... while]
    loop of [dispatch_op] runs once before it tests [arity > 0], and
    [switch (0)] takes the [default] branch: the five siblings that start at
    [p - 1] are combined into the parent column, as for a node of arity 5.
    [dispatch_op_simple] copies the column at [p - 1]. *)
Theorem dispatchers_on_arity_zero :
  forall (Scalar A : Type) (FO : FieldOps A) (N : NodeType.t) (m : list A)
         (nodes : list (Node Scalar)) (p : Z) (n : Node Scalar)
         (r c0 c1 c2 c3 c4 : A) (cs : list Z),
    at_ nodes p = Some n -> Arity n = 0%nat -> at_ m p = Some r ->
    siblings nodes ((p - 1) mod SIZE_MOD) 5 = Some cs ->
    mapM (at_ m) cs = Some [c0; c1; c2; c3; c4] ->
    dispatch_op N m nodes p = Some (assign m p (opn N c0 c1 [c2; c3; c4])) /\
    dispatch_op_simple N m nodes p = Some (assign m p c0).
Proof.
  intros Scalar A FO N m nodes p n r c0 c1 c2 c3 c4 cs Hn Har Hr Hcs Hcols.
  remember [c0; c1; c2; c3; c4] as cols eqn:Ecols.
  open_chain. injection Ecols as -> -> -> -> ->.
  split.
  - unfold dispatch_op. rewrite Hr, Hn. cbn [mbind option_bind]. rewrite Har.
    open_chain. cbn [dispatch_loop]. unfold five. use_lookups_bind. reflexivity.
  - unfold dispatch_op_simple. rewrite Hr, Hn. cbn [mbind option_bind].
    rewrite Har. open_chain. use_lookups_bind. reflexivity.
Qed.

Lemma dispatchers_on_arity_zero_witness :
  dispatch_op NodeType.Add [1; 2; 3; 4; 5; 6] 
    ((fun v => constant_node v false) <$> [1; 2; 3; 4; 5; 6]) 5
  = Some (assign [1; 2; 3; 4; 5; 6] 5 (opn NodeType.Add 5 4 [3; 2; 1])) /\
  dispatch_op_simple NodeType.Add [1; 2; 3; 4; 5; 6]
    ((fun v => constant_node v false) <$> [1; 2; 3; 4; 5; 6]) 5
  = Some (assign [1; 2; 3; 4; 5; 6] 5 5).
Proof.
  refine (dispatchers_on_arity_zero Z Z _ NodeType.Add [1; 2; 3; 4; 5; 6]
            ((fun v => constant_node v false) <$> [1; 2; 3; 4; 5; 6]) 5
            (constant_node 6 false) 6 5 4 3 2 1 [4; 3; 2; 1; 0] _ _ _ _ _).
  - reflexivity.
  - reflexivity.
  - reflexivity.
  - reflexivity.
  - reflexivity.
Defined.

(** X12.  The chunked fold of [dispatch_op] keeps only its last rounds: for
    a node with [n >= 2] children that precede it, the parent column is a
    function of the columns of the last [(n - 2) mod 5 + 2] children of the
    sibling recurrence alone.  Two buffers that agree on those columns get
    the same parent column, whatever the columns of the first
    [5 * ((n - 2) / 5)] children hold; up to six children all of them
    count, from seven on the first five never do. *)
Theorem dispatch_op_depends_on_last_rounds_only :
  forall (Scalar A : Type) (FO : FieldOps A) (N : NodeType.t) (m1 m2 : list A)
         (nodes : list (Node Scalar)) (p : Z) (n : Node Scalar)
         (cs : list Z) (cols1 cols2 : list A),
    at_ nodes p = Some n -> (2 <= Arity n)%nat ->
    children nodes p = Some cs -> Forall (fun c => c < p) cs ->
    is_Some (at_ m1 p) -> is_Some (at_ m2 p) ->
    mapM (at_ m1) cs = Some cols1 -> mapM (at_ m2) cs = Some cols2 ->
    drop (5 * ((Arity n - 2) / 5)) cols1 = drop (5 * ((Arity n - 2) / 5)) cols2 ->
    exists x : A,
      dispatch_op N m1 nodes p = Some (assign m1 p x) /\
      dispatch_op N m2 nodes p = Some (assign m2 p x).
Proof.
  intros Scalar A FO N m1 m2 nodes p n cs cols1 cols2 Hn Har Hcs Hlt
    [r1 Hr1] [r2 Hr2] Hcols1 Hcols2 Hdrop.
  assert (Hp : p ∉ cs).
  { intros Hin. rewrite Forall_forall in Hlt. specialize (Hlt _ Hin). lia. }
  assert (Hlen : length cs = Arity n).
  { unfold children in Hcs. rewrite Hn in Hcs. cbn [mbind option_bind] in Hcs.
    now apply siblings_length in Hcs. }
  assert (Hlen1 : length cols1 = Arity n).
  { apply mapM_Some, Forall2_length in Hcols1. lia. }
  assert (Hlen2 : length cols2 = Arity n).
  { apply mapM_Some, Forall2_length in Hcols2. lia. }
  rewrite (dispatch_op_factored N m1 nodes p n r1 cs cols1) by (auto; lia).
  rewrite (dispatch_op_factored N m2 nodes p n r2 cs cols2) by (auto; lia).
  rewrite (fold_children_tail N cols1 false r1 r1) by lia.
  rewrite (fold_children_tail N cols2 false r2 r1) by lia.
  rewrite Hlen1, Hlen2, <- Hdrop.
  destruct (fold_children_total N (drop (5 * ((Arity n - 2) / 5)) cols1) false r1)
    as [x Hx].
  { intros E. apply (f_equal length) in E. rewrite length_drop, Hlen1 in E.
    change (length []) with 0%nat in E.
    pose proof (Nat.div_mod_eq (Arity n - 2) 5) as Hdm. lia. }
  exists x. rewrite Hx. split; reflexivity.
Qed.

Lemma dispatch_op_depends_on_last_rounds_only_witness :
  exists x : Z,
    dispatch_op NodeType.Add [1; 2; 3; 4; 5; 6; 7; 0] add7_tree 7
      = Some (assign [1; 2; 3; 4; 5; 6; 7; 0] 7 x) /\
    dispatch_op NodeType.Add [1; 2; 30; 40; 50; 60; 70; 8] add7_tree 7
      = Some (assign [1; 2; 30; 40; 50; 60; 70; 8] 7 x).
Proof.
  refine (dispatch_op_depends_on_last_rounds_only Z Z _ NodeType.Add
            [1; 2; 3; 4; 5; 6; 7; 0] [1; 2; 30; 40; 50; 60; 70; 8]
            add7_tree 7 (flat_node NodeType.Add 7) [6; 5; 4; 3; 2; 1; 0]
            [7; 6; 5; 4; 3; 2; 1] [70; 60; 50; 40; 30; 2; 1] _ _ _ _ _ _ _ _ _).
  - reflexivity.
  - simpl. lia.
  - reflexivity.
  - repeat constructor.
  - eexists. reflexivity.
  - eexists. reflexivity.
  - reflexivity.
  - reflexivity.
  - reflexivity.
Defined.

(** ** What the output of [Evaluate] depends on *)

Section Locality.

Context {Scalar T : Type} {FO : FieldOps T} {SF : ScalarFns T}.
Variable cast : Scalar -> T.
Variable nodes : list (Node Scalar).
Variable parameters : option (list T).
Variable ps : list T.

Hypothesis Hvalid : valid_tree nodes = true.
Hypothesis Hps : params_from cast parameters nodes 0 = Some ps.

(** The value of a row is the same for any content of the fresh buffer and
    for any two datasets whose variable columns agree on that row. *)
Lemma row_value_local uninit uninit' (dataset dataset' : Dataset (Scalar := Scalar)) x :
  valid_data nodes dataset (mkRange x (S x)) = true ->
  valid_data nodes dataset' (mkRange x (S x)) = true ->
  (forall j n column column', nodes !! j = Some n -> IsVariable n = true ->
     dataset (HashValue n) = Some column -> dataset' (HashValue n) = Some column' ->
     column !! x = column' !! x) ->
  row_value cast uninit default_table nodes dataset parameters x
  = row_value cast uninit' default_table nodes dataset' parameters x.
Proof.
  intros Hd Hd' Hagree.
  destruct (valid_tree_parts _ Hvalid) as (Hne & Hrep & Hcons & Hwk).
  pose proof (params_from_length _ _ _ _ _ Hps) as Hpl.
  destruct (Evaluate_row cast uninit nodes dataset parameters ps Hvalid Hps x Hd)
    as (vs & b & v & Hvs & Hlvs & Hloop & Hok & Hb & <-).
  destruct (Evaluate_row cast uninit' nodes dataset' parameters ps Hvalid Hps x Hd')
    as (vs' & b' & v' & Hvs' & Hlvs' & Hloop' & Hok' & Hb' & <-).
  destruct (views_total _ _ _ Hd) as (vs0 & Hvs0 & _ & Hcol).
  rewrite Hvs in Hvs0. injection Hvs0 as <-.
  destruct (views_total _ _ _ Hd') as (vs0 & Hvs0 & _ & Hcol').
  rewrite Hvs' in Hvs0. injection Hvs0 as <-.
  assert (Hpos : (0 < length nodes)%nat) by (destruct nodes; [congruence|simpl; lia]).
  pose proof (node_loop_sim cast nodes ps Hrep Hcons Hwk 1 vs vs'
                (mkRange (x + 0) (x + 0 + 1)) (mkRange (x + 0) (x + 0 + 1))
                0 1 0 ltac:(lia) ltac:(lia) Hpl Hlvs Hlvs') as Hsim.
  assert (Hviews : forall j n w w1, nodes !! j = Some n -> vs !! j = Some w ->
            vs' !! j = Some w1 -> IsVariable n = true ->
            (0 + 1 <= length w)%nat /\
            exists y, w !! (0 + 0)%nat = Some y /\ w1 = [y]).
  { intros j n w w1 Hn Hw Hw1 Hvar.
    destruct (Hcol _ _ _ Hn Hw Hvar) as (column & Hc & Hle & ->).
    destruct (Hcol' _ _ _ Hn Hw1 Hvar) as (column' & Hc' & Hle' & ->).
    pose proof (Hagree _ _ _ _ Hn Hvar Hc Hc') as Hx.
    unfold Size in *. cbn [Start End] in *.
    replace (S x - x)%nat with 1%nat by lia.
    destruct (lookup_lt_is_Some_2 column x ltac:(lia)) as [y Hy].
    rewrite Hy in Hx. symmetry in Hx.
    rewrite !take1_drop_lookup, Hy, Hx. simpl. split; [lia|]. eauto. }
  specialize (Hsim Hviews _ _ 0%nat _ _ b b' eq_refl eq_refl
                (preload_buffer_ok 1 uninit nodes ps Hpl)
                (preload_buffer_ok 1 uninit' nodes ps Hpl)).
  specialize (Hsim ltac:(intros j Hj; lia) Hloop Hloop').
  specialize (Hsim (length nodes - 1)%nat ltac:(lia)).
  rewrite Hb, Hb' in Hsim. simpl in Hsim. now injection Hsim.
Qed.

End Locality.

Lemma rows_ext {T : Type} (V V' : nat -> T) (range : Range) :
  (forall x, (Start range <= x < End range)%nat -> V x = V' x) ->
  V <$> seq (Start range) (Size range) = V' <$> seq (Start range) (Size range).
Proof.
  intros H. apply list_eq. intros i. rewrite !list_lookup_fmap.
  destruct (seq (Start range) (Size range) !! i) as [x|] eqn:E; [|reflexivity].
  simpl. f_equal. apply lookup_seq in E as [-> Hi]. apply H.
  unfold Size in Hi. lia.
Qed.

Lemma valid_data_row {Scalar : Type} (nodes : list (Node Scalar))
    (dataset : Dataset (Scalar := Scalar)) (range : Range) (x : nat) :
  valid_data nodes dataset range = true ->
  (Start range <= x < End range)%nat ->
  valid_data nodes dataset (mkRange x (S x)) = true.
Proof.
  intros Hd Hx. apply (valid_data_sub _ _ range); simpl; auto; lia.
Qed.





(** ** Parameters are consumed in tree order *)

Lemma same_but_value_refl {Scalar : Type} (nodes : list (Node Scalar)) :
  Forall2 same_but_value nodes nodes.
Proof.
  induction nodes as [|n l IH]; constructor; [|exact IH].
  unfold same_but_value. auto.
Qed.

Section Parameters.

Context {Scalar T : Type}.
Variable cast : Scalar -> T.

Lemma params_from_app (prm extra : list T) : forall (nodes : list (Node Scalar)) idx,
  (idx + length (filter (fun n => Optimize n = true) nodes) <= length prm)%nat ->
  params_from cast (Some (prm ++ extra)) nodes idx
  = params_from cast (Some prm) nodes idx.
Proof.
  induction nodes as [|n l IH]; intros idx Hlen; [reflexivity|].
  cbn [params_from]. rewrite filter_cons in Hlen.
  destruct (Optimize n) eqn:E.
  - rewrite decide_True in Hlen by reflexivity. simpl in Hlen.
    rewrite lookup_app_l by lia.
    destruct (prm !! idx); cbn [mbind option_bind]; [|reflexivity].
    rewrite IH by lia. reflexivity.
  - rewrite decide_False in Hlen by discriminate.
    rewrite IH by lia. reflexivity.
Qed.

Lemma params_from_None_idx : forall (nodes : list (Node Scalar)) a b,
  params_from cast None nodes a = params_from cast None nodes b.
Proof.
  induction nodes as [|n l IH]; intros a b; [reflexivity|].
  cbn [params_from]. now rewrite (IH a b).
Qed.

Lemma params_from_own_values (pre : list T) : forall (nodes : list (Node Scalar)),
  params_from cast
    (Some (pre ++ ((fun n => cast (Value n)) <$>
                     filter (fun n => Optimize n = true) nodes)))
    nodes (length pre)
  = params_from cast None nodes (length pre).
Proof.
  intros nodes. revert pre.
  induction nodes as [|n l IH]; intros pre; [reflexivity|].
  cbn [params_from]. rewrite filter_cons.
  destruct (Optimize n) eqn:E.
  - rewrite decide_True by reflexivity. rewrite fmap_cons.
    rewrite lookup_app_r by lia. rewrite Nat.sub_diag. cbn [lookup list_lookup].
    cbn [mbind option_bind].
    specialize (IH (pre ++ [cast (Value n)])).
    rewrite length_app in IH. simpl in IH. rewrite Nat.add_1_r in IH.
    rewrite <- app_assoc in IH. simpl in IH. rewrite IH.
    now rewrite (params_from_None_idx l (S (length pre)) (length pre)).
  - rewrite decide_False by discriminate. apply (f_equal (fmap _)). apply IH.
Qed.

End Parameters.

(** X15.  The parameter vector is read front to back, one entry per
    optimize-marked node: entries beyond the number of such nodes are never
    read, and passing the marked nodes' own values as parameters gives what
    passing no parameters gives.  No validity of the tree is needed. *)
Theorem Evaluate_parameters_in_tree_order :
  forall (Scalar T : Type) (FO : FieldOps T) (SF : ScalarFns T)
         (cast : Scalar -> T) (W : nat) (uninit : nat -> nat -> T)
         (tree : list (Node Scalar)) (dataset : Dataset (Scalar := Scalar))
         (range : Range) (prm extra : list T),
    valid_parameters tree (Some prm) = true ->
    Evaluate cast W uninit default_table tree dataset range (Some (prm ++ extra))
    = Evaluate cast W uninit default_table tree dataset range (Some prm) /\
    Evaluate cast W uninit default_table tree dataset range
      (Some ((fun n => cast (Value n)) <$> filter (fun n => Optimize n = true) tree))
    = Evaluate cast W uninit default_table tree dataset range None.
Proof.
  intros Scalar T FO SF cast W uninit tree dataset range prm extra Hvp.
  unfold valid_parameters in Hvp. apply Nat.leb_le in Hvp.
  unfold Evaluate. split.
  - apply (Evaluate_span_same tree tree (same_but_value_refl tree)).
    apply params_from_app. simpl. exact Hvp.
  - apply (Evaluate_span_same tree tree (same_but_value_refl tree)).
    apply (params_from_own_values cast [] tree).
Qed.

Lemma Evaluate_parameters_in_tree_order_witness :
  Evaluate id 2 (fun _ _ => 77) default_table nested_tree example_data
    (mkRange 0 5) (Some ([4] ++ [8; 9]))
  = Evaluate id 2 (fun _ _ => 77) default_table nested_tree example_data
      (mkRange 0 5) (Some [4]) /\
  Evaluate id 2 (fun _ _ => 77) default_table nested_tree example_data
    (mkRange 0 5)
    (Some ((fun n => id (Value n)) <$> filter (fun n => Optimize n = true) nested_tree))
  = Evaluate id 2 (fun _ _ => 77) default_table nested_tree example_data
      (mkRange 0 5) None.
Proof.
  apply (Evaluate_parameters_in_tree_order Z Z _ _ id 2 (fun _ _ => 77)
           nested_tree example_data (mkRange 0 5) [4] [8; 9]).
  reflexivity.
Defined.

(** ** Sorted hash vectors: [is_set] and [Intersect2] *)

Lemma is_set_cons2 (a b : Z) (rest : list Z) :
  is_set (a :: b :: rest) = negb (a =? b) && is_set (b :: rest).
Proof.
  unfold is_set. cbn [adjacent_find].
  destruct (a =? b); [reflexivity|]. reflexivity.
Qed.

Lemma is_set_Sorted_lt (vec : list Z) :
  Sorted Z.le vec -> is_set vec = true -> Sorted Z.lt vec.
Proof.
  induction vec as [|a [|b rest] IH]; intros Hs Hset.
  - constructor.
  - repeat constructor.
  - rewrite is_set_cons2 in Hset. apply andb_true_iff in Hset as [Hab Hset].
    apply negb_true_iff, Z.eqb_neq in Hab.
    inversion Hs as [|? ? Hs' Hhd]; subst. inversion Hhd; subst.
    constructor; [now apply IH|]. constructor. lia.
Qed.

Lemma NoDup_is_set (vec : list Z) : NoDup vec -> is_set vec = true.
Proof.
  induction vec as [|a [|b rest] IH]; intros Hnd; try reflexivity.
  rewrite is_set_cons2. apply NoDup_cons in Hnd as [Ha Hnd].
  rewrite IH by exact Hnd. rewrite andb_true_r.
  apply negb_true_iff, Z.eqb_neq. intros ->. apply Ha. left.
Qed.

Lemma StronglySorted_lt_NoDup (vec : list Z) : StronglySorted Z.lt vec -> NoDup vec.
Proof.
  induction 1 as [|a l Hl IH Ha]; constructor; [|exact IH].
  intros Hin. rewrite List.Forall_forall in Ha.
  apply list_elem_of_In in Hin. specialize (Ha _ Hin). lia.
Qed.

Lemma is_set_iff_NoDup_aux (vec : list Z) :
  Sorted Z.le vec ->
  (is_set vec = true -> NoDup vec) /\ (NoDup vec -> is_set vec = true).
Proof.
  intros Hs. split; [|apply NoDup_is_set].
  intros Hset. apply StronglySorted_lt_NoDup.
  apply Sorted_StronglySorted; [intros x y z; lia|].
  now apply is_set_Sorted_lt.
Qed.

(** X16.  On a vector sorted in ascending order, [is_set] holds exactly
    when no value occurs twice; on any vector, sorted or not, a vector
    without repetition passes. *)
Theorem is_set_iff_NoDup_on_sorted :
  forall vec : list Z,
    (NoDup vec -> is_set vec = true) /\
    (Sorted Z.le vec -> (is_set vec = true <-> NoDup vec)).
Proof.
  intros vec. split; [apply NoDup_is_set|].
  intros Hs. destruct (is_set_iff_NoDup_aux vec Hs). split; assumption.
Qed.

Section Multisets.

Implicit Types X Y : gmultiset Z.

Local Open Scope nat_scope.

Lemma inter_skip_l (a : Z) X Y : a ∉ Y -> ({[+ a +]} ⊎ X) ∩ Y = X ∩ Y.
Proof.
  intros Ha. apply not_elem_of_multiplicity in Ha.
  apply gmultiset_eq. intros x.
  rewrite !multiplicity_intersection, multiplicity_disj_union.
  destruct (decide (x = a)) as [->|Hne].
  - rewrite Ha. lia.
  - rewrite multiplicity_singleton_ne by exact Hne. lia.
Qed.

Lemma inter_skip_r (b : Z) X Y : b ∉ X -> X ∩ ({[+ b +]} ⊎ Y) = X ∩ Y.
Proof.
  intros Hb. apply not_elem_of_multiplicity in Hb.
  apply gmultiset_eq. intros x.
  rewrite !multiplicity_intersection, multiplicity_disj_union.
  destruct (decide (x = b)) as [->|Hne].
  - rewrite Hb. lia.
  - rewrite multiplicity_singleton_ne by exact Hne. lia.
Qed.

Lemma inter_both (a : Z) X Y :
  ({[+ a +]} ⊎ X) ∩ ({[+ a +]} ⊎ Y) = {[+ a +]} ⊎ (X ∩ Y).
Proof.
  apply gmultiset_eq. intros x.
  rewrite !multiplicity_intersection, !multiplicity_disj_union,
    multiplicity_intersection. lia.
Qed.

Lemma inter_disjoint X Y : (forall x, x ∈ X -> x ∈ Y -> False) -> X ∩ Y = ∅.
Proof.
  intros H. apply gmultiset_eq. intros x.
  rewrite multiplicity_intersection, multiplicity_empty.
  destruct (decide (x ∈ X)) as [HX|HX].
  - assert (HY : x ∉ Y) by (intros HY; eauto).
    apply not_elem_of_multiplicity in HY. lia.
  - apply not_elem_of_multiplicity in HX. lia.
Qed.

Lemma inter_self X : X ∩ X = X.
Proof.
  apply gmultiset_eq. intros x. rewrite multiplicity_intersection. lia.
Qed.

Lemma size_list_to_set_disj (l : list Z) :
  size (list_to_set_disj l : gmultiset Z) = length l.
Proof.
  induction l as [|a l IH]; [apply gmultiset_size_empty|].
  rewrite list_to_set_disj_cons, gmultiset_size_disj_union,
    gmultiset_size_singleton, IH. reflexivity.
Qed.

End Multisets.

Lemma StronglySorted_lookup_le (l : list Z) :
  StronglySorted Z.le l ->
  forall i j a b, (i <= j)%nat -> l !! i = Some a -> l !! j = Some b -> a <= b.
Proof.
  induction 1 as [|x l Hl IH Hx]; intros i j a b Hij Ha Hb; [discriminate|].
  destruct i as [|i], j as [|j]; simpl in *.
  - injection Ha as <-. injection Hb as <-. lia.
  - injection Ha as <-. rewrite List.Forall_forall in Hx. apply Hx.
    apply list_elem_of_In. eapply list_elem_of_lookup_2; eauto.
  - lia.
  - eapply IH; [|eauto..]. lia.
Qed.

Lemma StronglySorted_le_last (l : list Z) (lm x : Z) :
  StronglySorted Z.le l -> last l = Some lm -> x ∈ l -> x <= lm.
Proof.
  intros Hs Hlast Hx. rewrite last_lookup in Hlast.
  apply list_elem_of_lookup_1 in Hx as [k Hk].
  pose proof (lookup_lt_Some _ _ _ Hk).
  apply (StronglySorted_lookup_le l Hs k (Nat.pred (length l)) x lm); auto. lia.
Qed.

Lemma StronglySorted_drop_ge (l : list Z) (i : nat) (a x : Z) :
  StronglySorted Z.le l -> l !! i = Some a -> x ∈ drop i l -> a <= x.
Proof.
  intros Hs Ha Hx. apply list_elem_of_lookup_1 in Hx as [k Hk].
  rewrite lookup_drop in Hk.
  apply (StronglySorted_lookup_le l Hs i (i + k) a x); auto. lia.
Qed.

Section Intersect2.

Variables lhs rhs : list Z.
Variables lm rm : Z.

(** The loop never runs out of rounds, and the count stays below both
    positions. *)
Lemma Intersect2_loop_total : forall fuel i j count,
  (i <= length lhs)%nat -> (j <= length rhs)%nat ->
  (length lhs - i + (length rhs - j) <= fuel)%nat ->
  exists c, Intersect2_loop fuel lhs rhs lm rm i j count = Some c /\
            (count <= c)%nat /\
            (c - count <= length lhs - i)%nat /\
            (c - count <= length rhs - j)%nat.
Proof.
  induction fuel as [|fuel IH]; intros i j count Hi Hj Hfuel.
  - cbn [Intersect2_loop].
    destruct (Nat.eqb_spec i (length lhs)), (Nat.eqb_spec j (length rhs));
      cbn [negb andb]; try (exists count; split; [reflexivity|lia]).
    lia.
  - cbn [Intersect2_loop].
    destruct (Nat.eqb_spec i (length lhs)), (Nat.eqb_spec j (length rhs));
      cbn [negb andb]; try (exists count; split; [reflexivity|lia]).
    destruct (lookup_lt_is_Some_2 lhs i ltac:(lia)) as [a Ha].
    destruct (lookup_lt_is_Some_2 rhs j ltac:(lia)) as [b Hb].
    rewrite Ha, Hb. cbn [mbind option_bind].
    assert (Hstep : exists di dj dc : nat,
              (if Z.leb a b then 1%nat else 0%nat) = di /\
              (if Z.geb a b then 1%nat else 0%nat) = dj /\
              (if Z.eqb a b then 1%nat else 0%nat) = dc /\
              (1 <= di + dj)%nat /\ (di <= 1)%nat /\ (dj <= 1)%nat /\
              (dc <= di)%nat /\ (dc <= dj)%nat).
    { destruct (Z.leb_spec a b), (Z.geb_spec a b), (Z.eqb_spec a b);
        try lia; do 3 eexists; repeat split; lia. }
    destruct Hstep as (di & dj & dc & -> & -> & -> & H1 & H2 & H3 & H4 & H5).
    destruct ((a >? rm) || (b >? lm)).
    + exists (count + dc)%nat. split; [reflexivity|lia].
    + destruct (IH (i + di)%nat (j + dj)%nat (count + dc)%nat) as (c & -> & Hc);
        [lia..|].
      exists c. split; [reflexivity|lia].
Qed.

(** The loop body treats the two vectors alike. *)
Lemma Intersect2_loop_sym : forall fuel i j count,
  Intersect2_loop fuel lhs rhs lm rm i j count
  = Intersect2_loop fuel rhs lhs rm lm j i count.
Proof.
  induction fuel as [|fuel IH]; intros i j count; cbn [Intersect2_loop].
  - rewrite (andb_comm (negb (i =? length lhs)%nat)). reflexivity.
  - rewrite (andb_comm (negb (i =? length lhs)%nat)).
    destruct (negb (j =? length rhs)%nat && negb (i =? length lhs)%nat);
      [|reflexivity].
    destruct (lhs !! i) as [a|], (rhs !! j) as [b|]; cbn [mbind option_bind];
      try reflexivity.
    rewrite (Z.eqb_sym a b), (orb_comm (a >? rm)).
    replace (b <=? a) with (a >=? b) by (rewrite Z.geb_leb; reflexivity).
    replace (b >=? a) with (a <=? b) by (rewrite Z.geb_leb; reflexivity).
    destruct ((b >? lm) || (a >? rm)); [reflexivity|]. apply IH.
Qed.

Hypothesis Hl : StronglySorted Z.le lhs.
Hypothesis Hr : StronglySorted Z.le rhs.
Hypothesis Hlm : last lhs = Some lm.
Hypothesis Hrm : last rhs = Some rm.

(** On sorted vectors the loop adds to [count] the size of the multiset
    intersection of what lies ahead of [i] and [j]. *)
Lemma Intersect2_loop_sorted : forall fuel i j count,
  (i <= length lhs)%nat -> (j <= length rhs)%nat ->
  (length lhs - i + (length rhs - j) <= fuel)%nat ->
  Intersect2_loop fuel lhs rhs lm rm i j count
  = Some (count + size (list_to_set_disj (drop i lhs) ∩
                        list_to_set_disj (drop j rhs) : gmultiset Z))%nat.
Proof.
  assert (Hdone : forall i j count, (i <= length lhs)%nat -> (j <= length rhs)%nat ->
            i = length lhs \/ j = length rhs ->
            Some count
            = Some (count + size (list_to_set_disj (drop i lhs) ∩
                                  list_to_set_disj (drop j rhs) : gmultiset Z))%nat).
  { intros i j count Hi Hj Hij. rewrite inter_disjoint.
    - rewrite gmultiset_size_empty. f_equal. lia.
    - intros x Hx Hy. apply elem_of_list_to_set_disj in Hx, Hy.
      destruct Hij as [-> | ->].
      + rewrite drop_ge in Hx by lia. inversion Hx.
      + rewrite drop_ge in Hy by lia. inversion Hy. }
  induction fuel as [|fuel IH]; intros i j count Hi Hj Hfuel;
    cbn [Intersect2_loop];
    destruct (Nat.eqb_spec i (length lhs)) as [Ei|Ei];
    destruct (Nat.eqb_spec j (length rhs)) as [Ej|Ej];
    cbn [negb andb]; try (apply Hdone; auto; fail).
  - lia.
  - destruct (lookup_lt_is_Some_2 lhs i ltac:(lia)) as [a Ha].
    destruct (lookup_lt_is_Some_2 rhs j ltac:(lia)) as [b Hb].
    rewrite Ha, Hb. cbn [mbind option_bind].
    rewrite (drop_S _ _ _ Ha), (drop_S _ _ _ Hb), !list_to_set_disj_cons.
    assert (HaL : forall x, x ∈ drop i lhs -> a <= x)
      by (intros x; now apply StronglySorted_drop_ge).
    assert (HbR : forall x, x ∈ drop j rhs -> b <= x)
      by (intros x; now apply StronglySorted_drop_ge).
    assert (HLm : forall x, x ∈ drop i lhs -> x <= lm).
    { intros x Hx. apply (StronglySorted_le_last lhs); auto.
      apply list_elem_of_lookup_1 in Hx as [k Hk]. rewrite lookup_drop in Hk.
      eapply list_elem_of_lookup_2; eauto. }
    assert (HRm : forall x, x ∈ drop j rhs -> x <= rm).
    { intros x Hx. apply (StronglySorted_le_last rhs); auto.
      apply list_elem_of_lookup_1 in Hx as [k Hk]. rewrite lookup_drop in Hk.
      eapply list_elem_of_lookup_2; eauto. }
    rewrite (drop_S _ _ _ Ha) in HaL, HLm. rewrite (drop_S _ _ _ Hb) in HbR, HRm.
    assert (HL' : forall x, x ∈ drop (S i) lhs -> a <= x)
      by (intros x Hx; apply HaL; now right).
    assert (HR' : forall x, x ∈ drop (S j) rhs -> b <= x)
      by (intros x Hx; apply HbR; now right).
    pose proof (HLm a ltac:(left)) as Halm. pose proof (HRm b ltac:(left)) as Hbrm.
    destruct (Z.lt_trichotomy a b) as [Hab|[Hab|Hab]].
    + (* a < b *)
      destruct (Z.leb_spec a b); [|lia]. destruct (Z.geb_spec a b); [lia|].
      destruct (Z.eqb_spec a b); [lia|].
      replace (a >? rm) with false by (symmetry; rewrite Z.gtb_ltb; apply Z.ltb_ge; lia).
      cbn [orb].
      destruct (Z.gtb_spec b lm) as [Hgt|Hle].
      * rewrite <- (list_to_set_disj_cons a), <- (list_to_set_disj_cons b).
        rewrite inter_disjoint.
        { f_equal; f_equal; try (symmetry; apply gmultiset_size_empty). }
        intros x Hx Hy. apply elem_of_list_to_set_disj in Hx, Hy.
        specialize (HLm _ Hx). specialize (HbR _ Hy). lia.
      * rewrite !Nat.add_0_r, Nat.add_1_r.
        rewrite IH by lia. rewrite (drop_S _ _ _ Hb), list_to_set_disj_cons.
        rewrite (inter_skip_l a).
        { reflexivity. }
        rewrite <- (list_to_set_disj_cons b). intros Hin.
        apply elem_of_list_to_set_disj in Hin. specialize (HbR _ Hin). lia.
    + (* a = b *)
      subst b.
      destruct (Z.leb_spec a a); [|lia]. destruct (Z.geb_spec a a); [|lia].
      destruct (Z.eqb_spec a a); [|lia].
      replace (a >? rm) with false by (symmetry; rewrite Z.gtb_ltb; apply Z.ltb_ge; lia).
      replace (a >? lm) with false by (symmetry; rewrite Z.gtb_ltb; apply Z.ltb_ge; lia).
      cbn [orb]. rewrite !Nat.add_1_r. rewrite IH by lia.
      rewrite inter_both, gmultiset_size_disj_union, gmultiset_size_singleton.
      f_equal. lia.
    + (* b < a *)
      destruct (Z.leb_spec a b); [lia|]. destruct (Z.geb_spec a b); [|lia].
      destruct (Z.eqb_spec a b); [lia|].
      replace (b >? lm) with false by (symmetry; rewrite Z.gtb_ltb; apply Z.ltb_ge; lia).
      rewrite orb_false_r.
      destruct (Z.gtb_spec a rm) as [Hgt|Hle].
      * rewrite <- (list_to_set_disj_cons a), <- (list_to_set_disj_cons b).
        rewrite inter_disjoint.
        { f_equal; f_equal; try (symmetry; apply gmultiset_size_empty). }
        intros x Hx Hy. apply elem_of_list_to_set_disj in Hx, Hy.
        specialize (HaL _ Hx). specialize (HRm _ Hy). lia.
      * rewrite !Nat.add_0_r, Nat.add_1_r.
        rewrite IH by lia. rewrite (drop_S _ _ _ Ha), list_to_set_disj_cons.
        rewrite (inter_skip_r b).
        { reflexivity. }
        rewrite <- (list_to_set_disj_cons a). intros Hin.
        apply elem_of_list_to_set_disj in Hin. specialize (HaL _ Hin). lia.
Qed.

End Intersect2.

Lemma last_None_nil {A : Type} (l : list A) : last l = None <-> l = [].
Proof.
  split; [|now intros ->].
  destruct l as [|a l]; [reflexivity|]. intros H.
  rewrite last_lookup in H. simpl in H.
  apply lookup_ge_None in H. simpl in H. lia.
Qed.

(** X17.  [Intersect2] on any two hash vectors, sorted or not: the count is
    the same when the vectors are exchanged; it is undefined exactly when
    one of them is empty ([back()] of an empty vector); and it never
    exceeds the size of either vector. *)
Theorem Intersect2_symmetric_and_bounded :
  forall lhs rhs : list Z,
    Intersect2 lhs rhs = Intersect2 rhs lhs /\
    (Intersect2 lhs rhs = None <-> lhs = [] \/ rhs = []) /\
    (forall c, Intersect2 lhs rhs = Some c ->
               (c <= Nat.min (length lhs) (length rhs))%nat).
Proof.
  intros lhs rhs. unfold Intersect2.
  destruct (last lhs) as [lm|] eqn:Elm.
  - destruct (last rhs) as [rm|] eqn:Erm; cbn [mbind option_bind].
    + destruct (Intersect2_loop_total lhs rhs lm rm (length lhs + length rhs)
                  0 0 0 ltac:(lia) ltac:(lia) ltac:(lia))
        as (c & Hc & Hb0 & Hb1 & Hb2).
      split; [|split].
      * rewrite Intersect2_loop_sym, (Nat.add_comm (length lhs)). reflexivity.
      * rewrite Hc. split; [discriminate|].
        intros [-> | ->]; discriminate.
      * intros c' Hc'. rewrite Hc in Hc'. injection Hc' as <-. lia.
    + apply last_None_nil in Erm. subst rhs.
      split; [reflexivity|]. split; [tauto|]. discriminate.
  - apply last_None_nil in Elm. subst lhs. cbn [mbind option_bind].
    split; [|split; [tauto|discriminate]].
    destruct (last rhs); reflexivity.
Qed.

Lemma Intersect2_sorted_multiset (l r : list Z) :
  Sorted Z.le l -> Sorted Z.le r ->
  (0 < length l)%nat -> (0 < length r)%nat ->
  Intersect2 l r
  = Some (size (list_to_set_disj l ∩ list_to_set_disj r : gmultiset Z)).
Proof.
  intros Hsl Hsr Hl0 Hr0.
  apply Sorted_StronglySorted in Hsl; [|intros x y z; lia].
  apply Sorted_StronglySorted in Hsr; [|intros x y z; lia].
  unfold Intersect2.
  destruct (last l) as [lm|] eqn:Elm;
    [|apply last_None_nil in Elm; subst l; simpl in Hl0; lia].
  destruct (last r) as [rm|] eqn:Erm;
    [|apply last_None_nil in Erm; subst r; simpl in Hr0; lia].
  cbn [mbind option_bind].
  rewrite (Intersect2_loop_sorted l r lm rm Hsl Hsr Elm Erm) by lia.
  reflexivity.
Qed.

(** X18.  On two non-empty hash vectors sorted in ascending order,
    repetitions allowed, [Intersect2] returns the number of hashes they have
    in common, counted with multiplicity: the size of the intersection of
    the two multisets.  In particular a sorted vector has all of its
    entries in common with itself. *)
Theorem Intersect2_counts_common_hashes :
  forall lhs rhs : list Z,
    Sorted Z.le lhs -> Sorted Z.le rhs ->
    (0 < length lhs)%nat -> (0 < length rhs)%nat ->
    Intersect2 lhs rhs
    = Some (size (list_to_set_disj lhs ∩ list_to_set_disj rhs : gmultiset Z)) /\
    Intersect2 lhs lhs = Some (length lhs).
Proof.
  intros lhs rhs Hl Hr Hln Hrn.
  split; [now apply Intersect2_sorted_multiset|].
  rewrite Intersect2_sorted_multiset by assumption.
  now rewrite inter_self, size_list_to_set_disj.
Qed.

Lemma Intersect2_counts_common_hashes_witness :
  Intersect2 [1; 1; 2; 5; 9] [1; 2; 2; 7]
  = Some (size (list_to_set_disj [1; 1; 2; 5; 9] ∩
                list_to_set_disj [1; 2; 2; 7] : gmultiset Z)) /\
  Intersect2 [1; 1; 2; 5; 9] [1; 1; 2; 5; 9] = Some (length [1; 1; 2; 5; 9]).
Proof.
  apply (Intersect2_counts_common_hashes [1; 1; 2; 5; 9] [1; 2; 2; 7]).
  - repeat (constructor; try lia).
  - repeat (constructor; try lia).
  - simpl. lia.
  - simpl. lia.
Defined.

(** ** The sweeps of the derivative calculator *)

Section SweepSteps.

Context {Scalar Tree Data : Type} {SF : ScalarFns Scalar}.
Variable DIMENSION : nat.
Variable interpreter_ : Interpreter_t (Scalar := Scalar) (Tree := Tree) (Data := Data).

(** After seeding the chunk [[s, s + n)], input [i] of the chunk has lane
    [i - s] set to one; the inputs outside of the chunk are as before. *)
Lemma seed_lookup (s : nat) (inputs : list (Dual.t Scalar)) : forall n i,
  seed s (s + n) inputs !! i
  = if decide (s <= i < s + n)%nat
    then (fun d => Dual.mk (Dual.a d) (<[(i - s)%nat := s_one]> (Dual.v d)))
           <$> inputs !! i
    else inputs !! i.
Proof.
  unfold seed. intros n. replace (s + n - s)%nat with n by lia.
  induction n as [|n IH]; intros i.
  - simpl. case_decide; [lia|reflexivity].
  - rewrite seq_S, foldl_app. cbn [foldl].
    destruct (decide (i = (s + n)%nat)) as [->|Hne].
    + rewrite list_lookup_alter_eq, IH.
      rewrite decide_False by lia. rewrite decide_True by lia. reflexivity.
    + rewrite list_lookup_alter_ne by congruence. rewrite IH.
      repeat case_decide; try lia; reflexivity.
Qed.

Lemma sweep_done order fuel tree dataset range s inputs outputs jac :
  (length inputs <= s)%nat ->
  sweep DIMENSION interpreter_ order fuel tree dataset range s inputs outputs jac
  = Some jac.
Proof.
  intros Hs. destruct fuel; cbn [sweep];
    (destruct (Nat.leb_spec (length inputs) s); [reflexivity|lia]).
Qed.

Lemma sweep_step order fuel tree dataset range s inputs outputs jac :
  (s < length inputs)%nat ->
  sweep DIMENSION interpreter_ order (S fuel) tree dataset range s inputs outputs jac
  = outputs' ← interpreter_ tree dataset range outputs
                 (seed s (Nat.min (length inputs) (s + DIMENSION)) inputs);
    if (length outputs' =? length outputs)%nat
    then sweep DIMENSION interpreter_ order fuel tree dataset range (s + DIMENSION)
           (seed s (Nat.min (length inputs) (s + DIMENSION)) inputs) outputs'
           (scatter order (length outputs) (length inputs) s
              (Nat.min (length inputs) (s + DIMENSION)) outputs' jac)
    else None.
Proof.
  intros Hs. cbn [sweep].
  destruct (Nat.leb_spec (length inputs) s); [lia|reflexivity].
Qed.

End SweepSteps.

(** ** [Intersect1]: the probe and the blocks it skips *)

(** Equal last lanes make the probe answer false. *)
Lemma probe_lane3 (p q : list Z) (i j : nat) (a b : Z) :
  p !! (i + 3)%nat = Some a -> q !! (j + 3)%nat = Some b ->
  probe_nullintersect_fast p i q j = Some true -> a <> b.
Proof.
  intros Ha Hb. unfold probe_nullintersect_fast, _mm256_load_si256.
  rewrite Ha, Hb.
  destruct (p !! i) as [a0|]; [|discriminate].
  destruct (p !! (i + 1)%nat) as [a1|]; [|discriminate].
  destruct (p !! (i + 2)%nat) as [a2|]; [|discriminate].
  destruct (q !! j) as [b0|]; [|discriminate].
  destruct (q !! (j + 1)%nat) as [b1|]; [|discriminate].
  destruct (q !! (j + 2)%nat) as [b2|]; [|discriminate].
  cbn [mbind option_bind]. intros H E. subst b.
  assert (Hz : _mm256_is_zero (_mm256_cmpeq_epi64 (mk256 a0 a1 a2 a) (mk256 b0 b1 b2 a))
               = false).
  { unfold _mm256_is_zero, _mm256_testz_si256, _mm256_cmpeq_epi64, lanes.
    cbn [q0 q1 q2 q3 zip_with forallb]. rewrite Z.eqb_refl.
    change (Z.land (2 ^ 64 - 1) (2 ^ 64 - 1) =? 0) with false.
    now rewrite !andb_false_r. }
  rewrite Hz in H. discriminate.
Qed.

Section ProbeLoop.

Variables lhs rhs : list Z.

(** The probing loop ends, at positions within the two vectors. *)
Lemma Intersect1_probe_loop_total (lt rt : nat) : forall fuel i j,
  (lt <= length lhs)%nat -> (rt <= length rhs)%nat ->
  (i <= lt)%nat -> (j <= rt)%nat ->
  (exists a, lt = (4 * a)%nat) -> (exists b, rt = (4 * b)%nat) ->
  (exists a, i = (4 * a)%nat) -> (exists b, j = (4 * b)%nat) ->
  (lt - i + (rt - j) <= 4 * fuel)%nat ->
  exists i' j', Intersect1_probe_loop fuel lhs rhs lt rt i j = Some (i', j') /\
                (i' <= length lhs)%nat /\ (j' <= length rhs)%nat.
Proof.
  induction fuel as [|fuel IH];
    intros i j Hlt Hrt Hi Hj [ka Hka] [kb Hkb] [ia Hia] [jb Hjb] Hfuel;
    cbn [Intersect1_probe_loop].
  - destruct (Nat.ltb_spec i lt), (Nat.ltb_spec j rt); cbn [andb];
      try (exists i, j; split; [reflexivity|lia]). lia.
  - destruct (Nat.ltb_spec i lt), (Nat.ltb_spec j rt); cbn [andb];
      try (exists i, j; split; [reflexivity|lia]).
    assert (Hi3 : (i + 3 < length lhs)%nat) by lia.
    assert (Hj3 : (j + 3 < length rhs)%nat) by lia.
    destruct (lookup_lt_is_Some_2 lhs (i + 3) Hi3) as [a Ha].
    destruct (lookup_lt_is_Some_2 rhs (j + 3) Hj3) as [b Hb].
    destruct (probe_nullintersect_fast lhs i rhs j) as [[|]|] eqn:Hprobe;
      cbn [mbind option_bind].
    + rewrite Ha, Hb. cbn [mbind option_bind].
      pose proof (probe_lane3 lhs rhs i j a b Ha Hb Hprobe) as Hne.
      destruct (Z.ltb_spec a b), (Z.ltb_spec b a); try lia.
      * apply IH; [lia|lia|lia|lia|eauto|eauto| |exists jb; lia|lia].
        exists (ia + 1)%nat; lia.
      * apply IH; [lia|lia|lia|lia|eauto|eauto|exists ia; lia| |lia].
        exists (jb + 1)%nat; lia.
    + exists i, j. split; [reflexivity|lia].
    + exfalso. unfold probe_nullintersect_fast, _mm256_load_si256 in Hprobe.
      destruct (lookup_lt_is_Some_2 lhs i ltac:(lia)) as [x0 E0].
      destruct (lookup_lt_is_Some_2 lhs (i + 1) ltac:(lia)) as [x1 E1].
      destruct (lookup_lt_is_Some_2 lhs (i + 2) ltac:(lia)) as [x2 E2].
      destruct (lookup_lt_is_Some_2 rhs j ltac:(lia)) as [y0 F0].
      destruct (lookup_lt_is_Some_2 rhs (j + 1) ltac:(lia)) as [y1 F1].
      destruct (lookup_lt_is_Some_2 rhs (j + 2) ltac:(lia)) as [y2 F2].
      rewrite E0, E1, E2, Ha, F0, F1, F2, Hb in Hprobe.
      cbn [mbind option_bind] in Hprobe.
      repeat match type of Hprobe with
             | (if ?c then _ else _) = None => destruct c
             end; discriminate.
Qed.

(** Within the vectors, the guards of the two counting loops agree. *)
Lemma Intersect1_loop_Intersect2 (lm rm : Z) : forall fuel i j count,
  (i <= length lhs)%nat -> (j <= length rhs)%nat ->
  Intersect1_loop fuel lhs rhs lm rm i j count
  = Intersect2_loop fuel lhs rhs lm rm i j count.
Proof.
  induction fuel as [|fuel IH]; intros i j count Hi Hj;
    cbn [Intersect1_loop Intersect2_loop].
  - destruct (Nat.ltb_spec i (length lhs)), (Nat.eqb_spec i (length lhs)),
             (Nat.ltb_spec j (length rhs)), (Nat.eqb_spec j (length rhs));
      cbn [negb andb]; try lia; reflexivity.
  - destruct (Nat.ltb_spec i (length lhs)), (Nat.eqb_spec i (length lhs)),
             (Nat.ltb_spec j (length rhs)), (Nat.eqb_spec j (length rhs));
      cbn [negb andb]; try lia; try reflexivity.
    destruct (lhs !! i) as [a|]; [|reflexivity].
    destruct (rhs !! j) as [b|]; [|reflexivity]. cbn [mbind option_bind].
    destruct ((a >? rm) || (b >? lm)); [reflexivity|].
    apply IH; destruct (a <=? b), (a >=? b); lia.
Qed.

End ProbeLoop.

Lemma inter_drop_size (lhs rhs : list Z) (i j : nat) :
  (size (list_to_set_disj (drop i lhs) ∩ list_to_set_disj (drop j rhs) : gmultiset Z)
   <= size (list_to_set_disj lhs ∩ list_to_set_disj rhs : gmultiset Z))%nat.
Proof.
  apply gmultiset_subseteq_size. intros x.
  rewrite !multiplicity_intersection.
  rewrite <- (take_drop i lhs) at 2. rewrite <- (take_drop j rhs) at 2.
  rewrite !list_to_set_disj_app, !multiplicity_disj_union. lia.
Qed.

Lemma block_multiple (n : nat) :
  (n / 4 * 4 <= n)%nat /\ (exists a, (n / 4 * 4)%nat = (4 * a)%nat) /\
  ((n < 4)%nat -> (n / 4 * 4)%nat = 0%nat).
Proof.
  pose proof (Nat.div_mod_eq n 4) as Hdm.
  split; [lia|]. split; [exists (n / 4)%nat; lia|].
  intros Hn. rewrite Nat.div_small by lia. reflexivity.
Qed.

(** X19.  [Intersect1] against [Intersect2] on two non-empty vectors sorted
    in ascending order: both return, the block-skipping [Intersect1] never
    counts more than [Intersect2], and when one of the vectors has fewer
    than four elements, so that no block is probed, the two counts are the
    same. *)
Theorem Intersect1_never_overcounts :
  forall lhs rhs : list Z,
    Sorted Z.le lhs -> Sorted Z.le rhs ->
    (0 < length lhs)%nat -> (0 < length rhs)%nat ->
    exists c1 c2 : nat,
      Intersect1 lhs rhs = Some c1 /\
      Intersect2 lhs rhs = Some c2 /\
      (c1 <= c2)%nat /\
      ((length lhs < 4)%nat \/ (length rhs < 4)%nat -> c1 = c2).
Proof.
  intros lhs rhs Hl Hr Hln Hrn.
  apply Sorted_StronglySorted in Hl; [|intros x y z; lia].
  apply Sorted_StronglySorted in Hr; [|intros x y z; lia].
  destruct (last lhs) as [lm|] eqn:Elm;
    [|apply last_None_nil in Elm; subst lhs; simpl in Hln; lia].
  destruct (last rhs) as [rm|] eqn:Erm;
    [|apply last_None_nil in Erm; subst rhs; simpl in Hrn; lia].
  destruct (block_multiple (length lhs)) as (Hlt & Hla & Hl0).
  destruct (block_multiple (length rhs)) as (Hrt & Hra & Hr0).
  destruct (Intersect1_probe_loop_total lhs rhs
              (length lhs / 4 * 4) (length rhs / 4 * 4)
              (length lhs / 4 * 4 + length rhs / 4 * 4) 0 0)
    as (i0 & j0 & Hprobe & Hi0 & Hj0);
    [lia | lia | lia | lia | exact Hla | exact Hra
    | exists 0%nat; lia | exists 0%nat; lia | lia |].
  exists (size (list_to_set_disj (drop i0 lhs) ∩
                list_to_set_disj (drop j0 rhs) : gmultiset Z)),
         (size (list_to_set_disj lhs ∩ list_to_set_disj rhs : gmultiset Z)).
  split; [|split; [|split]].
  - unfold Intersect1. rewrite Hprobe. cbn [mbind option_bind].
    rewrite Elm, Erm. cbn [mbind option_bind].
    rewrite Intersect1_loop_Intersect2 by assumption.
    rewrite (Intersect2_loop_sorted lhs rhs lm rm Hl Hr Elm Erm) by lia.
    reflexivity.
  - unfold Intersect2. rewrite Elm, Erm. cbn [mbind option_bind].
    rewrite (Intersect2_loop_sorted lhs rhs lm rm Hl Hr Elm Erm) by lia.
    reflexivity.
  - apply inter_drop_size.
  - intros Hsmall.
    assert (E0 : i0 = 0%nat /\ j0 = 0%nat).
    { destruct (length lhs / 4 * 4 + length rhs / 4 * 4)%nat as [|fuel];
        cbn [Intersect1_probe_loop] in Hprobe;
        destruct Hsmall as [Hs|Hs];
        [ rewrite (Hl0 Hs) in Hprobe | rewrite (Hr0 Hs) in Hprobe
        | rewrite (Hl0 Hs) in Hprobe | rewrite (Hr0 Hs) in Hprobe ];
        cbn [Nat.ltb Nat.leb andb] in Hprobe;
        rewrite ?andb_false_r in Hprobe; injection Hprobe as <- <-; auto. }
    destruct E0 as [-> ->]. reflexivity.
Qed.

Lemma Intersect1_never_overcounts_witness :
  exists c1 c2 : nat,
    Intersect1 [1; 2; 3; 4; 10; 11] [3; 5; 6; 7; 10] = Some c1 /\
    Intersect2 [1; 2; 3; 4; 10; 11] [3; 5; 6; 7; 10] = Some c2 /\
    (c1 <= c2)%nat /\
    ((length [1; 2; 3; 4; 10; 11] < 4)%nat \/ (length [3; 5; 6; 7; 10] < 4)%nat ->
     c1 = c2).
Proof.
  apply (Intersect1_never_overcounts [1; 2; 3; 4; 10; 11] [3; 5; 6; 7; 10]).
  - repeat (constructor; try lia).
  - repeat (constructor; try lia).
  - simpl. lia.
  - simpl. lia.
Defined.

(** ** What the probe compares *)

Lemma is_zero_cmpeq (x y : m256i) :
  _mm256_is_zero (_mm256_cmpeq_epi64 x y)
  = negb (q0 x =? q0 y) && negb (q1 x =? q1 y) &&
    negb (q2 x =? q2 y) && negb (q3 x =? q3 y).
Proof.
  unfold _mm256_is_zero, _mm256_testz_si256, _mm256_cmpeq_epi64, lanes.
  cbn [q0 q1 q2 q3 zip_with forallb].
  destruct (q0 x =? q0 y), (q1 x =? q1 y), (q2 x =? q2 y), (q3 x =? q3 y);
    reflexivity.
Qed.

Section SmallHashes.

Variables b0 b1 b2 b3 : Z.
Hypothesis H0 : 0 < b0 < 2 ^ 32.
Hypothesis H1 : 0 < b1 < 2 ^ 32.
Hypothesis H2 : 0 < b2 < 2 ^ 32.
Hypothesis H3 : 0 < b3 < 2 ^ 32.

Lemma epi32_small :
  epi32 (mk256 b0 b1 b2 b3) = [b0; 0; b1; 0; b2; 0; b3; 0].
Proof.
  unfold epi32, lanes. cbn [q0 q1 q2 q3 mbind list_bind app].
  rewrite !Z.mod_small, !Z.div_small by lia. reflexivity.
Qed.

(** With hashes below [2^32] the shuffles by one and by three 32-bit
    elements move a low half into a high half; the shuffle by two exchanges
    the two lanes of each 128-bit half. *)
Lemma shuffle_small :
  _mm256_shuffle_epi32 (mk256 b0 b1 b2 b3) shift_one
    = mk256 (2 ^ 32 * b1) (2 ^ 32 * b0) (2 ^ 32 * b3) (2 ^ 32 * b2) /\
  _mm256_shuffle_epi32 (mk256 b0 b1 b2 b3) shift_two = mk256 b1 b0 b3 b2 /\
  _mm256_shuffle_epi32 (mk256 b0 b1 b2 b3) shift_thr
    = mk256 (2 ^ 32 * b0) (2 ^ 32 * b1) (2 ^ 32 * b2) (2 ^ 32 * b3).
Proof.
  unfold _mm256_shuffle_epi32. rewrite epi32_small.
  cbn [take drop fmap list_fmap app]. unfold SELECT4.
  repeat match goal with
         | |- context [Z.to_nat ?t] =>
             let v := eval vm_compute in (Z.to_nat t) in
             change (Z.to_nat t) with v
         end.
  unfold of_epi32. cbn [nth].
  repeat split; f_equal; lia.
Qed.

End SmallHashes.

(** X20.  What [probe_nullintersect_fast] compares.  [_mm256_shuffle_epi32]
    moves 32-bit elements inside each 128-bit half, so on hashes below
    [2^32] (and not zero) the four comparisons of the probe test lane [k]
    of the first block against lanes [k] and [k xor 1] of the second block
    only: the eight pairs across the two halves are never compared.  When
    the probe finds nothing, [Intersect1] skips a block, and on two
    vectors of four hashes it returns 0 whatever the two halves share. *)
Theorem probe_compares_within_halves :
  forall a0 a1 a2 a3 b0 b1 b2 b3 : Z,
    Forall (fun x => 0 < x < 2 ^ 32) [a0; a1; a2; a3; b0; b1; b2; b3] ->
    let found_nothing :=
      negb (a0 =? b0) && negb (a1 =? b1) && negb (a2 =? b2) && negb (a3 =? b3) &&
      (negb (a0 =? b1) && negb (a1 =? b0) && negb (a2 =? b3) && negb (a3 =? b2)) in
    probe_nullintersect_fast [a0; a1; a2; a3] 0 [b0; b1; b2; b3] 0
      = Some found_nothing /\
    (found_nothing = true ->
     Intersect1 [a0; a1; a2; a3] [b0; b1; b2; b3] = Some 0%nat).
Proof.
  intros a0 a1 a2 a3 b0 b1 b2 b3 Hall found_nothing.
  repeat match goal with
         | H : Forall _ (_ :: _) |- _ =>
             let Hx := fresh "Hx" in apply Forall_cons in H as [Hx H]
         end.
  destruct (shuffle_small b0 b1 b2 b3) as (S1 & S2 & S3); try assumption.
  assert (Hprobe : probe_nullintersect_fast [a0; a1; a2; a3] 0 [b0; b1; b2; b3] 0
                   = Some found_nothing).
  { unfold probe_nullintersect_fast, _mm256_load_si256.
    cbn [lookup list_lookup Nat.add mbind option_bind].
    rewrite S1, S2, S3, !is_zero_cmpeq. cbn [q0 q1 q2 q3].
    replace (a0 =? 2 ^ 32 * b1) with false by (symmetry; apply Z.eqb_neq; lia).
    replace (a1 =? 2 ^ 32 * b0) with false by (symmetry; apply Z.eqb_neq; lia).
    replace (a2 =? 2 ^ 32 * b3) with false by (symmetry; apply Z.eqb_neq; lia).
    replace (a3 =? 2 ^ 32 * b2) with false by (symmetry; apply Z.eqb_neq; lia).
    replace (a0 =? 2 ^ 32 * b0) with false by (symmetry; apply Z.eqb_neq; lia).
    replace (a1 =? 2 ^ 32 * b1) with false by (symmetry; apply Z.eqb_neq; lia).
    replace (a2 =? 2 ^ 32 * b2) with false by (symmetry; apply Z.eqb_neq; lia).
    replace (a3 =? 2 ^ 32 * b3) with false by (symmetry; apply Z.eqb_neq; lia).
    cbn [negb andb]. subst found_nothing.
    destruct (negb (a0 =? b0) && negb (a1 =? b1) && negb (a2 =? b2) && negb (a3 =? b3));
      cbn [negb andb]; [|reflexivity].
    destruct (negb (a0 =? b1) && negb (a1 =? b0) && negb (a2 =? b3) && negb (a3 =? b2));
      reflexivity. }
  split; [exact Hprobe|].
  intros Hfound. rewrite Hfound in Hprobe.
  assert (Hne : a3 <> b3).
  { subst found_nothing. rewrite !andb_true_iff in Hfound.
    destruct Hfound as [[_ Hfound] _].
    apply negb_true_iff, Z.eqb_neq in Hfound. exact Hfound. }
  unfold Intersect1. cbn [length].
  change (4 / 4 * 4)%nat with 4%nat.
  cbn [Nat.add Intersect1_probe_loop Nat.ltb Nat.leb andb].
  rewrite Hprobe. cbn [mbind option_bind lookup list_lookup].
  destruct (Z.ltb_spec a3 b3), (Z.ltb_spec b3 a3); try lia;
    cbn [Nat.mul Nat.add Intersect1_probe_loop Nat.ltb Nat.leb andb
         mbind option_bind last Intersect1_loop length];
    reflexivity.
Qed.

Lemma probe_compares_within_halves_witness :
  probe_nullintersect_fast [1; 2; 3; 4] 0 [3; 5; 6; 7] 0 = Some true /\
  Intersect1 [1; 2; 3; 4] [3; 5; 6; 7] = Some 0%nat /\
  Intersect2 [1; 2; 3; 4] [3; 5; 6; 7] = Some 1%nat.
Proof.
  destruct (probe_compares_within_halves 1 2 3 4 3 5 6 7) as [Hprobe Hzero].
  - repeat (constructor; try lia).
  - split; [exact Hprobe|]. split; [|reflexivity].
    apply Hzero. reflexivity.
Defined.

(** ** Where [Evaluate] leaves its contract *)

Section Violations.

Context {Scalar T : Type} {FO : FieldOps T} {SF : ScalarFns T}.
Variable cast : Scalar -> T.

Lemma params_from_enough (prm : list T) : forall (nodes : list (Node Scalar)) idx ps,
  params_from cast (Some prm) nodes idx = Some ps ->
  length (filter (fun n => Optimize n = true) nodes) = 0%nat \/
  (idx + length (filter (fun n => Optimize n = true) nodes) <= length prm)%nat.
Proof.
  induction nodes as [|n l IH]; intros idx ps H; [left; reflexivity|].
  cbn [params_from] in H. rewrite filter_cons.
  destruct (Optimize n) eqn:E.
  - rewrite decide_True by reflexivity. right.
    destruct (prm !! idx) as [p|] eqn:Ep; [|discriminate].
    apply lookup_lt_Some in Ep. cbn [mbind option_bind] in H.
    destruct (params_from cast (Some prm) l (S idx)) as [ps'|] eqn:E'; [|discriminate].
    destruct (IH _ _ E') as [H0|Hle]; simpl; lia.
  - rewrite decide_False by discriminate.
    destruct (params_from cast (Some prm) l idx) as [ps'|] eqn:E'; [|discriminate].
    exact (IH _ _ E').
Qed.

Lemma views_all (dataset : Dataset (Scalar := Scalar)) range
    (nodes : list (Node Scalar)) vs n :
  mapM (view_of dataset range) nodes = Some vs -> In n nodes ->
  is_Some (view_of dataset range n).
Proof.
  intros H Hin. assert (Hs : is_Some (mapM (view_of dataset range) nodes)) by eauto.
  apply mapM_is_Some in Hs. rewrite Forall_forall in Hs.
  apply Hs. now apply list_elem_of_In.
Qed.

Lemma Evaluate_span_Some W uninit ftable (tree : list (Node Scalar))
    dataset range result parameters out :
  Evaluate_span cast W uninit ftable tree dataset range result parameters = Some out ->
  tree <> [] /\
  (exists ps, params_from cast parameters tree 0 = Some ps) /\
  (exists vs, mapM (view_of dataset range) tree = Some vs).
Proof.
  rewrite Evaluate_span_cases.
  destruct (Nat.eqb_spec (length tree) 0) as [|Hne]; [discriminate|].
  destruct (Z.leb_spec (2 ^ 31) (Z.of_nat (Size range))); [discriminate|].
  rewrite setup_eq.
  destruct (params_from cast parameters tree 0) as [ps|]; [|discriminate].
  cbn [mbind option_bind].
  destruct (mapM (view_of dataset range) tree) as [vs|]; [|discriminate].
  intros _. split; [|eauto].
  intros ->. apply Hne. reflexivity.
Qed.

End Violations.

(** X21.  What a successful call implies, and so which inputs make
    [Evaluate] fail: the tree is not empty ([EXPECT]), the column of every
    variable of the tree is known to the dataset and covers the range, and
    the parameter vector, when one is passed and some node is
    optimize-marked, has an entry for every such node. *)
Theorem Evaluate_success_implies_contract :
  forall (Scalar T : Type) (FO : FieldOps T) (SF : ScalarFns T)
         (cast : Scalar -> T) (W : nat) (uninit : nat -> nat -> T)
         (ftable : DTable (Scalar := Scalar) (T := T))
         (tree : list (Node Scalar)) (dataset : Dataset (Scalar := Scalar))
         (range : Range) (parameters : option (list T)) (out : list T),
    Evaluate cast W uninit ftable tree dataset range parameters = Some out ->
    tree <> [] /\
    (forall n, In n tree -> IsVariable n = true ->
       exists column, dataset (HashValue n) = Some column /\
                      (Start range + Size range <= length column)%nat) /\
    (forall prm, parameters = Some prm ->
       Exists (fun n => Optimize n = true) tree ->
       (length (filter (fun n => Optimize n = true) tree) <= length prm)%nat).
Proof.
  intros Scalar T FO SF cast W uninit ftable tree dataset range parameters out H.
  unfold Evaluate in H.
  apply Evaluate_span_Some in H as (Hne & [ps Hps] & [vs Hvs]).
  split; [exact Hne|]. split.
  - intros n Hin Hvar.
    destruct (views_all dataset range tree vs n Hvs Hin) as [v Hv].
    unfold view_of in Hv. rewrite Hvar in Hv.
    destruct (dataset (HashValue n)) as [column|]; [|discriminate].
    cbn [mbind option_bind] in Hv. apply segment_Some in Hv as (_ & Hle & _).
    eauto.
  - intros prm -> Hex.
    destruct (params_from_enough cast prm tree 0 ps Hps) as [H0|Hle]; [|exact Hle].
    exfalso. apply Exists_exists in Hex as (n & Hin & Hopt).
    assert (Hf : n ∈ filter (fun n => Optimize n = true) tree).
    { apply list_elem_of_filter. split; [exact Hopt|]. exact Hin. }
    destruct (filter (fun n => Optimize n = true) tree); [inversion Hf|discriminate].
Qed.

Lemma Evaluate_success_implies_contract_witness :
  nested_tree <> [] /\
  (forall n, In n nested_tree -> IsVariable n = true ->
     exists column, example_data (HashValue n) = Some column /\
                    (Start (mkRange 1 4) + Size (mkRange 1 4) <= length column)%nat) /\
  (forall prm, Some [4] = Some prm ->
     Exists (fun n => Optimize n = true) nested_tree ->
     (length (filter (fun n => Optimize n = true) nested_tree) <= length prm)%nat).
Proof.
  apply (Evaluate_success_implies_contract Z Z _ _ id 2 (fun _ _ => 77)
           default_table nested_tree example_data (mkRange 1 4) (Some [4])
           [88; 132; 176]).
  vm_compute. reflexivity.
Defined.

(** ** The derivative calculator, sweep by sweep *)

Section AllSweeps.

Context {Scalar Tree Data : Type} {SF : ScalarFns Scalar}.
Variable DIMENSION : nat.
Variable interpreter_ : Interpreter_t (Scalar := Scalar) (Tree := Tree) (Data := Data).
Variable order : StorageOrder.
Variable tree : Tree.
Variable dataset : Data.
Variable coeff : list Scalar.
Variable range : Range.

Hypothesis HD : (0 < DIMENSION)%nat.

Local Open Scope nat_scope.

Lemma div_chunk (c i : nat) :
  c * DIMENSION <= i < c * DIMENSION + DIMENSION ->
  i / DIMENSION = c /\ i mod DIMENSION = i - c * DIMENSION.
Proof.
  intros Hi.
  assert (Hq : i / DIMENSION = c).
  { symmetry. apply Nat.div_unique with (r := i - c * DIMENSION); lia. }
  split; [exact Hq|].
  pose proof (Nat.div_mod_eq i DIMENSION) as Hdm. rewrite Hq in Hdm. lia.
Qed.

(** Seeding chunk [c] on top of the seeds of the chunks before it. *)
Lemma seed_seeded (c : nat) :
  c * DIMENSION < length coeff ->
  seed (c * DIMENSION) (Nat.min (length coeff) (c * DIMENSION + DIMENSION))
    (seeded_inputs DIMENSION coeff (Nat.min (length coeff) (c * DIMENSION)))
  = seeded_inputs DIMENSION coeff (Nat.min (length coeff) ((c + 1) * DIMENSION)).
Proof.
  intros Hc. set (s := c * DIMENSION) in *.
  set (r := Nat.min (length coeff) (s + DIMENSION)).
  replace ((c + 1) * DIMENSION) with (s + DIMENSION) by (subst s; lia). fold r.
  replace r with (s + (r - s)) at 1 by (subst r; lia).
  apply list_eq. intros i. rewrite seed_lookup.
  unfold seeded_inputs. rewrite !list_lookup_imap.
  destruct (coeff !! i) as [x|] eqn:E; [|case_decide; reflexivity].
  apply lookup_lt_Some in E. cbn [fmap option_fmap option_map].
  case_decide as Hi.
  - cbn [Dual.a Dual.v]. f_equal. f_equal.
    destruct (Nat.ltb_spec i (Nat.min (length coeff) s)); [lia|].
    destruct (Nat.ltb_spec i r); [|lia].
    f_equal. subst s.
    destruct (div_chunk c i) as [_ Hm]; [subst r; lia|]. now rewrite Hm.
  - f_equal. f_equal.
    destruct (Nat.ltb_spec i (Nat.min (length coeff) s)),
             (Nat.ltb_spec i r); try reflexivity; subst r; lia.
Qed.

(** The entries a run of sweeps leaves in the Jacobian, entered at chunk
    [c] with the outputs of the sweep before. *)
Lemma sweep_entries : forall fuel c outputs jac jac',
  length outputs = Size range ->
  length jac = Size range * length coeff ->
  match c with
  | O => Some (replicate (Size range) (Dual.mk s_zero (replicate DIMENSION s_zero)))
  | S c' => sweep_outputs DIMENSION interpreter_ tree dataset coeff range c'
  end = Some outputs ->
  sweep DIMENSION interpreter_ order fuel tree dataset range (c * DIMENSION)
    (seeded_inputs DIMENSION coeff (Nat.min (length coeff) (c * DIMENSION)))
    outputs jac = Some jac' ->
  length jac' = Size range * length coeff /\
  (forall r i, r < Size range -> i < Nat.min (length coeff) (c * DIMENSION) ->
     jac' !! jac_index order (Size range) (length coeff) r i
     = jac !! jac_index order (Size range) (length coeff) r i) /\
  (forall r i, r < Size range -> c * DIMENSION <= i < length coeff ->
     exists outs jet,
       sweep_outputs DIMENSION interpreter_ tree dataset coeff range (i / DIMENSION)
         = Some outs /\
       outs !! r = Some jet /\
       jac' !! jac_index order (Size range) (length coeff) r i
       = Some (lane jet (i mod DIMENSION))).
Proof.
  induction fuel as [|fuel IH]; intros c outputs jac jac' Hout Hjac Hprev Hsweep.
  - cbn [sweep] in Hsweep. unfold seeded_inputs in Hsweep.
    rewrite length_imap in Hsweep.
    destruct (Nat.leb_spec (length coeff) (c * DIMENSION)); [|discriminate].
    injection Hsweep as <-. split; [exact Hjac|]. split; [reflexivity|].
    intros r i _ Hi. lia.
  - destruct (Nat.le_gt_cases (length coeff) (c * DIMENSION)) as [Hdone|Hmore].
    + rewrite sweep_done in Hsweep
        by (unfold seeded_inputs; rewrite length_imap; exact Hdone).
      injection Hsweep as <-. split; [exact Hjac|]. split; [reflexivity|].
      intros r i _ Hi. lia.
    + rewrite sweep_step in Hsweep
        by (unfold seeded_inputs; rewrite length_imap; exact Hmore).
      assert (Hlen_in : forall u, length (seeded_inputs DIMENSION coeff u) = length coeff)
        by (intros u; unfold seeded_inputs; apply length_imap).
      rewrite Hlen_in, seed_seeded in Hsweep by exact Hmore.
      assert (Hso : sweep_outputs DIMENSION interpreter_ tree dataset coeff range c
                    = interpreter_ tree dataset range outputs
                        (seeded_inputs DIMENSION coeff
                           (Nat.min (length coeff) ((c + 1) * DIMENSION)))).
      { destruct c as [|c']; cbn [sweep_outputs]; rewrite Hprev; reflexivity. }
      rewrite <- Hso in Hsweep.
      destruct (sweep_outputs DIMENSION interpreter_ tree dataset coeff range c)
        as [outputs'|] eqn:Eout; [|discriminate].
      cbn [mbind option_bind] in Hsweep.
      destruct (Nat.eqb_spec (length outputs') (length outputs)) as [Elen|];
        [|discriminate].
      set (r1 := Nat.min (length coeff) (c * DIMENSION + DIMENSION)) in *.
      set (jac1 := scatter order (length outputs) (length coeff) (c * DIMENSION) r1
                     outputs' jac) in *.
      replace (c * DIMENSION + DIMENSION) with (S c * DIMENSION) in Hsweep by lia.
      replace ((c + 1) * DIMENSION) with (S c * DIMENSION) in Hsweep by lia.
      destruct (IH (S c) outputs' jac1 jac') as (Hl' & Hold & Hnew).
      * lia.
      * subst jac1. rewrite scatter_length. exact Hjac.
      * exact Eout.
      * exact Hsweep.
      * assert (Hscatter : forall r i jet, r < Size range -> i < length coeff ->
                  outputs' !! r = Some jet ->
                  jac1 !! jac_index order (Size range) (length coeff) r i
                  = if decide (c * DIMENSION <= i < r1)
                    then Some (lane jet (i - c * DIMENSION))
                    else jac !! jac_index order (Size range) (length coeff) r i).
        { intros r i jet Hr Hi Hjet. subst jac1. rewrite Hout.
          destruct order; cbn [scatter jac_index].
          - apply (scatter_col_lookup (Size range) (length coeff)); auto; subst r1; lia.
          - apply (scatter_row_lookup (Size range) (length coeff)); auto; subst r1; lia. }
        split; [exact Hl'|]. split.
        -- intros r i Hr Hi.
           destruct (lookup_lt_is_Some_2 outputs' r ltac:(lia)) as [jet Hjet].
           rewrite Hold by lia.
           rewrite (Hscatter r i jet) by (auto; lia).
           rewrite decide_False by lia. reflexivity.
        -- intros r i Hr Hi.
           destruct (Nat.lt_ge_cases i (S c * DIMENSION)) as [Hin|Hlater].
           ++ destruct (lookup_lt_is_Some_2 outputs' r ltac:(lia)) as [jet Hjet].
              destruct (div_chunk c i) as [Hq Hm]; [lia|].
              exists outputs', jet. rewrite Hq, Hm.
              split; [exact Eout|]. split; [exact Hjet|].
              rewrite Hold by lia.
              rewrite (Hscatter r i jet) by (auto; lia).
              rewrite decide_True by (subst r1; lia). reflexivity.
           ++ apply Hnew; [exact Hr|lia].
Qed.

(** The sweeps run to the end when every interpreter call returns a value
    for each row. *)
Lemma sweep_total : forall fuel c outputs jac,
  length coeff - c * DIMENSION <= fuel ->
  length outputs = Size range ->
  match c with
  | O => Some (replicate (Size range) (Dual.mk s_zero (replicate DIMENSION s_zero)))
  | S c' => sweep_outputs DIMENSION interpreter_ tree dataset coeff range c'
  end = Some outputs ->
  (forall c', c' * DIMENSION < length coeff ->
     exists outs,
       sweep_outputs DIMENSION interpreter_ tree dataset coeff range c' = Some outs /\
       length outs = Size range) ->
  is_Some (sweep DIMENSION interpreter_ order fuel tree dataset range (c * DIMENSION)
             (seeded_inputs DIMENSION coeff (Nat.min (length coeff) (c * DIMENSION)))
             outputs jac).
Proof.
  assert (Hlen_in : forall u, length (seeded_inputs DIMENSION coeff u) = length coeff)
    by (intros u; unfold seeded_inputs; apply length_imap).
  induction fuel as [|fuel IH]; intros c outputs jac Hfuel Hout Hprev Hall.
  - rewrite sweep_done by (rewrite Hlen_in; lia). eauto.
  - destruct (Nat.le_gt_cases (length coeff) (c * DIMENSION)) as [Hdone|Hmore].
    + rewrite sweep_done by (rewrite Hlen_in; lia). eauto.
    + rewrite sweep_step by (rewrite Hlen_in; exact Hmore).
      rewrite Hlen_in, seed_seeded by exact Hmore.
      assert (Hso : sweep_outputs DIMENSION interpreter_ tree dataset coeff range c
                    = interpreter_ tree dataset range outputs
                        (seeded_inputs DIMENSION coeff
                           (Nat.min (length coeff) ((c + 1) * DIMENSION)))).
      { destruct c as [|c']; cbn [sweep_outputs]; rewrite Hprev; reflexivity. }
      rewrite <- Hso.
      destruct (Hall c Hmore) as (outs & Eout & Hlo). rewrite Eout.
      cbn [mbind option_bind]. rewrite Hlo, Hout, Nat.eqb_refl.
      replace (c * DIMENSION + DIMENSION) with (S c * DIMENSION) by lia.
      replace ((c + 1) * DIMENSION) with (S c * DIMENSION) by lia.
      apply IH; [lia|exact Hlo|exact Eout|exact Hall].
Qed.

End AllSweeps.

(** X22.  The Jacobian, sweep by sweep, for any number of coefficients.
    Interpreter call number [c] (from 0) gets the outputs of the call
    before and inputs in which every coefficient [j < min(P, (c + 1) * D)]
    carries a seed in lane [j mod D]: the seeds of the chunks before [c] are
    still in place.  When each of these calls returns a value for each row,
    the calculator returns, and entry [(r, i)] of the Jacobian, in either
    storage order, is derivative lane [i mod D] of output row [r] of call
    number [i / D]. *)
Theorem Jacobian_entries_by_sweep :
  forall (Scalar Tree Data : Type) (SF : ScalarFns Scalar) (DIMENSION : nat)
         (interpreter_ : Interpreter_t (Scalar := Scalar))
         (order : StorageOrder) (tree : Tree) (dataset : Data)
         (coeff : list Scalar) (range : Range),
    (0 < DIMENSION)%nat ->
    Z.of_nat (length coeff + DIMENSION) < 2 ^ 32 ->
    (forall c : nat, (c * DIMENSION < length coeff)%nat ->
       exists outs : list (Dual.t Scalar),
         sweep_outputs DIMENSION interpreter_ tree dataset coeff range c = Some outs /\
         length outs = Size range) ->
    exists jac : list Scalar,
      Jacobian DIMENSION interpreter_ order tree dataset coeff range = Some jac /\
      length jac = (Size range * length coeff)%nat /\
      forall r i : nat, (r < Size range)%nat -> (i < length coeff)%nat ->
        exists (outs : list (Dual.t Scalar)) (jet : Dual.t Scalar),
          sweep_outputs DIMENSION interpreter_ tree dataset coeff range
            (i / DIMENSION) = Some outs /\
          outs !! r = Some jet /\
          jac !! jac_index order (Size range) (length coeff) r i
          = Some (lane jet (i mod DIMENSION)).
Proof.
  intros Scalar Tree Data SF DIMENSION interpreter_ order tree dataset coeff range
         HD Hbound Hall.
  unfold Jacobian.
  rewrite length_fmap, length_replicate.
  destruct (Z.leb_spec (2 ^ 32) (Z.of_nat (length coeff + DIMENSION))); [lia|].
  assert (Hin : (fun c => Dual.mk c (replicate DIMENSION s_zero)) <$> coeff
                = seeded_inputs DIMENSION coeff (Nat.min (length coeff) (0 * DIMENSION))).
  { unfold seeded_inputs. apply list_eq. intros i.
    rewrite list_lookup_fmap, list_lookup_imap.
    destruct (coeff !! i); [|reflexivity]. simpl.
    rewrite Nat.min_0_r. reflexivity. }
  rewrite Hin.
  destruct (sweep_total DIMENSION interpreter_ order tree dataset coeff range HD
              (length coeff) 0
              (replicate (Size range) (Dual.mk s_zero (replicate DIMENSION s_zero)))
              (replicate (Size range * length coeff) s_zero))
    as [jac HJ]; [lia|apply length_replicate|reflexivity|exact Hall|].
  exists jac. split; [exact HJ|].
  destruct (sweep_entries DIMENSION interpreter_ order tree dataset coeff range HD
              (length coeff) 0
              (replicate (Size range) (Dual.mk s_zero (replicate DIMENSION s_zero)))
              (replicate (Size range * length coeff) s_zero) jac)
    as (Hlen & _ & Hnew).
  - apply length_replicate.
  - apply length_replicate.
  - reflexivity.
  - exact HJ.
  - split; [exact Hlen|]. intros r i Hr Hi. apply Hnew; [exact Hr|lia].
Qed.

Lemma Jacobian_entries_by_sweep_witness :
  exists jac : list Z,
    example_jacobian 4 RowMajor sum5_tree example_data [1; 2; 3; 4; 5] (mkRange 0 2)
      = Some jac /\
    length jac = (Size (mkRange 0 2) * length [1; 2; 3; 4; 5])%nat /\
    forall r i : nat, (r < Size (mkRange 0 2))%nat -> (i < length [1; 2; 3; 4; 5])%nat ->
      exists (outs : list (Dual.t Z)) (jet : Dual.t Z),
        sweep_outputs 4 (example_dual_interpreter 4) sum5_tree example_data
          [1; 2; 3; 4; 5] (mkRange 0 2) (i / 4) = Some outs /\
        outs !! r = Some jet /\
        jac !! jac_index RowMajor (Size (mkRange 0 2)) (length [1; 2; 3; 4; 5]) r i
        = Some (lane jet (i mod 4)).
Proof.
  apply (Jacobian_entries_by_sweep Z (list (Node Z)) (Dataset (Scalar := Z)) _ 4
           (example_dual_interpreter 4) RowMajor sum5_tree example_data
           [1; 2; 3; 4; 5] (mkRange 0 2)).
  - lia.
  - simpl. lia.
  - intros c Hc. simpl in Hc.
    assert (Hc' : c = 0%nat \/ c = 1%nat) by lia.
    destruct Hc' as [-> | ->]; eexists; (split; [vm_compute; reflexivity|reflexivity]).
Defined.

(** ** The interpreter against the recursive value of the tree *)

Section Values.

Context {Scalar T : Type} {FO : FieldOps T} {SF : ScalarFns T}.
Variable cast : Scalar -> T.
Variable nodes : list (Node Scalar).
Variable ps : list T.
Variable dataset : Dataset (Scalar := Scalar).
Variable x : nat.

Hypothesis Hrep : representable nodes = true.
Hypothesis Hcons : consistent nodes = true.
Hypothesis Hwk : forallb well_kinded nodes = true.

(** More fuel does not change a value. *)
Lemma value_at_mono : forall fuel fuel' p v,
  (fuel <= fuel')%nat ->
  value_at cast fuel nodes ps dataset x p = Some v ->
  value_at cast fuel' nodes ps dataset x p = Some v.
Proof.
  induction fuel as [|fuel IH]; intros fuel' p v Hle H; [discriminate|].
  destruct fuel' as [|fuel']; [lia|].
  cbn [value_at] in *.
  destruct (at_ nodes p) as [n|]; [|discriminate]. cbn [mbind option_bind] in *.
  destruct (ps !! Z.to_nat p) as [prm|]; [|discriminate].
  cbn [mbind option_bind] in *.
  destruct (IsVariable n); [exact H|].
  destruct (kernel_kind (Type_ n)) as [k|]; [|exact H].
  destruct (children nodes p) as [cs|]; [|discriminate].
  cbn [mbind option_bind] in *.
  destruct (mapM (value_at cast fuel nodes ps dataset x) cs) as [vals|] eqn:E;
    [|discriminate].
  cbn [mbind option_bind] in H.
  assert (E' : mapM (value_at cast fuel' nodes ps dataset x) cs = Some vals).
  { apply mapM_Some. apply mapM_Some in E.
    eapply Forall2_impl; [exact E|]. intros c w Hc. simpl in *.
    apply (IH fuel' c w); [lia|exact Hc]. }
  rewrite E'. exact H.
Qed.

Lemma children_values i b (cs : list Z) (cols : list (list T)) :
  values_ok cast nodes ps dataset x i b ->
  Forall (fun c => 0 <= c < Z.of_nat i) cs ->
  mapM (at_ b) cs = Some cols ->
  exists vals, cols = (fun v => [v]) <$> vals /\
               mapM (value_at cast i nodes ps dataset x) cs = Some vals.
Proof.
  intros Hok Hcs Hcols. apply mapM_Some in Hcols.
  induction Hcols as [|c col cs cols Hc _ IH].
  - exists []. split; reflexivity.
  - inversion Hcs as [|? ? Hrange Hcs']; subst.
    destruct (IH Hcs') as (vals & -> & Hvals).
    destruct (Hok (Z.to_nat c) ltac:(lia)) as (v & Hb & Hv).
    apply at_Some in Hc as [_ Hc]. rewrite Hb in Hc. injection Hc as <-.
    rewrite Z2Nat.id in Hv by lia.
    exists (v :: vals). split; [reflexivity|].
    cbn [mapM]. rewrite (value_at_mono (S (Z.to_nat c)) i c v ltac:(lia) Hv).
    cbn [mbind option_bind]. rewrite Hvals. reflexivity.
Qed.

Lemma node_step_value vs rg i n mt b b1 :
  buffer_ok 1 nodes ps b ->
  values_ok cast nodes ps dataset x i b ->
  zip nodes (metas_of default_table nodes ps vs) !! i = Some (n, mt) ->
  (IsVariable n = true ->
     exists column xv, dataset (HashValue n) = Some column /\
                       column !! x = Some xv /\ meta_values mt = [xv]) ->
  node_step cast nodes rg 0 1 i n mt b = Some b1 ->
  values_ok cast nodes ps dataset x (S i) b1.
Proof.
  intros (Hlen & Hw & Hconst) Hok Hi Hview Hstep.
  apply metas_of_lookup in Hi as (p & v & Hn & Hp & Hv & ->).
  assert (Hib : (i < length b)%nat) by (rewrite Hlen; eapply lookup_lt_Some; eauto).
  assert (Hhead : forall w, value_at cast (S i) nodes ps dataset x (Z.of_nat i) = Some w ->
            forall g, g = [w] -> values_ok cast nodes ps dataset x (S i) (<[i := g]> b)).
  { intros w Hw' g -> j Hj. destruct (decide (j = i)) as [->|Hne].
    - exists w. split; [now apply list_lookup_insert_eq|exact Hw'].
    - rewrite list_lookup_insert_ne by congruence. apply Hok. lia. }
  assert (Hunfold : forall r,
            (if IsVariable n then
               column ← dataset (HashValue n); w ← column !! x;
               Some (f_mul p (cast w))
             else match kernel_kind (T := T) (Type_ n) with
                  | Some k =>
                      cs ← children nodes (Z.of_nat i);
                      vals ← mapM (value_at cast i nodes ps dataset x) cs;
                      g ← kernel_fn k ((fun v => [v]) <$> vals);
                      head g
                  | None => if IsConstant n then Some p else None
                  end) = r ->
            value_at cast (S i) nodes ps dataset x (Z.of_nat i) = r).
  { intros r <-. cbn [value_at]. rewrite at_of_nat, Hn. cbn [mbind option_bind].
    rewrite Nat2Z.id, Hp. reflexivity. }
  destruct (IsVariable n) eqn:Hvar.
  - unfold node_step in Hstep. rewrite Hvar in Hstep.
    destruct (b !! i) as [c|] eqn:Hc; [|discriminate]. simpl in Hstep.
    destruct (Hview eq_refl) as (column & xv & Hcol & Hxv & Hmv).
    simpl in Hmv. subst v. change (segment [xv] 0 1) with (Some [xv]) in Hstep.
    simpl in Hstep. injection Hstep as <-.
    apply (Hhead (f_mul p (cast xv))).
    + apply Hunfold. rewrite Hcol. cbn [mbind option_bind]. now rewrite Hxv.
    + rewrite Forall_forall in Hw.
      rewrite (drop_ge c); [reflexivity|].
      rewrite (Hw c); [lia|]. eapply list_elem_of_lookup_2; eauto.
  - destruct (kernel_kind (T := T) (Type_ n)) as [k0|] eqn:Hk0.
    + destruct (node_step_inner cast nodes Hrep Hcons Hwk rg 0%nat 1%nat i n p v b k0
                  Hn Hvar Hk0 Hlen)
        as (cs & cols & g & Hcs & Hrange & Hcols & Hg & Hs).
      rewrite Hs in Hstep. injection Hstep as <-.
      destruct (children_values i b cs cols Hok Hrange Hcols) as (vals & -> & Hvals).
      assert (Hgl : length g = 1%nat).
      { eapply kernel_fn_length; [|exact Hg].
        apply Forall_fmap, Forall_forall. intros w _. reflexivity. }
      destruct g as [|w [|w' g]]; try discriminate Hgl.
      apply (Hhead w); [|reflexivity].
      apply Hunfold. rewrite Hcs. cbn [mbind option_bind].
      rewrite Hvals. cbn [mbind option_bind]. rewrite Hg. reflexivity.
    + destruct (node_step_constant cast nodes Hwk rg 0%nat 1%nat i n p v b Hn Hvar Hk0)
        as [Hc Hs].
      rewrite Hs in Hstep. injection Hstep as <-.
      pose proof (Hconst _ _ _ Hn Hp Hc) as Hbi. simpl in Hbi.
      rewrite <- (list_insert_id b i [p] Hbi).
      apply (Hhead p); [|reflexivity].
      apply Hunfold. now rewrite Hc.
Qed.

Lemma node_loop_values vs rg :
  length ps = length nodes -> length vs = length nodes ->
  (forall j n v, nodes !! j = Some n -> vs !! j = Some v -> IsVariable n = true ->
     exists column xv, dataset (HashValue n) = Some column /\
                       column !! x = Some xv /\ v = [xv]) ->
  forall todo i b b',
    todo = drop i (zip nodes (metas_of default_table nodes ps vs)) ->
    buffer_ok 1 nodes ps b ->
    values_ok cast nodes ps dataset x i b ->
    node_loop cast nodes rg 0 1 todo i b = Some b' ->
    values_ok cast nodes ps dataset x (length nodes) b'.
Proof.
  intros Hps Hvs Hviews todo.
  induction todo as [|[n mt] todo IH]; intros i b b' Htodo Hok Hval Hloop.
  - assert (Hi : (length nodes <= i)%nat).
    { apply (f_equal length) in Htodo. simpl in Htodo.
      rewrite length_drop, length_zip, metas_of_length in Htodo by assumption. lia. }
    simpl in Hloop. injection Hloop as <-.
    intros j Hj. apply Hval. lia.
  - assert (Hi : zip nodes (metas_of default_table nodes ps vs) !! i = Some (n, mt)).
    { rewrite <- (Nat.add_0_r i), <- lookup_drop, <- Htodo. reflexivity. }
    pose proof Hi as Hi'.
    apply metas_of_lookup in Hi' as (p & v & Hn & Hp & Hv & ->).
    rewrite (drop_S _ _ _ Hi) in Htodo. injection Htodo as ->.
    simpl in Hloop.
    destruct (node_step cast nodes rg 0 1 i n _ b) as [b1|] eqn:Hs; [|discriminate].
    simpl in Hloop.
    assert (Hview : IsVariable n = true ->
              exists column xv, dataset (HashValue n) = Some column /\
                                column !! x = Some xv /\ v = [xv]).
    { intros Hvar. eapply Hviews; eauto. }
    destruct (node_step_ok cast nodes ps Hrep Hcons Hwk 1 vs rg 0 1 i n _ b
                Hok Hi (Nat.le_refl 1)) as (b1' & Hs' & Hok1).
    { intros Hvar. simpl. destruct (Hview Hvar) as (_ & xv & _ & _ & ->). simpl. lia. }
    rewrite Hs in Hs'. injection Hs' as <-.
    apply (IH (S i) b1 b' eq_refl Hok1); [|exact Hloop].
    apply (node_step_value vs rg i n _ b b1 Hok Hval Hi); [|exact Hs].
    intros Hvar. simpl. exact (Hview Hvar).
Qed.

End Values.



(** ** [HashTree] feeding [Intersect2] *)

(** X24.  The hash vector of a tree is in ascending order and holds the
    calculated hashes of the sorted tree, each as often as it occurs; so
    [Intersect2] on the hash vectors of two non-empty trees is defined and
    counts the calculated hashes the two trees have in common, with
    multiplicity, and [is_set] tells whether a tree has two nodes with the
    same calculated hash. *)
Theorem HashTree_sorted_for_Intersect2 :
  forall (Scalar : Type) (Sort : list (Node Scalar) -> list (Node Scalar))
         (t1 t2 : list (Node Scalar)),
    Sorted Z.le (HashTree Sort t1) /\
    HashTree Sort t1 ≡ₚ CalculatedHashValue <$> Sort t1 /\
    (is_set (HashTree Sort t1) = true <-> NoDup (CalculatedHashValue <$> Sort t1)) /\
    (Sort t1 <> [] -> Sort t2 <> [] ->
     Intersect2 (HashTree Sort t1) (HashTree Sort t2)
     = Some (size (list_to_set_disj (CalculatedHashValue <$> Sort t1) ∩
                   list_to_set_disj (CalculatedHashValue <$> Sort t2) : gmultiset Z))).
Proof.
  intros Scalar Sort t1 t2. unfold HashTree.
  assert (Hs : forall l : list Z, Sorted Z.le (merge_sort Z.le l))
    by (intros l; apply Sorted_merge_sort; apply _).
  assert (Hp : forall l : list Z, merge_sort Z.le l ≡ₚ l)
    by (intros l; apply merge_sort_Permutation).
  split; [apply Hs|]. split; [apply Hp|]. split.
  - destruct (is_set_iff_NoDup_aux (merge_sort Z.le (CalculatedHashValue <$> Sort t1))
                (Hs _)) as [H1 H2].
    split.
    + intros H. rewrite <- (Hp _). auto.
    + intros H. apply H2. rewrite (Hp _). exact H.
  - intros Hne1 Hne2.
    assert (Hlen : forall t : list (Node Scalar), Sort t <> [] ->
              (0 < length (merge_sort Z.le (CalculatedHashValue <$> Sort t)))%nat).
    { intros t Hne. rewrite (Hp _), length_fmap.
      destruct (Sort t); [congruence|simpl; lia]. }
    rewrite (Intersect2_sorted_multiset _ _ (Hs _) (Hs _) (Hlen _ Hne1) (Hlen _ Hne2)).
    now rewrite !(Hp _).
Qed.

(** ** [Prepare]: which distances reach the accumulator *)

Lemma nested_foldl_bind {S A B : Type} (g : S -> A -> B -> S)
    (h : A -> list B) (l : list A) (st : S) :
  foldl (fun st i => foldl (fun st' j => g st' i j) st (h i)) st l =
  foldl (fun st (p : A * B) => g st p.1 p.2) st
        (i ← l; (fun j => (i, j)) <$> h i).
Proof.
  revert st; induction l as [|i l IH]; intros st; [reflexivity|].
  cbn [foldl mbind list_bind]. rewrite foldl_app, foldl_fmap. cbn. apply IH.
Qed.

Lemma pairs_from_length (N m a : nat) :
  (a + m + 1 = N)%nat ->
  (2 * length (i ← seq a m; (fun j => (i, j)) <$> seq (i + 1) (N - (i + 1))) =
   m * (m + 1))%nat.
Proof.
  revert a; induction m as [|m IH]; intros a Ha; [reflexivity|].
  cbn [seq mbind list_bind]. rewrite length_app, length_fmap, length_seq.
  specialize (IH (S a) ltac:(lia)).
  change (list_bind ?f ?l) with (l ≫= f) in *. nia.
Qed.

Lemma all_pairs_length (N : nat) :
  (1 <= N)%nat -> (2 * length (all_pairs N) = N * (N - 1))%nat.
Proof.
  intros HN. unfold all_pairs.
  rewrite (pairs_from_length N (N - 1) 0) by lia.
  replace (N - 1 + 1)%nat with N by lia. lia.
Qed.

Lemma all_pairs_elem (N i j : nat) :
  (i, j) ∈ all_pairs N <-> (i < j < N)%nat.
Proof.
  unfold all_pairs. rewrite list_elem_of_bind. split.
  - intros (i' & Hj & Hi). apply list_elem_of_fmap in Hj as (j' & Heq & Hj).
    injection Heq as -> ->. apply elem_of_seq in Hj, Hi. lia.
  - intros H. exists i. split.
    + apply list_elem_of_fmap. exists j. split; [reflexivity|].
      apply elem_of_seq. lia.
    + apply elem_of_seq. lia.
Qed.

Lemma succ_mod_wrap (a N : nat) :
  (0 < N)%nat ->
  (if (S (a mod N) =? N)%nat then 0%nat else S (a mod N)) = ((a + 1) mod N)%nat.
Proof.
  intros HN.
  pose proof (Nat.div_mod_eq a N) as Hd.
  pose proof (Nat.mod_upper_bound a N ltac:(lia)) as Hb.
  destruct (Nat.eqb_spec (S (a mod N)%nat) N) as [E|E].
  - apply Nat.mod_unique with (q := S (a / N)%nat); nia.
  - apply Nat.mod_unique with (q := (a / N)%nat); nia.
Qed.

Section PrepareRing.

Context {Dist Calc : Type}.
Variable calculateDistance : nat -> nat -> Dist.
Variable Add : Calc -> list Dist -> Calc.
Variable N n : nat.
Variable calc0 : Calc.
Hypothesis HN : (0 < N)%nat.

Lemma ring_of_nil : ring_of N [] (replicate N (0%nat, 0%nat)).
Proof.
  split; [apply length_replicate|].
  intros s pr H. apply lookup_replicate in H as [-> _]. right. cbn. split; [reflexivity|lia].
Qed.

Lemma ring_of_snoc l ring x :
  ring_of N l ring ->
  ring_of N (l ++ [x]) (<[(length l mod N)%nat := x]> ring).
Proof.
  intros [Hlen Hslots]. split; [rewrite length_insert; exact Hlen|].
  pose proof (Nat.mod_upper_bound (length l) N ltac:(lia)) as Hb.
  intros s pr H. rewrite length_app. cbn [length].
  destruct (Nat.eq_dec (length l mod N)%nat s) as [E|E].
  - subst s. rewrite list_lookup_insert_eq in H by lia. injection H as <-.
    left. exists (length l). repeat split; try lia.
    rewrite lookup_app_r by lia. rewrite Nat.sub_diag. reflexivity.
  - rewrite list_lookup_insert_ne in H by exact E.
    assert (Hs : (s < N)%nat) by (apply lookup_lt_Some in H; lia).
    destruct (Hslots s pr H) as [(q & Hq & Hw & Hm & Hl)|[-> Hle]].
    + left. exists q. repeat split; try lia.
      * destruct (Nat.eq_dec (q + N)%nat (length l)) as [E'|E']; [|lia].
        exfalso. apply E. rewrite <- E', <- Hm.
        rewrite <- (Nat.Div0.add_mod_idemp_r q N N), Nat.Div0.mod_same, Nat.add_0_r.
        reflexivity.
      * rewrite lookup_app_l by lia. exact Hl.
    + right. split; [reflexivity|].
      destruct (Nat.eq_dec (length l) s) as [E'|E']; [|lia].
      exfalso. apply E. rewrite E'. apply Nat.mod_small. exact Hs.
Qed.

Lemma Prepare_no_flush l :
  (length l < n)%nat ->
  exists ring,
    ring_of N l ring /\
    foldl (fun st (p : nat * nat) =>
             Prepare_body calculateDistance Add N n st p.1 p.2)
          (mkPrepare (replicate N (0%nat, 0%nat)) 0 0 calc0) l =
    mkPrepare ring (length l mod N)%nat (length l) calc0.
Proof.
  induction l as [|x l IH] using rev_ind; intros Hl.
  - exists (replicate N (0%nat, 0%nat)). split; [apply ring_of_nil|].
    cbn [foldl length]. rewrite Nat.Div0.mod_0_l. reflexivity.
  - rewrite length_app in Hl. cbn [length] in Hl.
    destruct (IH ltac:(lia)) as (ring & Hring & Hrun).
    exists (<[(length l mod N)%nat := x]> ring). split; [apply ring_of_snoc, Hring|].
    rewrite foldl_app, Hrun. cbn [foldl]. unfold Prepare_body.
    cbn [pairs k_ c_ calc]. rewrite (succ_mod_wrap _ _ HN).
    pose proof (Nat.mod_upper_bound (length l + 1)%nat N ltac:(lia)) as Hb.
    destruct (Nat.eqb_spec ((length l + 1) mod N)%nat N) as [E|_]; [lia|].
    destruct (Nat.eqb_spec (S (length l)) n) as [E|_]; [lia|].
    cbn [orb]. rewrite length_app. cbn [length].
    destruct x; cbn [fst snd]. rewrite Nat.add_1_r. reflexivity.
Qed.

Lemma Prepare_flush l x :
  (length l + 1 = n)%nat ->
  exists ring,
    ring_of N (l ++ [x]) ring /\
    calc (foldl (fun st (p : nat * nat) =>
                   Prepare_body calculateDistance Add N n st p.1 p.2)
                (mkPrepare (replicate N (0%nat, 0%nat)) 0 0 calc0) (l ++ [x])) =
    Add calc0 ((fun ab : nat * nat => calculateDistance ab.1 ab.2) <$> ring).
Proof.
  intros Hl.
  destruct (Prepare_no_flush l ltac:(lia)) as (ring & Hring & Hrun).
  exists (<[(length l mod N)%nat := x]> ring). split; [apply ring_of_snoc, Hring|].
  rewrite foldl_app, Hrun. cbn [foldl]. unfold Prepare_body.
  cbn [pairs k_ c_ calc].
  destruct (Nat.eqb_spec (S (length l)) n) as [_|E]; [|lia].
  rewrite orb_true_r. cbn [calc]. destruct x; reflexivity.
Qed.

End PrepareRing.

(** X25.  [Prepare] on a population of [N >= 2] individuals (and fewer
    than [2^32]) calls [calc.Add] exactly once, after the last pair, with
    the [N] distances of the ring buffer [pairs]: slot [s] holds the
    distance of the last pair [(i, j)], [i < j < N], written at a position
    congruent to [s] modulo [N], so only the last [N] of the [N (N-1) / 2]
    pairs count; a slot never written (only for [N = 2]) holds the
    distance of individual 0 to itself. *)
Theorem Prepare_adds_last_pairs_once {Dist Calc : Type}
    (calculateDistance : nat -> nat -> Dist) (Add : Calc -> list Dist -> Calc)
    (N : nat) (calc0 : Calc) :
  (2 <= N)%nat -> Z.of_nat N < 2 ^ 32 ->
  (2 * length (all_pairs N) = N * (N - 1))%nat /\
  (forall i j, (i, j) ∈ all_pairs N <-> (i < j < N)%nat) /\
  exists ring : list (nat * nat),
    calc (Prepare_loops calculateDistance Add N calc0) =
      Add calc0 ((fun ab : nat * nat => calculateDistance ab.1 ab.2) <$> ring) /\
    length ring = N /\
    forall s pr, ring !! s = Some pr ->
      (exists q, (q < length (all_pairs N))%nat /\
                 (length (all_pairs N) <= q + N)%nat /\
                 (q mod N)%nat = s /\ all_pairs N !! q = Some pr) \/
      (pr = (0%nat, 0%nat) /\ (length (all_pairs N) <= s)%nat).
Proof.
  intros HN H32.
  pose proof (all_pairs_length N ltac:(lia)) as Hlen.
  split; [exact Hlen|]. split; [apply all_pairs_elem|].
  unfold Prepare_loops. rewrite nested_foldl_bind.
  assert (Hb : Z.to_nat ((Z.of_nat N - 1) mod SIZE_MOD) = (N - 1)%nat).
  { unfold SIZE_MOD. rewrite Z.mod_small by lia. lia. }
  assert (Hn : Z.to_nat (((Z.of_nat N - 1) mod SIZE_MOD * Z.of_nat N) mod SIZE_MOD / 2)
               = length (all_pairs N)).
  { unfold SIZE_MOD. rewrite (Z.mod_small (Z.of_nat N - 1)) by lia.
    rewrite Z.mod_small by nia.
    apply Nat2Z.inj. rewrite Z2Nat.id by (apply Z.div_pos; nia).
    symmetry. apply Z.div_unique with (r := 0); nia. }
  rewrite Hb, Hn. fold (all_pairs N).
  destruct (exists_last (l := all_pairs N)) as (l & x & Eall).
  { intros E. rewrite E in Hlen. cbn in Hlen. nia. }
  assert (Hl : (length l + 1 = length (all_pairs N))%nat)
    by (rewrite Eall, length_app; reflexivity).
  destruct (Prepare_flush calculateDistance Add N (length (all_pairs N)) calc0
              ltac:(lia) l x Hl) as (ring & [Hrl Hslots] & Hcalc).
  rewrite <- Eall in Hcalc, Hslots.
  exists ring. split; [exact Hcalc|]. split; [exact Hrl|exact Hslots].
Qed.

Lemma Prepare_adds_last_pairs_once_witness :
  (2 <= 4)%nat /\ Z.of_nat 4 < 2 ^ 32 /\
  exists ring : list (nat * nat),
    calc (Prepare_loops (fun a b => (a, b))
            (fun (c : list (list (nat * nat))) l => c ++ [l]) 4%nat []) =
      [(fun ab : nat * nat => (ab.1, ab.2)) <$> ring] /\
    length ring = 4%nat.
Proof.
  split; [lia|]. split; [reflexivity|].
  destruct (Prepare_adds_last_pairs_once (fun a b => (a, b))
              (fun (c : list (list (nat * nat))) l => c ++ [l]) 4%nat []
              ltac:(lia) ltac:(reflexivity)) as (_ & _ & ring & Hc & Hl & _).
  exists ring. split; [exact Hc | exact Hl].
Defined.
